(** * pyinit: project-root lookup, metadata reading and command dispatch

    A shallow embedding of [src/pyinit/utils.py] and [src/pyinit/main.py].

    - [Locator]: [find_project_root], the upward search for [pyproject.toml].
    - [PyStr], [PyVal], [Metadata]: the Python string and value operations
      used by [get_project_name] and [get_project_dependencies], and the two
      readers themselves.
    - [Logging]: the part of the standard library's [logging] that
      [setup_logger] drives, and [setup_logger] itself.
    - [Argparse], [Dispatcher]: the parser declared in [main], the argument
      pre-scan and the [if]/[elif] dispatch chain.

    The definitions come first, then the vocabulary of the statements, then
    the properties, component by component, and some worked examples.

    Python [str] values are modelled by [string]; a character stands for a
    code point below 256.  The orchestration routines and the filesystem
    are outside the model: a routine is a constructor of [Dispatcher.call],
    the filesystem is what [is_file] answers, and the marker file is what
    [open] and [tomllib.load] make of it. *)

From Stdlib Require Import ZArith Lia Ascii.
From Equations Require Import Equations.
From stdpp Require Import base decidable option list strings gmap.

Local Open Scope string_scope.
Local Open Scope list_scope.

(* ===================================================================== *)
(** ** Config locator ([utils.find_project_root]) *)
(* ===================================================================== *)

Module Locator.

(** A resolved absolute directory, as the components below the filesystem
    root, outermost first.  The root directory is [[]]. *)
Definition Path := list string.

(** [Path.parent]: the root is its own parent. *)
Definition parent (p : Path) : Path := removelast p.

(** [p / name]. *)
Definition joinpath (p : Path) (name : string) : Path := p ++ [name].

(** The filesystem is observed only through [Path.is_file]. *)
Definition filesystem := Path -> bool.

Definition marker : string := "pyproject.toml".

(** The search loop of [find_project_root], started at [current_dir].  The
    result is paired with the list of directories whose marker was probed
    with [is_file], in the order of the probes. *)
Equations? search (fs : filesystem) (current_dir : Path)
    : list Path * option Path by wf (length current_dir) lt :=
  search fs current_dir with decide (current_dir <> parent current_dir) := {
    | left _ =>
        (* loop body *)
        if fs (joinpath current_dir marker)
        then ([current_dir], Some current_dir)
        else let r := search fs (parent current_dir) in
             (current_dir :: r.1, r.2)
    | right _ =>
        (* final check for the filesystem root directory itself *)
        if fs (joinpath current_dir marker)
        then ([current_dir], Some current_dir)
        else ([current_dir], None) }.
Proof.
  (* the parent of a directory other than the root is one component shorter *)
  clear search. unfold parent in *.
  destruct current_dir as [|c p _] using rev_ind; [done|].
  rewrite removelast_last, length_app. simpl. lia.
Qed.

(** [find_project_root()], with [cwd] standing for [Path.cwd().resolve()]. *)
Definition find_project_root (fs : filesystem) (cwd : Path) : option Path :=
  (search fs cwd).2.

(** The directories probed by [find_project_root], one per [is_file] call. *)
Definition probes (fs : filesystem) (cwd : Path) : list Path :=
  (search fs cwd).1.

(** The ancestor [d] levels above [p] ([d = 0] is [p] itself). *)
Fixpoint ancestor (d : nat) (p : Path) : Path :=
  match d with
  | 0 => p
  | S d' => ancestor d' (parent p)
  end.

Definition has_marker (fs : filesystem) (dir : Path) : Prop :=
  fs (joinpath dir marker) = true.

End Locator.

(* ===================================================================== *)
(** ** Python exceptions and results *)
(* ===================================================================== *)

(** The exception classes that the modelled code can meet. *)
Inductive exn :=
| FileNotFoundError
| IsADirectoryError
| PermissionError
| UnicodeDecodeError
| TOMLDecodeError
| TypeError
| AttributeError
| KeyError
| IndexError.

#[global] Instance exn_eq_dec : EqDecision exn.
Proof. solve_decision. Defined.

(** A computation either returns a value or is cut short by [e : E]. *)
Inductive result (E A : Type) :=
| Ok (a : A)
| Raise (e : E).
Arguments Ok {E A} a.
Arguments Raise {E A} e.

(** Sequencing: [x ← m; k] runs [m], and [k] only if [m] returned. *)
#[global] Instance result_bind {E} : MBind (result E) := fun A B k m =>
  match m with
  | Ok a => k a
  | Raise e => Raise e
  end.

(** [try: body except (e1, e2, ...): handler]. *)
Definition try_except {A} (body : result exn A) (caught : list exn)
    (handler : result exn A) : result exn A :=
  match body with
  | Ok a => Ok a
  | Raise e => if bool_decide (e ∈ caught) then handler else Raise e
  end.

(** Running [f] on every element in order, stopping at the first raise. *)
Fixpoint for_each {E A B} (f : A -> result E (list B)) (l : list A)
    : result E (list B) :=
  match l with
  | [] => Ok []
  | x :: l' => ys ← f x; zs ← for_each f l'; Ok (ys ++ zs)
  end.

(* ===================================================================== *)
(** ** Python strings *)
(* ===================================================================== *)

Module PyStr.

Definition code (c : ascii) : nat := nat_of_ascii c.

(** [str.isspace] on one character: the code points below 256 that Python
    counts as whitespace (TAB..CR, FS..US, SPACE, NEL, NBSP). *)
Definition is_space (c : ascii) : bool :=
  let n := code c in
  ((9 <=? n)%nat && (n <=? 13)%nat) || ((28 <=? n)%nat && (n <=? 32)%nat)
  || (n =? 133)%nat || (n =? 160)%nat.

Fixpoint lstrip (s : string) : string :=
  match s with
  | EmptyString => EmptyString
  | String c s' => if is_space c then lstrip s' else s
  end.

Fixpoint rstrip (s : string) : string :=
  match s with
  | EmptyString => EmptyString
  | String c s' =>
      match rstrip s' with
      | EmptyString => if is_space c then EmptyString else String c EmptyString
      | r => String c r
      end
  end.

(** [s.strip()] with no argument. *)
Definition strip (s : string) : string := rstrip (lstrip s).

(** Truth value of a string: non-empty. *)
Definition truthy (s : string) : bool :=
  match s with
  | EmptyString => false
  | String _ _ => true
  end.

(** The character class [[<>=!~]] of the cleaning pattern. *)
Definition is_operator (c : ascii) : bool :=
  bool_decide (c ∈ ["<"; ">"; "="; "!"; "~"]%char).

(** [re.split(cls, s)] for a pattern that is a single character class
    [cls]: the pieces of [s] between the characters of the class. *)
Fixpoint re_split (cls : ascii -> bool) (s : string) : list string :=
  match s with
  | EmptyString => [EmptyString]
  | String c s' =>
      if cls c then EmptyString :: re_split cls s'
      else match re_split cls s' with
           | piece :: rest => String c piece :: rest
           | [] => [String c EmptyString]
           end
  end.

(** [l[0]]. *)
Definition item0 {A} (l : list A) : result exn A :=
  match l with
  | x :: _ => Ok x
  | [] => Raise IndexError
  end.

Fixpoint startswith (p s : string) : bool :=
  match p, s with
  | EmptyString, _ => true
  | String a p', String b s' => bool_decide (a = b) && startswith p' s'
  | String _ _, EmptyString => false
  end.

(** [needle in hay] for two strings. *)
Fixpoint contains (needle hay : string) : bool :=
  startswith needle hay ||
  match hay with
  | EmptyString => false
  | String _ hay' => contains needle hay'
  end.

(** The characters of a string, as the one-character strings that iterating
    over a [str] yields. *)
Fixpoint chars (s : string) : list string :=
  match s with
  | EmptyString => []
  | String c s' => String c EmptyString :: chars s'
  end.

End PyStr.

(* ===================================================================== *)
(** ** Parsed TOML data *)
(* ===================================================================== *)

Module PyVal.

(** What [tomllib] produces.  Floats and date-times are kept as their
    source text: the readers never look inside them. *)
#[warnings="-register-all"] Inductive value :=
| VStr (s : string)
| VInt (n : Z)
| VFloat (text : string)
| VBool (b : bool)
| VDatetime (text : string)
| VList (items : list value)
| VDict (entries : list (string * value)).

(** A [dict] with string keys, in insertion order; keys are unique. *)
Definition dict := list (string * value).

Fixpoint lookup_key (k : string) (d : dict) : option value :=
  match d with
  | [] => None
  | (k', v) :: d' => if bool_decide (k = k') then Some v else lookup_key k d'
  end.

(** [k in d] for a [dict]. *)
Definition has_key (k : string) (d : dict) : bool :=
  match lookup_key k d with Some _ => true | None => false end.

(** [d[k]] for a [dict]. *)
Definition dict_getitem (d : dict) (k : string) : result exn value :=
  match lookup_key k d with
  | Some v => Ok v
  | None => Raise KeyError
  end.

(** [d.get(k, default)] for a [dict]. *)
Definition dict_get (d : dict) (k : string) (default : value) : value :=
  match lookup_key k d with
  | Some v => v
  | None => default
  end.

(** [v.get(k)] on an arbitrary value: only a [dict] has the method. *)
Definition method_get (v : value) (k : string) : result exn (option value) :=
  match v with
  | VDict d => Ok (lookup_key k d)
  | _ => Raise AttributeError
  end.

(** [k in v] with [k] a string. *)
Definition contains (k : string) (v : value) : result exn bool :=
  match v with
  | VDict d => Ok (has_key k d)
  | VStr s => Ok (PyStr.contains k s)
  | VList l =>
      Ok (existsb (fun x => match x with
                            | VStr s => bool_decide (s = k)
                            | _ => false
                            end) l)
  | VInt _ | VFloat _ | VBool _ | VDatetime _ => Raise TypeError
  end.

(** [v[k]] with [k] a string. *)
Definition getitem (v : value) (k : string) : result exn value :=
  match v with
  | VDict d => dict_getitem d k
  | _ => Raise TypeError
  end.

(** The elements that [list.extend(v)] appends. *)
Definition iterate (v : value) : result exn (list value) :=
  match v with
  | VList l => Ok l
  | VStr s => Ok (VStr <$> PyStr.chars s)
  | VDict d => Ok ((fun kv => VStr kv.1) <$> d)
  | VInt _ | VFloat _ | VBool _ | VDatetime _ => Raise TypeError
  end.

(** [v.values()]. *)
Definition method_values (v : value) : result exn (list value) :=
  match v with
  | VDict d => Ok (snd <$> d)
  | _ => Raise AttributeError
  end.

(** [v.strip()]. *)
Definition method_strip (v : value) : result exn string :=
  match v with
  | VStr s => Ok (PyStr.strip s)
  | _ => Raise AttributeError
  end.

(** [re.split(pattern, v)]: the subject must be a string. *)
Definition re_split (cls : ascii -> bool) (v : value) : result exn (list string) :=
  match v with
  | VStr s => Ok (PyStr.re_split cls s)
  | _ => Raise TypeError
  end.

End PyVal.

(* ===================================================================== *)
(** ** Metadata reader ([utils.get_project_name],
       [utils.get_project_dependencies]) *)
(* ===================================================================== *)

Module Metadata.
Import PyVal.

(** The state of [project_root / "pyproject.toml"], as far as
    [open(path, "rb")] and [tomllib.load] can tell states apart. *)
Inductive marker_file :=
| Absent                      (* no such file *)
| IsDirectory                 (* the name is a directory *)
| Unreadable                  (* no permission to read *)
| NotUtf8                     (* the bytes are not UTF-8 text *)
| NotToml                     (* the text is not a TOML document *)
| Document (data : dict).     (* a TOML document and its content *)

(** [with open(pyproject_path, "rb") as f: data = tomllib.load(f)]. *)
Definition load (file : marker_file) : result exn dict :=
  match file with
  | Absent => Raise FileNotFoundError
  | IsDirectory => Raise IsADirectoryError
  | Unreadable => Raise PermissionError
  | NotUtf8 => Raise UnicodeDecodeError
  | NotToml => Raise TOMLDecodeError
  | Document data => Ok data
  end.

(** The [except (tomllib.TOMLDecodeError, FileNotFoundError)] clause. *)
Definition caught : list exn := [TOMLDecodeError; FileNotFoundError].

Definition get_project_name (file : marker_file) : result exn (option value) :=
  try_except
    (data ← load file;
     method_get (dict_get data "project" (VDict [])) "name")
    caught
    (Ok None).

(** [re.split(r"[<>=!~]", dep)[0].strip()]. *)
Definition clean (dep : value) : result exn string :=
  pieces ← re_split PyStr.is_operator dep;
  first ← PyStr.item0 pieces;
  Ok (PyStr.strip first).

(** One round of the list comprehension: the filter [if dep.strip()] and
    then the element expression. *)
Definition clean_entry (dep : value) : result exn (list string) :=
  stripped ← method_strip dep;
  if PyStr.truthy stripped
  then name ← clean dep; Ok [name]
  else Ok [].

(** [data["project"][key]] guarded by
    [if "project" in data and key in data["project"]]; [None] when the
    guard is false. *)
Definition project_entry (data : dict) (key : string) : result exn (option value) :=
  if has_key "project" data then
    project ← dict_getitem data "project";
    present ← contains key project;
    if (present : bool) then
      project ← dict_getitem data "project";
      v ← getitem project key;
      Ok (Some v)
    else Ok None
  else Ok None.

(** The [dependencies] list when the list comprehension starts: the main
    dependencies followed by the entries of every optional group. *)
Definition collected (file : marker_file) : result exn (list value) :=
  let dependencies : list value := [] in
  data ← load file;
  (* main dependencies *)
  main ← project_entry data "dependencies";
  dependencies ←
    match main with
    | Some v => items ← iterate v; Ok (dependencies ++ items)
    | None => Ok dependencies
    end;
  (* optional dependency groups *)
  optional ← project_entry data "optional-dependencies";
  match optional with
  | Some v =>
      groups ← method_values v;
      extra ← for_each iterate groups;
      Ok (dependencies ++ extra)
  | None => Ok dependencies
  end.

(** The value of [cleaned_deps]. *)
Definition cleaned_deps (file : marker_file) : result exn (list string) :=
  dependencies ← collected file;
  for_each clean_entry dependencies.

(** The function returns [list(set(cleaned_deps))]: a duplicate-free list
    in the iteration order of a Python set, which is not specified.  The
    model returns the set of its elements; the handler's [[]] is the empty
    set. *)
Definition get_project_dependencies (file : marker_file) : result exn (gset string) :=
  try_except
    (cleaned ← cleaned_deps file; Ok (list_to_set cleaned))
    caught
    (Ok ∅).

End Metadata.

(* ===================================================================== *)
(** ** Logger set-up ([utils.setup_logger]) *)
(* ===================================================================== *)

(** The standard library's [logging], as far as [setup_logger] uses it
    (CPython 3.11): the root logger and the dictionary of loggers, with the
    level and the handlers of each.  Formatters, filters and the caches of
    [isEnabledFor] are not tracked.  [setup_logger] hands [basicConfig] one
    newly built handler, and [basicConfig] adds handlers to a root logger
    that has none, so that equal handlers stand for the same object. *)
Module Logging.

(** A handler attached to a logger: the [RichHandler] that [setup_logger]
    builds, with its options, or any other handler. *)
Inductive handler :=
| RichHandler (show_path show_level show_time markup : bool)
| OtherHandler (description : string).

#[global] Instance handler_eq_dec : EqDecision handler.
Proof. solve_decision. Defined.

(** The attributes of a [Logger] that configuration touches. *)
Record logger := Logger {
  level : nat;
  handlers : list handler;
  propagate : bool;
  disabled : bool }.

(** An entry of [Manager.loggerDict]. *)
Inductive entry :=
| ALogger (l : logger)
| PlaceHolder.

(** The state of the [logging] module: the root logger and the loggers
    created so far. *)
Record state := State {
  root : logger;
  loggerDict : gmap string entry }.

Definition NOTSET : nat := 0.
Definition INFO : nat := 20.
Definition WARNING : nat := 30.

(** [Logger(name)]. *)
Definition new_logger : logger :=
  {| level := NOTSET; handlers := []; propagate := true; disabled := false |}.

(** The state in which the module is imported. *)
Definition initial : state :=
  {| root := {| level := WARNING; handlers := []; propagate := true;
                disabled := false |};
     loggerDict := ∅ |}.

(** [logger.addHandler(hdlr)]. *)
Definition addHandler (hdlr : handler) (l : logger) : logger :=
  if bool_decide (hdlr ∈ handlers l) then l
  else {| level := level l; handlers := handlers l ++ [hdlr];
          propagate := propagate l; disabled := disabled l |}.

(** [logger.setLevel(level)]. *)
Definition setLevel (n : nat) (l : logger) : logger :=
  {| level := n; handlers := handlers l; propagate := propagate l;
     disabled := disabled l |}.

(** [logging.basicConfig(level=..., format=..., datefmt=..., handlers=...)]:
    nothing happens when the root logger has a handler. *)
Definition basicConfig (lvl : nat) (hs : list handler) (s : state) : state :=
  match handlers (root s) with
  | [] =>
      {| root := setLevel lvl (foldl (fun l h => addHandler h l) (root s) hs);
         loggerDict := loggerDict s |}
  | _ :: _ => s
  end.

(** [logging.getLogger(name)] for a name other than the root's: the logger
    is returned by its name. *)
Definition getLogger (name : string) (s : state) : state * string :=
  match loggerDict s !! name with
  | Some (ALogger _) => (s, name)
  | Some PlaceHolder | None =>
      ({| root := root s;
          loggerDict := <[name := ALogger new_logger]> (loggerDict s) |}, name)
  end.

(** [logger.getEffectiveLevel()] for a logger whose name has no dot, so
    that its parent is the root logger. *)
Definition getEffectiveLevel (name : string) (s : state) : option nat :=
  match loggerDict s !! name with
  | Some (ALogger l) =>
      Some (if bool_decide (level l = NOTSET) then level (root s) else level l)
  | Some PlaceHolder | None => None
  end.

End Logging.

(** [utils.setup_logger]. *)
Definition setup_logger (s : Logging.state) : Logging.state * string :=
  let s := Logging.basicConfig Logging.INFO
             [Logging.RichHandler false true false true] s in
  let log := Logging.getLogger "rich" s in
  log.

(** A process in which [logging] was configured before: the root logger
    has a handler of its own and is left at [WARNING]. *)
Definition configured : Logging.state :=
  {| Logging.root :=
       {| Logging.level := Logging.WARNING;
          Logging.handlers := [Logging.OtherHandler "stderr"];
          Logging.propagate := true; Logging.disabled := false |};
     Logging.loggerDict := ∅ |}.

(** The state after [n] calls of [setup_logger]. *)
Definition after_calls (n : nat) (s : Logging.state) : Logging.state :=
  Nat.iter n (fun s => (setup_logger s).1) s.


(* ===================================================================== *)
(** ** The argument parser ([argparse], as far as [main] uses it) *)
(* ===================================================================== *)

(** [argparse] is the standard library's; the model follows CPython 3.11
    ([ArgumentParser.parse_args] and what it calls) for the features that
    [main] declares: the implicit [-h/--help], [store] and [store_true]
    options, positionals with [nargs=None] or ["+"] and [choices], and
    required sub-parsers.  Every parser of [main] declares at most one
    positional, and so does the model. *)
Module Argparse.

(** Values stored in a [Namespace]. *)
Inductive argval :=
| ANone
| AStr (s : string)
| ABool (b : bool)
| AList (l : list string).

Abbreviation namespace := (gmap string argval).

(** Optional actions. *)
Inductive opt_action :=
| Help                                     (* nargs = 0 *)
| StoreTrue (dest : string)                (* nargs = 0, default False *)
| Store (dest : string) (default : argval). (* nargs = None *)

(** An optional: its option strings and its action. *)
Definition optional : Type := list string * opt_action.

Inductive parser :=
| Parser (prog : string) (optionals : list optional) (pos : positional)
with positional :=
| NoPositional
| Single (dest : string) (metavar : option string)
         (choices : option (list string))      (* nargs = None *)
| OneOrMore (dest : string) (metavar : option string)  (* nargs = "+" *)
| SubParsers (dest : string) (required : bool) (subs : subparsers)
with subparsers :=
| NoParsers
| AddParser (name : string) (p : parser) (rest : subparsers).

(** The messages of [parser.error]. *)
Inductive error_message :=
| AmbiguousOption (arg : string) (matches : list string)
| InvalidChoice (argument : string) (value : string)
| UnknownParser (name : string)
| ExpectedOneArgument (action : opt_action)
| IgnoredExplicitArgument (action : opt_action) (explicit_arg : string)
| RequiredArguments (names : list string)
| UnrecognizedArguments (extras : list string).

(** How a parser ends the process: [print_help(); exit()] or
    [error(message)]. *)
Inductive exit :=
| PrintHelp (prog : string)
| UsageError (prog : string) (message : error_message).

Definition status (e : exit) : Z :=
  match e with
  | PrintHelp _ => 0
  | UsageError _ _ => 2
  end.

Inductive stream := Stdout | Stderr.

Inductive text :=
| HelpText (prog : string)
| UsageText (prog : string)
| ErrorLine (prog : string) (message : error_message).

(** What the exit writes, in order. *)
Definition output (e : exit) : list (stream * text) :=
  match e with
  | PrintHelp prog => [(Stdout, HelpText prog)]
  | UsageError prog m => [(Stderr, UsageText prog); (Stderr, ErrorLine prog m)]
  end.

(** What cuts parsing short: [SystemExit], or an exception nobody catches. *)
Inductive stop :=
| SystemExit (e : exit)
| Uncaught (e : exn).

Abbreviation parsed := (result stop).

Definition error {A} (prog : string) (m : error_message) : parsed A :=
  Raise (SystemExit (UsageError prog m)).

(** *** Recognising option strings ([_parse_optional]) *)

(** [parser._option_string_actions], in insertion order. *)
Definition option_string_actions (opts : list optional)
    : list (string * opt_action) :=
  flat_map (fun o : optional => (fun s => (s, o.2)) <$> o.1) opts.

Fixpoint lookup_action (s : string) (m : list (string * opt_action))
    : option opt_action :=
  match m with
  | [] => None
  | (s', a) :: m' => if bool_decide (s = s') then Some a else lookup_action s m'
  end.

(** [s.split("=", 1)] when ["=" in s]. *)
Fixpoint split_eq (s : string) : option (string * string) :=
  match s with
  | EmptyString => None
  | String c s' =>
      if bool_decide (c = "="%char) then Some (EmptyString, s')
      else match split_eq s' with
           | Some (l, r) => Some (String c l, r)
           | None => None
           end
  end.

Definition is_digit (c : ascii) : bool :=
  let n := nat_of_ascii c in (48 <=? n)%nat && (n <=? 57)%nat.

Fixpoint skip_digits (s : string) : string :=
  match s with
  | EmptyString => EmptyString
  | String c s' => if is_digit c then skip_digits s' else s
  end.

Definition starts_with_digit (s : string) : bool :=
  match s with
  | String c _ => is_digit c
  | EmptyString => false
  end.

(** Where the regular expression's [$] matches: at the end, or before a
    final newline. *)
Definition at_end (s : string) : bool :=
  bool_decide (s = EmptyString) || bool_decide (s = String "010"%char EmptyString).

(** [_negative_number_matcher]: [^-\d+$|^-\d*\.\d+$]. *)
Definition looks_negative (s : string) : bool :=
  match s with
  | String "-"%char r =>
      (starts_with_digit r && at_end (skip_digits r))
      || match skip_digits r with
         | String "."%char r2 => starts_with_digit r2 && at_end (skip_digits r2)
         | _ => false
         end
  | _ => false
  end.

Definition has_negative_number_optionals (m : list (string * opt_action)) : bool :=
  existsb (fun e => looks_negative e.1) m.

Fixpoint has_space (s : string) : bool :=
  match s with
  | EmptyString => false
  | String c s' => bool_decide (c = " "%char) || has_space s'
  end.

Definition second_is_dash (s : string) : bool :=
  match s with
  | String _ (String "-"%char _) => true
  | _ => false
  end.

Definition take2 (s : string) : string :=
  match s with
  | String a (String b _) => String a (String b EmptyString)
  | _ => s
  end.

Definition drop2 (s : string) : string :=
  match s with
  | String _ (String _ r) => r
  | _ => EmptyString
  end.

(** An option tuple: action, option string, explicit argument. *)
Definition option_tuple : Type := option opt_action * string * option string.

(** [_get_option_tuples], for an argument of at least two characters that
    starts with ["-"]. *)
Definition get_option_tuples (m : list (string * opt_action)) (arg : string)
    : list option_tuple :=
  if second_is_dash arg then
    let '(option_prefix, explicit_arg) :=
      match split_eq arg with
      | Some (l, r) => (l, Some r)
      | None => (arg, None)
      end in
    flat_map (fun e : string * opt_action =>
                if PyStr.startswith option_prefix e.1
                then [(Some e.2, e.1, explicit_arg)] else []) m
  else
    flat_map (fun e : string * opt_action =>
                if bool_decide (e.1 = take2 arg)
                then [(Some e.2, e.1, Some (drop2 arg))]
                else if PyStr.startswith arg e.1
                then [(Some e.2, e.1, None)] else []) m.

(** [_parse_optional]: [None] for a positional argument. *)
Definition parse_optional (prog : string) (m : list (string * opt_action))
    (arg : string) : parsed (option option_tuple) :=
  match arg with
  | EmptyString => Ok None
  | String c _ =>
      if negb (bool_decide (c = "-"%char)) then Ok None
      else match lookup_action arg m with
      | Some a => Ok (Some (Some a, arg, None))
      | None =>
          if (String.length arg =? 1)%nat then Ok None
          else
            let by_eq :=
              match split_eq arg with
              | Some (l, r) =>
                  match lookup_action l m with
                  | Some a => Some (Some a, l, Some r)
                  | None => None
                  end
              | None => None
              end in
            match by_eq with
            | Some t => Ok (Some t)
            | None =>
                match get_option_tuples m arg with
                | t1 :: t2 :: ts =>
                    error prog
                      (AmbiguousOption arg ((fun t : option_tuple => t.1.2) <$> (t1 :: t2 :: ts)))
                | [t] => Ok (Some t)
                | [] =>
                    if looks_negative arg && negb (has_negative_number_optionals m)
                    then Ok None
                    else if has_space arg then Ok None
                    else Ok (Some (None, arg, None))
                end
            end
      end
  end.

(** One letter of [arg_strings_pattern]. *)
Inductive sym :=
| SymO (t : option_tuple)
| SymA
| SymDash.

(** The pattern of a whole argument list. *)
Fixpoint classify (prog : string) (m : list (string * opt_action))
    (args : list string) : parsed (list sym) :=
  match args with
  | [] => Ok []
  | arg :: rest =>
      if bool_decide (arg = "--") then Ok (SymDash :: ((fun _ => SymA) <$> rest))
      else
        t ← parse_optional prog m arg;
        syms ← classify prog m rest;
        Ok (match t with Some t => SymO t | None => SymA end :: syms)
  end.

(** *** Taking actions ([take_action], [_get_values]) *)

(** What [_parse_known_args] accumulates. *)
Record state := State {
  ns : namespace;
  extras : list string;
  unrecognized : list string;     (* the namespace's unrecognized-args slot *)
  positional_seen : bool }.

Definition setattr (dest : string) (v : argval) (st : state) : state :=
  {| ns := <[dest := v]> (ns st); extras := extras st;
     unrecognized := unrecognized st; positional_seen := positional_seen st |}.

Definition add_extras (l : list string) (st : state) : state :=
  {| ns := ns st; extras := extras st ++ l;
     unrecognized := unrecognized st; positional_seen := positional_seen st |}.

Definition mark_seen (st : state) : state :=
  {| ns := ns st; extras := extras st;
     unrecognized := unrecognized st; positional_seen := true |}.

(** [l.remove(x)], doing nothing when [x] is not in [l]. *)
Fixpoint remove_first (x : string) (l : list string) : list string :=
  match l with
  | [] => []
  | y :: l' => if bool_decide (y = x) then l' else y :: remove_first x l'
  end.

(** [_check_value]. *)
Definition check_value (prog argument : string) (choices : option (list string))
    (v : string) : parsed unit :=
  match choices with
  | Some cs => if bool_decide (v ∈ cs) then Ok tt
               else error prog (InvalidChoice argument v)
  | None => Ok tt
  end.

Fixpoint check_values (prog argument : string) (choices : option (list string))
    (vs : list string) : parsed unit :=
  match vs with
  | [] => Ok tt
  | v :: vs' => _ ← check_value prog argument choices v;
                check_values prog argument choices vs'
  end.

(** [_get_values] for [nargs=None]: the first ["--"] is dropped; one string
    left gives that string, anything else gives the list. *)
Definition get_values_single (prog argument : string)
    (choices : option (list string)) (arg_strings : list string) : parsed argval :=
  match remove_first "--" arg_strings with
  | [v] => _ ← check_value prog argument choices v; Ok (AStr v)
  | vs => _ ← check_values prog argument choices vs; Ok (AList vs)
  end.

Definition nargs (a : opt_action) : nat :=
  match a with
  | Store _ _ => 1
  | Help | StoreTrue _ => 0
  end.

Definition take_optional (prog : string) (a : opt_action)
    (arg_strings : list string) (st : state) : parsed state :=
  match a with
  | Help => Raise (SystemExit (PrintHelp prog))
  | StoreTrue dest => Ok (setattr dest (ABool true) st)
  | Store dest _ =>
      v ← get_values_single prog dest None arg_strings;
      Ok (setattr dest v st)
  end.

Fixpoint names (subs : subparsers) : list string :=
  match subs with
  | NoParsers => []
  | AddParser n _ rest => n :: names rest
  end.

(** The name of a positional in messages: its metavar, else its dest. *)
Definition display (dest : string) (metavar : option string) : string :=
  default dest metavar.

(** [take_action] for the positional; [sub name args] runs the sub-parser
    called [name] on [args]. *)
Definition take_positional (prog : string) (pos : positional)
    (sub : string -> list string -> option (parsed (namespace * list string)))
    (arg_strings : list string) (st : state) : parsed state :=
  match pos with
  | NoPositional => Ok st
  | Single dest metavar choices =>
      v ← get_values_single prog (display dest metavar) choices arg_strings;
      Ok (setattr dest v st)
  | OneOrMore dest metavar =>
      Ok (setattr dest (AList (remove_first "--" arg_strings)) st)
  | SubParsers dest _ subs =>
      match arg_strings with
      | [] => Raise (Uncaught IndexError)
      | parser_name :: arg_strings =>
          if bool_decide (parser_name ∈ names subs) then
            let st := setattr dest (AStr parser_name) st in
            match sub parser_name arg_strings with
            | None => error prog (UnknownParser parser_name)
            | Some r =>
                '(subnamespace, sub_extras) ← r;
                Ok {| ns := subnamespace ∪ ns st; extras := extras st;
                      unrecognized := unrecognized st ++ sub_extras;
                      positional_seen := positional_seen st |}
            end
          else error prog (InvalidChoice dest parser_name)
      end
  end.

(** *** Consuming optionals ([consume_optional]) *)

Definition item : Type := string * sym.

Definition action_tuple : Type := opt_action * list string * string.

(** No explicit argument: the option's arguments are the strings that
    follow.  Returns how many of them were taken. *)
Definition following_args (prog : string) (action : opt_action)
    (option_string : string) (following : list item)
    (tuples : list action_tuple) : parsed (list action_tuple * nat) :=
  match nargs action with
  | 0 => Ok (tuples ++ [(action, [], option_string)], 0)
  | _ =>
      match following with
      | (a, SymA) :: _ => Ok (tuples ++ [(action, [a], option_string)], 1)
      | _ => error prog (ExpectedOneArgument action)
      end
  end.

(** An explicit argument ([--opt=value], [-ovalue]); a single-dash flag
    that takes no argument hands the rest on as further flags. *)
Fixpoint explicit_args (prog : string) (m : list (string * opt_action))
    (action : opt_action) (option_string explicit_arg : string)
    (following : list item) (tuples : list action_tuple) {struct explicit_arg}
    : parsed (list action_tuple * nat) :=
  match nargs action with
  | 0 =>
      if negb (second_is_dash option_string) && PyStr.truthy explicit_arg then
        match explicit_arg with
        | EmptyString => error prog (IgnoredExplicitArgument action explicit_arg)
        | String c new_explicit_arg =>
            let tuples := tuples ++ [(action, [], option_string)] in
            let option_string' := String "-"%char (String c EmptyString) in
            match lookup_action option_string' m with
            | Some action' =>
                match new_explicit_arg with
                | EmptyString =>
                    following_args prog action' option_string' following tuples
                | String _ _ =>
                    explicit_args prog m action' option_string' new_explicit_arg
                                  following tuples
                end
            | None => error prog (IgnoredExplicitArgument action explicit_arg)
            end
        end
      else error prog (IgnoredExplicitArgument action explicit_arg)
  | _ => Ok (tuples ++ [(action, [explicit_arg], option_string)], 0)
  end.

Fixpoint take_all (prog : string) (tuples : list action_tuple) (st : state)
    : parsed state :=
  match tuples with
  | [] => Ok st
  | (action, args, _) :: rest =>
      st ← take_optional prog action args st; take_all prog rest st
  end.

(** [consume_optional] at the option [arg], classified as [t].  Returns
    the new state and how many of the [following] items were taken. *)
Definition consume_optional (prog : string) (m : list (string * opt_action))
    (st : state) (arg : string) (t : option_tuple) (following : list item)
    : parsed (state * nat) :=
  match t with
  | (None, _, _) => Ok (add_extras [arg] st, 0)
  | (Some action, option_string, explicit_arg) =>
      '(tuples, n) ←
        match explicit_arg with
        | Some e => explicit_args prog m action option_string e following []
        | None => following_args prog action option_string following []
        end;
      st ← take_all prog tuples st;
      Ok (st, n)
  end.

(** *** Consuming positionals ([consume_positionals]) *)

Definition is_dash (s : sym) : bool :=
  match s with SymDash => true | _ => false end.

Definition is_arg_or_dash (s : sym) : bool :=
  match s with SymO _ => false | _ => true end.

Fixpoint count_while {A} (f : A -> bool) (l : list A) : nat :=
  match l with
  | x :: l' => if f x then S (count_while f l') else 0
  | [] => 0
  end.

(** The length of the match of the positional's pattern at the start of
    [pattern]: leading dashes and one [A], followed by dashes
    ([nargs=None]), by [A]s and dashes (["+"]), or by anything (a
    sub-parser action). *)
Definition match_positional (pos : positional) (pattern : list sym) : option nat :=
  let d := count_while is_dash pattern in
  match drop d pattern with
  | SymA :: after =>
      match pos with
      | NoPositional => None
      | Single _ _ _ => Some (d + 1 + count_while is_dash after)
      | OneOrMore _ _ => Some (d + 1 + count_while is_arg_or_dash after)
      | SubParsers _ _ _ => Some (d + 1 + length after)
      end
  | _ => None
  end.

(** Returns the new state and how many items were taken. *)
Definition consume_positionals (prog : string) (pos : positional)
    (sub : string -> list string -> option (parsed (namespace * list string)))
    (st : state) (rest : list item) : parsed (state * nat) :=
  if positional_seen st then Ok (st, 0)
  else match match_positional pos (snd <$> rest) with
       | Some n =>
           st ← take_positional prog pos sub (fst <$> take n rest) st;
           Ok (mark_seen st, n)
       | None => Ok (st, 0)
       end.

(** *** The main loop of [_parse_known_args] *)

(** The items before the next option, that option, and the items after
    it; [None] when no option is ahead. *)
Fixpoint next_option (rest : list item)
    : option (list item * (string * option_tuple) * list item) :=
  match rest with
  | [] => None
  | (arg, SymO t) :: after => Some ([], (arg, t), after)
  | it :: rest' =>
      match next_option rest' with
      | Some (before, o, after) => Some (it :: before, o, after)
      | None => None
      end
  end.

(** One round of the [while] loop with [it :: following] still to parse and
    an option ahead.  Returns the new state and how many items of
    [following] were passed. *)
Definition iteration (prog : string) (m : list (string * opt_action))
    (pos : positional)
    (sub : string -> list string -> option (parsed (namespace * list string)))
    (st : state) (it : item) (following : list item)
    (before : list item) (o : string * option_tuple) (after : list item)
    : parsed (state * nat) :=
  match before with
  | [] => consume_optional prog m st o.1 o.2 after
  | _ :: before' =>
      '(st, n) ← consume_positionals prog pos sub st (it :: following);
      match n with
      | S n' => Ok (st, n')
      | 0 =>
          let st := add_extras (fst <$> before) st in
          '(st, k) ← consume_optional prog m st o.1 o.2 after;
          Ok (st, length before' + 1 + k)
      end
  end.

Equations? loop (prog : string) (m : list (string * opt_action))
    (pos : positional)
    (sub : string -> list string -> option (parsed (namespace * list string)))
    (st : state) (rest : list item)
    : parsed (state * list item) by wf (length rest) lt :=
  loop prog m pos sub st [] := Ok (st, []);
  loop prog m pos sub st (it :: following) :=
    match next_option (it :: following) with
    | None => Ok (st, it :: following)
    | Some (before, o, after) =>
        match iteration prog m pos sub st it following before o after with
        | Ok (st', passed) => loop prog m pos sub st' (drop passed following)
        | Raise e => Raise e
        end
    end.
Proof. rewrite length_drop. simpl. lia. Qed.

Definition required (pos : positional) : option string :=
  match pos with
  | NoPositional => None
  | Single dest metavar _ => Some (display dest metavar)
  | OneOrMore dest metavar => Some (display dest metavar)
  | SubParsers dest req _ => if req then Some dest else None
  end.

(** After the loop: the positionals after the last option, the leftovers,
    and the check for required arguments. *)
Definition finish (prog : string) (pos : positional)
    (sub : string -> list string -> option (parsed (namespace * list string)))
    (st : state) (rest : list item) : parsed state :=
  '(st, n) ← consume_positionals prog pos sub st rest;
  let st := add_extras (fst <$> drop n rest) st in
  match required pos with
  | Some name =>
      if positional_seen st then Ok st
      else error prog (RequiredArguments [name])
  | None => Ok st
  end.

(** The defaults that [parse_known_args] puts in a fresh namespace. *)
Definition action_defaults (opts : list optional) (pos : positional)
    : list (string * argval) :=
  flat_map (fun o : optional =>
              match o.2 with
              | Help => []
              | StoreTrue dest => [(dest, ABool false)]
              | Store dest d => [(dest, d)]
              end) opts
  ++ match pos with
     | NoPositional => []
     | Single dest _ _ | OneOrMore dest _ | SubParsers dest _ _ => [(dest, ANone)]
     end.

Definition defaults (opts : list optional) (pos : positional) : namespace :=
  foldl (fun (n : namespace) (e : string * argval) =>
           match n !! e.1 with
           | Some _ => n
           | None => <[e.1 := e.2]> n
           end) ∅ (action_defaults opts pos).

(** [parse_known_args] of a parser with the given declarations. *)
Definition parse_known_args_with (prog : string) (opts : list optional)
    (pos : positional)
    (sub : string -> list string -> option (parsed (namespace * list string)))
    (args : list string) : parsed (namespace * list string) :=
  let m := option_string_actions opts in
  let st := {| ns := defaults opts pos; extras := []; unrecognized := [];
               positional_seen := false |} in
  pattern ← classify prog m args;
  '(st, rest) ← loop prog m pos sub st (zip args pattern);
  st ← finish prog pos sub st rest;
  Ok (ns st, extras st ++ unrecognized st).

Fixpoint parse_known_args (p : parser) (args : list string) {struct p}
    : parsed (namespace * list string) :=
  match p with
  | Parser prog opts pos =>
      parse_known_args_with prog opts pos
        match pos with
        | SubParsers _ _ subs => select subs
        | _ => fun _ _ => None
        end
        args
  end
with select (subs : subparsers) (name : string) (args : list string) {struct subs}
    : option (parsed (namespace * list string)) :=
  match subs with
  | NoParsers => None
  | AddParser n p rest =>
      if bool_decide (n = name) then Some (parse_known_args p args)
      else select rest name args
  end.

Definition prog_of (p : parser) : string :=
  match p with Parser prog _ _ => prog end.

(** [parser.parse_args(args)]. *)
Definition parse_args (p : parser) (args : list string) : parsed namespace :=
  '(namespace, argv) ← parse_known_args p args;
  match argv with
  | [] => Ok namespace
  | _ :: _ => error (prog_of p) (UnrecognizedArguments argv)
  end.

(** Every parser gets [-h/--help]. *)
Definition help : optional := (["-h"; "--help"], Help).

End Argparse.

(* ===================================================================== *)
(** ** Command dispatcher ([main.main]) *)
(* ===================================================================== *)

Module Dispatcher.
Import Argparse.

(** [subparsers.add_parser(name, help=...)] with nothing added to it. *)
Definition plain (prog : string) : Argparse.parser :=
  Parser prog [help] NoPositional.

Definition parser_new : Argparse.parser :=
  Parser "pyinit new"
    [help; (["-t"; "--template"], Store "template" (AStr "app"))]
    (Single "project_name" (Some "PROJECT_NAME") None).

Definition parser_add : Argparse.parser :=
  Parser "pyinit add" [help] (Single "module_name" (Some "MOUDLE_NAME") None).

Definition parser_venv : Argparse.parser :=
  Parser "pyinit venv" [help]
    (SubParsers "venv_command" true
       (AddParser "create" (plain "pyinit venv create")
       (AddParser "remove" (plain "pyinit venv remove")
        NoParsers))).

Definition parser_bump : Argparse.parser :=
  Parser "pyinit bump" [help]
    (Single "part" None (Some ["major"; "minor"; "patch"])).

Definition parser_update : Argparse.parser :=
  Parser "pyinit update" [help; (["--upgrade"], StoreTrue "upgrade")]
    NoPositional.

Definition parser_env_set : Argparse.parser :=
  Parser "pyinit env set" [help] (OneOrMore "vars" (Some "KEY=VALUE")).

Definition parser_env : Argparse.parser :=
  Parser "pyinit env" [help]
    (SubParsers "env_command" true (AddParser "set" parser_env_set NoParsers)).

(** The sub-commands, in the order [main] adds them. *)
Definition subparsers : Argparse.subparsers :=
  AddParser "new" parser_new
  (AddParser "run" (plain "pyinit run")
  (AddParser "add" parser_add
  (AddParser "build" (plain "pyinit build")
  (AddParser "init" (plain "pyinit init")
  (AddParser "test" (plain "pyinit test")
  (AddParser "lock" (plain "pyinit lock")
  (AddParser "format" (plain "pyinit format")
  (AddParser "venv" parser_venv
  (AddParser "lint" (plain "pyinit lint")
  (AddParser "graph" (plain "pyinit graph")
  (AddParser "clean" (plain "pyinit clean")
  (AddParser "bump" parser_bump
  (AddParser "update" parser_update
  (AddParser "scan" (plain "pyinit scan")
  (AddParser "dockerize" (plain "pyinit dockerize")
  (AddParser "env" parser_env
  (AddParser "add-hooks" (plain "pyinit add-hooks")
   NoParsers))))))))))))))))).

(** The parser that [main] builds; the program is installed as [pyinit]. *)
Definition parser : Argparse.parser :=
  Parser "pyinit" [help] (SubParsers "command" true subparsers).

(** The verbs of the command line. *)
Definition verbs : list string := names subparsers.

Definition passthrough_commands : list string := ["run"; "test"; "lint"].

(** The index of the first argument that is a pass-through command, counting
    from [i]. *)
Fixpoint first_passthrough (i : nat) (main_args : list string) : option nat :=
  match main_args with
  | [] => None
  | arg :: rest =>
      if bool_decide (arg ∈ passthrough_commands) then Some i
      else first_passthrough (S i) rest
  end.

(** The [for i, arg in enumerate(main_args)] loop: the final
    [(main_args, sub_args)]. *)
Definition prescan (argv : list string) : list string * list string :=
  match first_passthrough 0 argv with
  | Some i => (take (i + 1) argv, drop (i + 1) argv)
  | None => (argv, [])
  end.

(** The orchestration routines, with the arguments [main] hands them. *)
Inductive call :=
| create_project (project_name template : argval)
| start_project (sub_args : list string)
| install_module (module_name : argval)
| install_project
| initialize_project
| run_tests (sub_args : list string)
| lock_dependencies
| format_project
| manage_venv (venv_command : argval)
| lint_project (sub_args : list string)
| show_dependency_graph
| clean_project
| bump_project_version (part : argval)
| update_dependencies (upgrade : argval)
| scan_project
| dockerize_project
| manage_env (vars : argval)
| add_git_hooks.

(** [args.name]. *)
Definition getattr (args : namespace) (name : string) : parsed argval :=
  match args !! name with
  | Some v => Ok v
  | None => Raise (Uncaught AttributeError)
  end.

(** [v == s] for a string literal [s]. *)
Definition eq_str (v : argval) (s : string) : bool :=
  match v with
  | AStr s' => bool_decide (s' = s)
  | _ => false
  end.

(** The [if]/[elif] chain: the routines it invokes, in order. *)
Definition dispatch (args : namespace) (sub_args : list string)
    : parsed (list call) :=
  command ← getattr args "command";
  if eq_str command "new" then
    project_name ← getattr args "project_name";
    template ← getattr args "template";
    Ok [create_project project_name template]
  else if eq_str command "run" then Ok [start_project sub_args]
  else if eq_str command "add" then
    module_name ← getattr args "module_name";
    Ok [install_module module_name]
  else if eq_str command "build" then Ok [install_project]
  else if eq_str command "init" then Ok [initialize_project]
  else if eq_str command "test" then Ok [run_tests sub_args]
  else if eq_str command "lock" then Ok [lock_dependencies]
  else if eq_str command "format" then Ok [format_project]
  else if eq_str command "venv" then
    venv_command ← getattr args "venv_command";
    Ok [manage_venv venv_command]
  else if eq_str command "lint" then Ok [lint_project sub_args]
  else if eq_str command "graph" then Ok [show_dependency_graph]
  else if eq_str command "clean" then Ok [clean_project]
  else if eq_str command "bump" then
    part ← getattr args "part";
    Ok [bump_project_version part]
  else if eq_str command "update" then
    upgrade ← getattr args "upgrade";
    Ok [update_dependencies upgrade]
  else if eq_str command "scan" then Ok [scan_project]
  else if eq_str command "dockerize" then Ok [dockerize_project]
  else if eq_str command "env" then
    env_command ← getattr args "env_command";
    if eq_str env_command "set" then
      vars ← getattr args "vars";
      Ok [manage_env vars]
    else Ok []
  else if eq_str command "add-hooks" then Ok [add_git_hooks]
  else Ok [].

(** The body of [main], given [sys.argv[1:]].  A routine counts as invoked
    when the body calls it; what the routine then does is outside this
    model. *)
Definition main_body (argv : list string) : parsed (list call) :=
  let '(main_args, sub_args) := prescan argv in
  args ← parse_args parser main_args;
  dispatch args sub_args.

(** How a run of the program ends. *)
Inductive ending :=
| Returns (calls : list call)   (* [main] returns after calling these routines *)
| Exits (e : exit)              (* the parser ended the process *)
| Fails (e : exn).              (* a failure was logged; nonzero exit status *)

(** Modelled from the spec: the [error_handling] decorator of
    [wrappers.py], which is not among the sources.  It is the single
    top-level wrapper around the whole dispatch that catches every
    operational failure, logs a message for the user and exits with a
    nonzero status; usage errors leave the process at once from parsing,
    and so does a request for help. *)
Definition error_handling (body : list string -> parsed (list call))
    (argv : list string) : ending :=
  match body argv with
  | Ok calls => Returns calls
  | Raise (SystemExit e) => Exits e
  | Raise (Uncaught e) => Fails e
  end.

(** [main], as decorated. *)
Definition main : list string -> ending := error_handling main_body.

End Dispatcher.

(* ===================================================================== *)
(** ** Vocabulary of the statements *)
(* ===================================================================== *)

(** The position of the first character of [s] that is in the class. *)
Fixpoint first_index (cls : ascii -> bool) (s : string) : option nat :=
  match s with
  | EmptyString => None
  | String c s' => if cls c then Some 0 else S <$> first_index cls s'
  end.

(** A dependency specifier cut at its first version-operator character and
    trimmed. *)
Definition bare_name (dep : string) : string :=
  PyStr.strip match first_index PyStr.is_operator dep with
              | Some i => String.substring 0 i dep
              | None => dep
              end.

(** An entry is blank when nothing is left after trimming. *)
Definition blank (dep : string) : bool :=
  bool_decide (PyStr.strip dep = EmptyString).

(** The marker data of the example: [dependencies = ["a>=1.0", "b"]] and
    [optional-dependencies = {dev: ["a>=1.0", "c~=2"]}]. *)
Definition example_marker : PyVal.dict :=
  [("project",
    PyVal.VDict
      [("dependencies", PyVal.VList [PyVal.VStr "a>=1.0"; PyVal.VStr "b"]);
       ("optional-dependencies",
        PyVal.VDict
          [("dev", PyVal.VList [PyVal.VStr "a>=1.0"; PyVal.VStr "c~=2"])])])].

(** [i] is the position of the first character of [s] in the class. *)
Definition first_at (cls : ascii -> bool) (s : string) (i : nat) : Prop :=
  (exists c, String.get i s = Some c /\ cls c = true) /\
  forall j c, j < i -> String.get j s = Some c -> cls c = false.

Fixpoint all_space (s : string) : bool :=
  match s with
  | EmptyString => true
  | String c s' => PyStr.is_space c && all_space s'
  end.

Definition last_char (s : string) : option ascii :=
  match String.length s with
  | 0 => None
  | S n => String.get n s
  end.

(** The pass-through tokens that a routine receives, for the routines that
    take them. *)
Definition forwarded (c : Dispatcher.call) : option (list string) :=
  match c with
  | Dispatcher.start_project sub_args
  | Dispatcher.run_tests sub_args
  | Dispatcher.lint_project sub_args => Some sub_args
  | _ => None
  end.

(** The actions in a pattern come from the parser's table [m]. *)
Definition from_table (m : list (string * Argparse.opt_action))
    (s : Argparse.sym) : Prop :=
  match s with
  | Argparse.SymO (Some a, _, _) => a ∈ m.*2
  | _ => True
  end.

(** A state of the parsing loop of a parser that only has [-h/--help] and
    a required sub-parser action, before that action has run. *)
Definition pending (dest : string) (subs : Argparse.subparsers)
    (st : Argparse.state) : Prop :=
  Argparse.positional_seen st = false /\
  Argparse.ns st =
    Argparse.defaults [Argparse.help] (Argparse.SubParsers dest true subs) /\
  Argparse.unrecognized st = [].

(** What the sub-parser action did when it ran on [arg_strings]: it chose
    the first of them, [name], and merged the namespace of that
    sub-parser. *)
Definition chosen (dest : string) (subs : Argparse.subparsers)
    (sub : string -> list string ->
           option (Argparse.parsed (Argparse.namespace * list string)))
    (arg_strings : list string) (st : Argparse.state) : Prop :=
  exists name sub_args subns sub_extras,
    arg_strings = name :: sub_args /\
    name ∈ Argparse.names subs /\
    sub name sub_args = Some (Ok (subns, sub_extras)) /\
    Argparse.ns st =
      subns ∪ <[dest := Argparse.AStr name]>
                (Argparse.defaults [Argparse.help]
                   (Argparse.SubParsers dest true subs)) /\
    Argparse.unrecognized st = sub_extras.

(** The namespace [n] has the attributes of the parser's defaults, and no
    others. *)
Definition same_attributes (opts : list Argparse.optional)
    (pos : Argparse.positional) (n : Argparse.namespace) : Prop :=
  forall k, is_Some (n !! k) <-> is_Some (Argparse.defaults opts pos !! k).

(** The destination of an action is among the defaults. *)
Definition declared_action (opts : list Argparse.optional)
    (pos : Argparse.positional) (a : Argparse.opt_action) : Prop :=
  match a with
  | Argparse.Help => True
  | Argparse.StoreTrue d | Argparse.Store d _ =>
      is_Some (Argparse.defaults opts pos !! d)
  end.

(** The positional is not a sub-parser action and its destination is
    among the defaults. *)
Definition declared_positional (opts : list Argparse.optional)
    (pos : Argparse.positional) : Prop :=
  match pos with
  | Argparse.NoPositional => True
  | Argparse.Single d _ _ | Argparse.OneOrMore d _ =>
      is_Some (Argparse.defaults opts pos !! d)
  | Argparse.SubParsers _ _ _ => False
  end.

#[global] Instance declared_action_dec opts pos a :
  Decision (declared_action opts pos a).
Proof. destruct a; simpl; apply _. Defined.

#[global] Instance declared_positional_dec opts pos :
  Decision (declared_positional opts pos).
Proof. destruct pos; simpl; apply _. Defined.

Definition leaf_state (opts : list Argparse.optional)
    (pos : Argparse.positional) (st : Argparse.state) : Prop :=
  same_attributes opts pos (Argparse.ns st) /\ Argparse.unrecognized st = [].

(** The parser registered under [name]. *)
Fixpoint find_parser (subs : Argparse.subparsers) (name : string)
    : option Argparse.parser :=
  match subs with
  | Argparse.NoParsers => None
  | Argparse.AddParser n p rest =>
      if bool_decide (n = name) then Some p else find_parser rest name
  end.

(** The verb whose branch of the dispatch chain calls the routine. *)
Definition routine_verb (c : Dispatcher.call) : string :=
  match c with
  | Dispatcher.create_project _ _ => "new"
  | Dispatcher.start_project _ => "run"
  | Dispatcher.install_module _ => "add"
  | Dispatcher.install_project => "build"
  | Dispatcher.initialize_project => "init"
  | Dispatcher.run_tests _ => "test"
  | Dispatcher.lock_dependencies => "lock"
  | Dispatcher.format_project => "format"
  | Dispatcher.manage_venv _ => "venv"
  | Dispatcher.lint_project _ => "lint"
  | Dispatcher.show_dependency_graph => "graph"
  | Dispatcher.clean_project => "clean"
  | Dispatcher.bump_project_version _ => "bump"
  | Dispatcher.update_dependencies _ => "update"
  | Dispatcher.scan_project => "scan"
  | Dispatcher.dockerize_project => "dockerize"
  | Dispatcher.manage_env _ => "env"
  | Dispatcher.add_git_hooks => "add-hooks"
  end.

(** *** Vocabulary of the usage errors *)

(** An argument that can stand for [-h] or [--help]: it starts with [-h]
    or with [--h]. *)
Definition help_request (arg : string) : bool :=
  PyStr.startswith "-h" arg || PyStr.startswith "--h" arg.

(** One of the arguments that [main] parses, those up to the first
    pass-through command, asks for help. *)
Definition asks_help (argv : list string) : bool :=
  existsb help_request (Dispatcher.prescan argv).1.

(** The sub-verbs that the parser of [verb] declares, if it declares any. *)
Definition sub_verbs (verb : string) : option (list string) :=
  match find_parser Dispatcher.subparsers verb with
  | Some (Argparse.Parser _ _ (Argparse.SubParsers _ _ subs)) =>
      Some (Argparse.names subs)
  | _ => None
  end.

(** No command is given: there is no argument, or the first one is not a
    verb, or it is a verb with sub-verbs and none of them follows it
    directly. *)
Definition lacks_command (argv : list string) : bool :=
  match argv with
  | [] => true
  | verb :: rest =>
      negb (bool_decide (verb ∈ Dispatcher.verbs))
      || match sub_verbs verb, rest with
         | Some subs, s :: _ => negb (bool_decide (s ∈ subs))
         | Some _, [] => true
         | None, _ => false
         end
  end.

(** The first argument is a word, not an option string, and not a verb. *)
Definition unknown_word_first (argv : list string) : bool :=
  match argv with
  | [] => false
  | verb :: _ =>
      negb (bool_decide (verb ∈ Dispatcher.verbs))
      && negb (PyStr.startswith "-" verb)
  end.

(** In the table of a parser of [main], [Help] is reached through [-h] and
    [--help] only, and every other flag that takes no argument is a long
    option. *)
Definition help_flags (m : list (string * Argparse.opt_action)) : bool :=
  forallb (fun e : string * Argparse.opt_action =>
             match e.2 with
             | Argparse.Help => bool_decide (e.1 ∈ ["-h"; "--help"])
             | Argparse.StoreTrue _ => Argparse.second_is_dash e.1
             | Argparse.Store _ _ => true
             end) m.

(** What a classified argument list keeps of [_parse_optional]: the tuple
    of an option is the one returned for its string, which is not [--]. *)
Definition classified (prog : string) (m : list (string * Argparse.opt_action))
    (args : list string) (it : Argparse.item) : Prop :=
  it.1 ∈ args /\
  match it.2 with
  | Argparse.SymO t =>
      it.1 <> "--" /\ Argparse.parse_optional prog m it.1 = Ok (Some t)
  | _ => True
  end.

(** Help is printed only when one of the arguments asks for it. *)
Definition help_on_request (args : list string) (e : Argparse.stop) : Prop :=
  forall p, e = Argparse.SystemExit (Argparse.PrintHelp p) ->
            exists t, t ∈ args /\ help_request t = true.

(** *** Vocabulary of the further properties *)

(** A TOML string. *)
Definition is_str (v : PyVal.value) : bool :=
  match v with PyVal.VStr _ => true | _ => false end.

(** The prefixes of a string, shortest first. *)
Fixpoint prefixes (s : string) : list string :=
  EmptyString ::
  match s with
  | EmptyString => []
  | String c s' => String c <$> prefixes s'
  end.

(** A filesystem whose only marker file is [/home/u/pyproject.toml]. *)
Definition one_marker : Locator.filesystem :=
  fun p => bool_decide (p = ["home"; "u"; "pyproject.toml"]).

(** The same with an unrelated marker in a sibling directory. *)
Definition two_markers : Locator.filesystem :=
  fun p => bool_decide (p = ["home"; "u"; "pyproject.toml"]) ||
           bool_decide (p = ["home"; "v"; "pyproject.toml"]).

(** Marker data whose [dependencies] is the text ["a=b"], not a list. *)
Definition text_marker : PyVal.dict :=
  [("project", PyVal.VDict [("dependencies", PyVal.VStr "a=b")])].

(** An argument that does not look like an option. *)
Definition plain_word (a : string) : Prop := PyStr.startswith "-" a = false.

(** Parsing was cut short by [SystemExit]. *)
Definition exits (e : Argparse.stop) : Prop := exists x, e = Argparse.SystemExit x.

(** The verbs that take no argument, with the routine of each. *)
Definition plain_verbs : list (string * Dispatcher.call) :=
  [("build", Dispatcher.install_project);
   ("init", Dispatcher.initialize_project);
   ("lock", Dispatcher.lock_dependencies);
   ("format", Dispatcher.format_project);
   ("graph", Dispatcher.show_dependency_graph);
   ("clean", Dispatcher.clean_project);
   ("scan", Dispatcher.scan_project);
   ("dockerize", Dispatcher.dockerize_project);
   ("add-hooks", Dispatcher.add_git_hooks)].

(** What the sub-parser action of a parser with only [-h/--help] does with
    the argument list [name :: rest]. *)
Definition hand_over (prog dest : string) (subs : Argparse.subparsers)
    (sub : string -> list string ->
           option (Argparse.parsed (Argparse.namespace * list string)))
    (name : string) (rest : list string)
    : Argparse.parsed (Argparse.namespace * list string) :=
  if bool_decide (name ∈ Argparse.names subs) then
    match sub name rest with
    | None => Argparse.error prog (Argparse.UnknownParser name)
    | Some r =>
        '(subns, sub_extras) ← r;
        Ok (subns ∪ <[dest := Argparse.AStr name]>
                      (Argparse.defaults [Argparse.help]
                         (Argparse.SubParsers dest true subs)),
            sub_extras)
    end
  else Argparse.error prog (Argparse.InvalidChoice dest name).

(** An argument list as [classify] leaves it: before a ["--"] no argument
    is ["--"], and after it every argument is a positional one. *)
Fixpoint tidy (items : list Argparse.item) : Prop :=
  match items with
  | [] => True
  | (a, Argparse.SymDash) :: rest =>
      a = "--" /\ Forall (fun it : Argparse.item => it.2 = Argparse.SymA) rest
  | (a, _) :: rest => a <> "--" /\ tidy rest
  end.

(** The destination of the positional of a parser without sub-parsers. *)
Definition pos_dest (pos : Argparse.positional) : option string :=
  match pos with
  | Argparse.Single d _ _ | Argparse.OneOrMore d _ => Some d
  | Argparse.NoPositional | Argparse.SubParsers _ _ _ => None
  end.

(** What an optional action stores under the attribute [k]. *)
Definition option_value (a : Argparse.opt_action) (k : string)
    (v : Argparse.argval) : Prop :=
  match a with
  | Argparse.Help => False
  | Argparse.StoreTrue d => d = k /\ v = Argparse.ABool true
  | Argparse.Store d _ =>
      d = k /\ ((exists s, v = Argparse.AStr s) \/ v = Argparse.AList [])
  end.

(** What the positional stores under the attribute [k]. *)
Definition positional_value (pos : Argparse.positional) (k : string)
    (v : Argparse.argval) : Prop :=
  match pos with
  | Argparse.Single d _ choices =>
      d = k /\ exists s, v = Argparse.AStr s /\
                match choices with Some cs => s ∈ cs | None => True end
  | Argparse.OneOrMore d _ => d = k /\ exists x xs, v = Argparse.AList (x :: xs)
  | Argparse.NoPositional | Argparse.SubParsers _ _ _ => False
  end.

(** What parsing can store under the attribute [k]. *)
Definition parsed_value (m : list (string * Argparse.opt_action))
    (pos : Argparse.positional) (k : string) (v : Argparse.argval) : Prop :=
  (exists a, a ∈ m.*2 /\ option_value a k v) \/ positional_value pos k v.

(** Every attribute holds its default or a value that parsing stores, and
    once the positional has been taken its attribute holds such a value. *)
Definition typed (opts : list Argparse.optional) (pos : Argparse.positional)
    (st : Argparse.state) : Prop :=
  (forall k v, Argparse.ns st !! k = Some v ->
     parsed_value (Argparse.option_string_actions opts) pos k v \/
     Argparse.defaults opts pos !! k = Some v) /\
  (Argparse.positional_seen st = true ->
     match pos_dest pos with
     | Some d => exists v, Argparse.ns st !! d = Some v /\
                   parsed_value (Argparse.option_string_actions opts) pos d v
     | None => True
     end).

(** A tuple of [consume_optional]: the action is declared, and an action
    that takes an argument has exactly one. *)
Definition tuple_ok (opts : list Argparse.optional) (t : Argparse.action_tuple)
    : Prop :=
  t.1.1 ∈ (Argparse.option_string_actions opts).*2 /\
  (Argparse.nargs t.1.1 = 1 -> exists x, t.1.2 = [x]).

(** What the routines are handed when [main] calls them: strings for
    the names, one of the declared choices for [part] and the sub-verb,
    a boolean for [upgrade] and a non-empty list for [vars]; the template
    is a string, or the empty list that [--template=--] leaves. *)
Definition well_formed_call (c : Dispatcher.call) : Prop :=
  match c with
  | Dispatcher.create_project project_name template =>
      (exists s, project_name = Argparse.AStr s) /\
      ((exists s, template = Argparse.AStr s) \/ template = Argparse.AList [])
  | Dispatcher.install_module module_name => exists s, module_name = Argparse.AStr s
  | Dispatcher.manage_venv venv_command =>
      exists s, venv_command = Argparse.AStr s /\ s ∈ ["create"; "remove"]
  | Dispatcher.bump_project_version part =>
      exists s, part = Argparse.AStr s /\ s ∈ ["major"; "minor"; "patch"]
  | Dispatcher.update_dependencies upgrade => exists b, upgrade = Argparse.ABool b
  | Dispatcher.manage_env vars => exists x xs, vars = Argparse.AList (x :: xs)
  | _ => True
  end.

(** A call with its pass-through tokens replaced. *)
Definition with_forwarded (sub_args : list string) (c : Dispatcher.call)
    : Dispatcher.call :=
  match c with
  | Dispatcher.start_project _ => Dispatcher.start_project sub_args
  | Dispatcher.run_tests _ => Dispatcher.run_tests sub_args
  | Dispatcher.lint_project _ => Dispatcher.lint_project sub_args
  | c => c
  end.

(* ===================================================================== *)
(** * Properties of the config locator *)
(* ===================================================================== *)

Section LocatorFacts.
Import Locator.
Variable fs : filesystem.

Lemma search_root :
  search fs [] =
    ([[]], if fs (joinpath [] marker) then Some [] else None).
Proof. simp search. simpl. by destruct (fs _). Qed.

Lemma search_step (q : Path) (c : string) :
  search fs (q ++ [c]) =
    if fs (joinpath (q ++ [c]) marker)
    then ([q ++ [c]], Some (q ++ [c]))
    else ((q ++ [c]) :: (search fs q).1, (search fs q).2).
Proof.
  assert (Hpar : parent (q ++ [c]) = q)
    by (unfold parent; by rewrite removelast_last).
  remember (search fs q) as r eqn:Hr.
  simp search.
  destruct (decide _) as [Hne|Heq]; simpl.
  - rewrite Hpar, <- Hr. done.
  - exfalso. apply Heq. unfold parent. rewrite removelast_last.
    intros H. apply (f_equal length) in H. rewrite length_app in H.
    simpl in H. lia.
Qed.

Lemma ancestor_0 (p : Path) : ancestor 0 p = p.
Proof. done. Qed.

Lemma ancestor_S_snoc (d : nat) (q : Path) (c : string) :
  ancestor (S d) (q ++ [c]) = ancestor d q.
Proof.
  simpl. unfold parent. by rewrite removelast_last.
Qed.

Lemma ancestor_root (d : nat) : ancestor d [] = [].
Proof. induction d as [|d IH]; [done|]. by simpl. Qed.

Lemma ancestor_take (d : nat) (p : Path) : ancestor d p = take (length p - d) p.
Proof.
  revert d. induction p as [|c q IH] using rev_ind; intros d.
  - by rewrite ancestor_root.
  - destruct d as [|d].
    + rewrite ancestor_0, Nat.sub_0_r. by rewrite firstn_all.
    + rewrite ancestor_S_snoc, IH, length_app. simpl.
      replace (length q + 1 - S d) with (length q - d) by lia.
      rewrite take_app_le by lia. done.
Qed.

Lemma ancestor_beyond (d : nat) (p : Path) : length p <= d -> ancestor d p = [].
Proof.
  intros H. rewrite ancestor_take. replace (length p - d) with 0 by lia. done.
Qed.

(** What the search returns and which directories it probes: the probes
    are the ancestors at depths [0, 1, ..., n-1] in this order, every probe
    but the last fails, and the last one decides the result. *)
Lemma search_spec (p : Path) :
  exists n : nat,
    probes fs p = map (fun d => ancestor d p) (seq 0 (S n)) /\
    n <= length p /\
    (forall d, d < n -> fs (joinpath (ancestor d p) marker) = false) /\
    match find_project_root fs p with
    | Some r => r = ancestor n p /\ has_marker fs r
    | None => n = length p /\ fs (joinpath [] marker) = false
    end.
Proof.
  unfold probes, find_project_root, has_marker.
  induction p as [|c q IH] using rev_ind.
  - exists 0. rewrite search_root. simpl.
    destruct (fs (joinpath [] marker)) eqn:E; split_and!; (done || lia).
  - rewrite search_step.
    destruct (fs (joinpath (q ++ [c]) marker)) eqn:E; simpl.
    + exists 0. split_and!; (done || lia).
    + destruct IH as (n & Htr & Hn & Hno & Hres).
      exists (S n). split_and!.
      * rewrite Htr. change (seq 0 (S (S n))) with (0 :: seq 1 (S n)).
        f_equal. rewrite <- seq_shift, map_map. apply map_ext. intros d. by rewrite ancestor_S_snoc.
      * rewrite length_app. simpl. lia.
      * intros [|d] Hd; [done|]. rewrite ancestor_S_snoc. apply Hno. lia.
      * destruct ((search fs q).2) as [r|].
        -- by rewrite ancestor_S_snoc.
        -- destruct Hres as [-> ?]. rewrite length_app. simpl. split; [lia|done].
Qed.

Lemma probes_length (p : Path) : 1 <= length (probes fs p) <= length p + 1.
Proof.
  destruct (search_spec p) as (n & Htr & Hn & _).
  rewrite Htr, length_map, length_seq. lia.
Qed.

(** C1: [find_project_root] returns the nearest ancestor of the resolved
    working directory (the directory itself is depth 0, the filesystem root
    is the last candidate) that contains [pyproject.toml]; it returns [None]
    exactly when no ancestor, the root included, contains it. *)
Theorem find_project_root_nearest (cwd : Path) :
  match find_project_root fs cwd with
  | Some r =>
      exists d, d <= length cwd /\ r = ancestor d cwd /\ has_marker fs r /\
                forall d', d' < d -> ~ has_marker fs (ancestor d' cwd)
  | None =>
      ~ has_marker fs [] /\ forall d, ~ has_marker fs (ancestor d cwd)
  end.
Proof.
  destruct (search_spec cwd) as (n & _ & Hn & Hno & Hres).
  destruct (find_project_root fs cwd) as [r|].
  - destruct Hres as [-> Hm]. exists n. split_and!; [done|done|done|].
    intros d' Hd'. unfold has_marker. by rewrite (Hno d' Hd').
  - destruct Hres as [-> Hroot]. unfold has_marker. split.
    + by rewrite Hroot.
    + intros d. destruct (decide (d < length cwd)) as [Hd|Hd].
      * by rewrite (Hno d Hd).
      * rewrite ancestor_beyond by lia. by rewrite Hroot.
Qed.

(** C8: the search is total and probes at most one marker per directory
    level, so at most [length cwd + 1] in all; when an ancestor at depth [d]
    holds the marker, the search returns an ancestor at some depth [d' <= d]
    after exactly [d' + 1 <= d + 1] probes, and [d' = d] when no nearer
    ancestor holds a marker. *)
Theorem find_project_root_checks (cwd : Path) :
  length (probes fs cwd) <= length cwd + 1 /\
  forall d, has_marker fs (ancestor d cwd) ->
    exists d', d' <= d /\
      find_project_root fs cwd = Some (ancestor d' cwd) /\
      has_marker fs (ancestor d' cwd) /\
      probes fs cwd = map (fun k => ancestor k cwd) (seq 0 (S d')) /\
      length (probes fs cwd) = d' + 1 /\
      length (probes fs cwd) <= d + 1 /\
      ((forall k, k < d -> ~ has_marker fs (ancestor k cwd)) -> d' = d).
Proof.
  split; [apply probes_length|].
  intros d Hd.
  destruct (search_spec cwd) as (n & Htr & Hn & Hno & Hres).
  assert (Hlen : length (probes fs cwd) = n + 1)
    by (rewrite Htr, length_map, length_seq; lia).
  assert (Hnd : n <= d).
  { destruct (decide (n <= d)) as [|Hgt]; [done|].
    unfold has_marker in Hd. rewrite Hno in Hd by lia. done. }
  destruct (find_project_root fs cwd) as [r|].
  - destruct Hres as [-> Hm]. exists n.
    split_and!; try done; try lia.
    intros Hnear. destruct (decide (n = d)) as [|Hne]; [done|].
    exfalso. apply (Hnear n); [lia|done].
  - destruct Hres as [-> Hroot]. exfalso.
    unfold has_marker in Hd. rewrite ancestor_beyond in Hd by lia.
    by rewrite Hroot in Hd.
Qed.

End LocatorFacts.

(* --------------------------------------------------------------------- *)
(** ** The search seen from other directories *)
(* --------------------------------------------------------------------- *)

Section LocatorDirectories.
Import Locator.
Variable fs : filesystem.

(** Below [p], as long as no directory on the way holds a marker, the
    search gives what it gives at [p]. *)
Lemma search_descend (p sub : Path) :
  (forall n, 0 < n <= length sub -> fs (joinpath (p ++ take n sub) marker) = false) ->
  (search fs (p ++ sub)).2 = (search fs p).2.
Proof.
  induction sub as [|c q IH] using rev_ind; intros H.
  - by rewrite app_nil_r.
  - rewrite app_assoc, search_step.
    pose proof (H (length (q ++ [c]))) as Hlast.
    rewrite firstn_all, app_assoc in Hlast.
    rewrite Hlast by (rewrite length_app; simpl; lia). simpl.
    apply IH. intros n Hn.
    specialize (H n). rewrite take_app_le in H by lia.
    apply H. rewrite length_app. simpl. lia.
Qed.

Lemma search_marked (p : Path) :
  has_marker fs p -> search fs p = ([p], Some p).
Proof.
  unfold has_marker. intros H.
  destruct p as [|c q _] using rev_ind.
  - by rewrite search_root, H.
  - by rewrite search_step, H.
Qed.

(** X1: when the search started in [r/mid/sub] finds the root [r], the
    search started in any directory [r/mid] between the two finds [r] as
    well; with [mid] empty, the search started in the root it found
    returns that root. *)
Theorem find_project_root_stable (r mid sub : Path) :
  find_project_root fs (r ++ mid ++ sub) = Some r ->
  find_project_root fs (r ++ mid) = Some r.
Proof.
  intros Hfind.
  destruct (search_spec fs (r ++ mid ++ sub)) as (n & _ & Hn & Hno & Hres).
  rewrite Hfind in Hres. destruct Hres as [Hr Hm].
  assert (Hlen : n = length mid + length sub).
  { apply (f_equal length) in Hr. rewrite ancestor_take, length_take in Hr.
    rewrite !length_app in *. lia. }
  unfold find_project_root.
  rewrite search_descend, search_marked; [done|done|].
  intros j Hj.
  specialize (Hno (length mid - j + length sub)).
  rewrite ancestor_take in Hno.
  replace (length (r ++ mid ++ sub) - (length mid - j + length sub))
    with (length r + j) in Hno by (rewrite !length_app; lia).
  rewrite take_app_add', take_app_le in Hno by lia.
  apply Hno. lia.
Qed.

(** X2: started in a sub-directory [p/sub], the search gives the same
    answer as in [p], provided no directory strictly below [p] on the way
    down to [p/sub] holds a marker of its own. *)
Theorem find_project_root_from_subdirectory (p sub : Path) :
  (forall n, 0 < n <= length sub -> ~ has_marker fs (p ++ take n sub)) ->
  find_project_root fs (p ++ sub) = find_project_root fs p.
Proof.
  intros H. apply search_descend. intros n Hn.
  specialize (H n Hn). unfold has_marker in H.
  by destruct (fs (joinpath (p ++ take n sub) marker)).
Qed.

End LocatorDirectories.

Section LocatorFrame.
Import Locator.

(** X3: the search looks at nothing but the marker files of the working
    directory and its ancestors: two filesystems that agree on these give
    the same result after the same probes. *)
Theorem find_project_root_frame (fs fs' : filesystem) (cwd : Path) :
  (forall d, d <= length cwd ->
     fs (joinpath (ancestor d cwd) marker) = fs' (joinpath (ancestor d cwd) marker)) ->
  find_project_root fs cwd = find_project_root fs' cwd /\
  probes fs cwd = probes fs' cwd.
Proof.
  unfold find_project_root, probes.
  induction cwd as [|c q IH] using rev_ind; intros H.
  - rewrite !search_root. specialize (H 0). simpl in H. rewrite H by lia. done.
  - rewrite !search_step.
    pose proof (H 0) as H0. simpl in H0. rewrite H0 by lia.
    destruct (fs' (joinpath (q ++ [c]) marker)); [done|]. simpl.
    destruct IH as [IH1 IH2].
    { intros d Hd. specialize (H (S d)). rewrite ancestor_S_snoc in H.
      apply H. rewrite length_app. simpl. lia. }
    by rewrite IH1, IH2.
Qed.

Lemma find_project_root_stable_witness :
  find_project_root one_marker (["home"; "u"] ++ ["proj"]) = Some ["home"; "u"].
Proof.
  apply (find_project_root_stable one_marker ["home"; "u"] ["proj"] ["src"]).
  reflexivity.
Defined.

Lemma find_project_root_from_subdirectory_witness :
  find_project_root one_marker (["home"; "u"] ++ ["proj"; "src"]) =
  find_project_root one_marker ["home"; "u"].
Proof.
  apply (find_project_root_from_subdirectory one_marker ["home"; "u"] ["proj"; "src"]).
  intros [|[|[|n]]] Hn; simpl in Hn; try lia; by vm_compute.
Defined.

Lemma find_project_root_frame_witness :
  find_project_root one_marker ["home"; "u"; "proj"] =
    find_project_root two_markers ["home"; "u"; "proj"] /\
  probes one_marker ["home"; "u"; "proj"] = probes two_markers ["home"; "u"; "proj"].
Proof.
  apply (find_project_root_frame one_marker two_markers ["home"; "u"; "proj"]).
  intros [|[|[|[|d]]]] Hd; simpl in Hd; try lia; reflexivity.
Defined.

End LocatorFrame.

(* ===================================================================== *)
(** * Properties of the string operations *)
(* ===================================================================== *)

Section StringFacts.
Import PyStr.

Lemma first_index_Some cls s i :
  first_index cls s = Some i -> first_at cls s i.
Proof.
  revert i. induction s as [|c s IH]; intros i; simpl; [done|].
  destruct (cls c) eqn:Hc.
  - intros [= <-]. split; [by exists c|]. intros j c' Hj. lia.
  - destruct (first_index cls s) as [k|]; [|done]. simpl. intros [= <-].
    destruct (IH k eq_refl) as [Hk Hbefore]. split; [done|].
    intros [|j] c' Hj; simpl.
    + by intros [= <-].
    + apply Hbefore. lia.
Qed.

Lemma first_index_None cls s :
  first_index cls s = None -> forall i c, String.get i s = Some c -> cls c = false.
Proof.
  induction s as [|c s IH]; simpl; [done|].
  destruct (cls c) eqn:Hc; [done|].
  destruct (first_index cls s); [done|]. intros _ [|i] c'; simpl.
  - by intros [= <-].
  - by apply IH.
Qed.

Lemma first_at_unique cls s i j : first_at cls s i -> first_at cls s j -> i = j.
Proof.
  intros [(c & Hc & Hcc) Hi] [(d & Hd & Hdd) Hj].
  destruct (Nat.lt_trichotomy i j) as [Hlt|[->|Hlt]]; [|done|].
  - specialize (Hj i c Hlt Hc). congruence.
  - specialize (Hi j d Hlt Hd). congruence.
Qed.

Lemma first_index_exists cls s i c :
  String.get i s = Some c -> cls c = true -> is_Some (first_index cls s).
Proof.
  intros Hget Hc. destruct (first_index cls s) eqn:E; [done|].
  rewrite (first_index_None cls s E i c Hget) in Hc. done.
Qed.

Lemma re_split_nonempty cls s : re_split cls s <> [].
Proof.
  destruct s as [|c s]; simpl; [done|].
  destruct (cls c); [done|]. by destruct (re_split cls s).
Qed.

(** The first piece of [re.split] is the text before the first character
    of the class, or the whole string when there is none. *)
Lemma item0_re_split cls s :
  item0 (re_split cls s) =
    Ok (match first_index cls s with
        | Some i => String.substring 0 i s
        | None => s
        end).
Proof.
  induction s as [|c s IH]; simpl; [done|].
  destruct (cls c) eqn:Hc; simpl; [done|].
  destruct (re_split cls s) as [|piece rest] eqn:E.
  { by destruct (re_split_nonempty cls s). }
  simpl in *. injection IH as ->.
  by destruct (first_index cls s).
Qed.

Lemma app_String c (l x : string) : String c l +:+ x = String c (l +:+ x).
Proof. reflexivity. Qed.

Lemma lstrip_spec s :
  exists l, s = l +:+ lstrip s /\ all_space l = true /\
            match lstrip s with
            | String c _ => is_space c = false
            | EmptyString => True
            end.
Proof.
  induction s as [|c s IH]; simpl.
  - by exists EmptyString.
  - destruct (is_space c) eqn:Hc.
    + destruct IH as (l & Hl & Hsp & Hhd). exists (String c l). simpl.
      rewrite Hc, Hsp. split_and!; [|done|done].
      rewrite app_String. congruence.
    + by exists EmptyString.
Qed.

Lemma rstrip_spec s :
  exists r, s = rstrip s +:+ r /\ all_space r = true /\
            match last_char (rstrip s) with
            | Some c => is_space c = false
            | None => True
            end.
Proof.
  induction s as [|c s IH]; simpl.
  - by exists EmptyString.
  - destruct IH as (r & Hr & Hsp & Hlast).
    destruct (rstrip s) as [|d t] eqn:E.
    + change ("" +:+ r) with r in Hr. subst r.
      destruct (is_space c) eqn:Hc.
      * exists (String c s). simpl. by rewrite Hc, Hsp.
      * exists s. split_and!; [done|done|]. by vm_compute.
    + exists r. rewrite app_String, <- Hr. split_and!; [done|done|].
      unfold last_char in *. simpl in *. done.
Qed.

Lemma rstrip_head s c t :
  rstrip s = String c t -> exists t', s = String c t'.
Proof.
  destruct s as [|d s]; simpl; [done|].
  destruct (rstrip s); [destruct (is_space d)|]; intros [= -> _]; eauto.
Qed.

(** [strip] removes a run of whitespace from each end and leaves a string
    that neither starts nor ends with whitespace. *)
Lemma strip_spec s :
  exists l r, s = l +:+ strip s +:+ r /\
    all_space l = true /\ all_space r = true /\
    match strip s with
    | String c _ => is_space c = false
    | EmptyString => True
    end /\
    match last_char (strip s) with
    | Some c => is_space c = false
    | None => True
    end.
Proof.
  unfold strip.
  destruct (lstrip_spec s) as (l & Hl & Hlsp & Hhd).
  destruct (rstrip_spec (lstrip s)) as (r & Hr & Hrsp & Hlast).
  exists l, r. split_and!; try done.
  - by rewrite <- Hr.
  - destruct (rstrip (lstrip s)) as [|c t] eqn:E; [done|].
    destruct (rstrip_head _ _ _ E) as [t' Ht']. by rewrite Ht' in Hhd.
Qed.

(** Operator characters are not whitespace. *)
Lemma operator_not_space c : is_operator c = true -> is_space c = false.
Proof.
  unfold is_operator. intros H. apply bool_decide_eq_true in H.
  repeat (apply elem_of_cons in H as [->|H]; [by vm_compute|]).
  by apply elem_of_nil in H.
Qed.

End StringFacts.

(* ===================================================================== *)
(** * Properties of the metadata reader *)
(* ===================================================================== *)

(** Closes [x ∉ [a; b; ...]] for distinct constructors. *)
Ltac not_in_list :=
  let H := fresh in
  intros H;
  repeat (apply elem_of_cons in H as [H|H]; [discriminate H|]);
  by apply elem_of_nil in H.

Section MetadataFacts.
Import PyVal Metadata.

Lemma clean_bare_name (dep : string) : clean (VStr dep) = Ok (bare_name dep).
Proof.
  unfold clean, bare_name. simpl.
  by rewrite item0_re_split.
Qed.

Lemma truthy_strip (dep : string) :
  PyStr.truthy (PyStr.strip dep) = negb (blank dep).
Proof. unfold blank. by destruct (PyStr.strip dep). Qed.

Lemma clean_entry_str (dep : string) :
  clean_entry (VStr dep) = Ok (if blank dep then [] else [bare_name dep]).
Proof.
  unfold clean_entry. simpl. rewrite truthy_strip.
  destruct (blank dep); simpl; [done|]. by rewrite clean_bare_name.
Qed.

Lemma for_each_app {E A B} (f : A -> result E (list B)) l1 l2 :
  for_each f (l1 ++ l2) =
    (ys ← for_each f l1; zs ← for_each f l2; Ok (ys ++ zs)).
Proof.
  induction l1 as [|x l1 IH]; simpl.
  - destruct (for_each f l2); done.
  - destruct (f x) as [ys|e]; simpl; [|done]. rewrite IH.
    destruct (for_each f l1) as [ys1|e]; simpl; [|done].
    destruct (for_each f l2) as [ys2|e]; simpl; [|done].
    by rewrite app_assoc.
Qed.

Lemma for_each_clean_entry (deps : list string) :
  for_each clean_entry (VStr <$> deps) =
    Ok (bare_name <$> List.filter (fun d => negb (blank d)) deps).
Proof.
  induction deps as [|d deps IH]; [done|].
  rewrite fmap_cons. cbn [for_each List.filter].
  rewrite clean_entry_str, IH. by destruct (blank d).
Qed.

Lemma for_each_iterate_groups (groups : list (string * list string)) :
  for_each iterate ((fun g => VList (VStr <$> g.2)) <$> groups) =
    Ok (VStr <$> concat (snd <$> groups)).
Proof.
  induction groups as [|g groups IH]; [done|].
  rewrite !fmap_cons. cbn [for_each concat]. rewrite IH. simpl.
  by rewrite fmap_app.
Qed.

Lemma project_entry_table data proj key :
  lookup_key "project" data = Some (VDict proj) ->
  project_entry data key = Ok (lookup_key key proj).
Proof.
  intros H. unfold project_entry, has_key, dict_getitem. rewrite H. simpl.
  unfold has_key, dict_getitem. by destruct (lookup_key key proj).
Qed.

Lemma project_entry_no_table data key :
  lookup_key "project" data = None -> project_entry data key = Ok None.
Proof. intros H. unfold project_entry, has_key. by rewrite H. Qed.

(** The entries that a well-formed [project] table declares. *)
Lemma collected_well_formed data proj
    (main : option (list string)) (groups : option (list (string * list string))) :
  lookup_key "project" data = Some (VDict proj) ->
  lookup_key "dependencies" proj = (fun l => VList (VStr <$> l)) <$> main ->
  lookup_key "optional-dependencies" proj =
    (fun gs => VDict ((fun g => (g.1, VList (VStr <$> g.2))) <$> gs)) <$> groups ->
  collected (Document data) =
    Ok (VStr <$> (default [] main ++ concat (snd <$> default [] groups))).
Proof.
  intros Hp Hm Hg. unfold collected. simpl.
  rewrite !(project_entry_table _ _ _ Hp), Hm, Hg.
  destruct main as [deps|], groups as [gs|]; simpl.
  - rewrite <- list_fmap_compose.
    change (snd ∘ _) with (fun g : string * list string => VList (VStr <$> g.2)).
    rewrite for_each_iterate_groups. simpl. by rewrite fmap_app.
  - by rewrite app_nil_r.
  - rewrite <- list_fmap_compose.
    change (snd ∘ _) with (fun g : string * list string => VList (VStr <$> g.2)).
    by rewrite for_each_iterate_groups.
  - done.
Qed.

Lemma get_project_dependencies_collected file deps :
  collected file = Ok deps ->
  get_project_dependencies file =
    try_except (cleaned ← for_each clean_entry deps; Ok (list_to_set cleaned))
               caught (Ok ∅).
Proof.
  intros H. unfold get_project_dependencies, cleaned_deps. by rewrite H.
Qed.

Lemma clean_entry_raises dep e :
  clean_entry dep = Raise e -> e ∈ [AttributeError; TypeError; IndexError].
Proof.
  destruct dep; [by rewrite clean_entry_str|..];
    (unfold clean_entry; simpl; intros [= <-]; apply list_elem_of_here).
Qed.

Lemma for_each_clean_entry_raises deps e :
  for_each clean_entry deps = Raise e -> e ∉ caught.
Proof.
  induction deps as [|d deps IH]; simpl; [done|].
  destruct (clean_entry d) as [ys|e'] eqn:Hd; simpl.
  - destruct (for_each clean_entry deps) as [zs|e'']; simpl; [done|].
    intros [= <-]. by apply IH.
  - intros [= <-]. apply clean_entry_raises in Hd. unfold caught.
    repeat (apply elem_of_cons in Hd as [->|Hd]; [not_in_list|]).
    by apply elem_of_nil in Hd.
Qed.

Lemma for_each_elem_of {E A B} (f : A -> result E (list B)) l ys x zs z :
  for_each f l = Ok ys -> x ∈ l -> f x = Ok zs -> z ∈ zs -> z ∈ ys.
Proof.
  revert ys. induction l as [|a l IH]; intros ys; simpl.
  - intros _ Hx. by apply elem_of_nil in Hx.
  - destruct (f a) as [ya|] eqn:Ha; simpl; [|done].
    destruct (for_each f l) as [yl|] eqn:Hl; simpl; [|done].
    intros [= <-] Hx Hfx Hz. apply elem_of_app.
    apply elem_of_cons in Hx as [->|Hx].
    + left. congruence.
    + right. by apply (IH yl).
Qed.

Lemma strip_leading_space c s :
  PyStr.is_space c = true -> PyStr.strip (String c s) = PyStr.strip s.
Proof. intros H. unfold PyStr.strip. simpl. by rewrite H. Qed.

Lemma rstrip_keeps_head c s :
  PyStr.is_space c = false -> exists t, PyStr.rstrip (String c s) = String c t.
Proof.
  intros H. simpl. destruct (PyStr.rstrip s); rewrite ?H; eauto.
Qed.

(** An entry whose first non-whitespace character is an operator. *)
Lemma leading_operator_name dep c rest :
  PyStr.lstrip dep = String c rest -> PyStr.is_operator c = true ->
  blank dep = false /\ bare_name dep = EmptyString.
Proof.
  intros Hl Hc. split.
  - unfold blank, PyStr.strip. rewrite Hl.
    destruct (rstrip_keeps_head c rest (operator_not_space c Hc)) as [t ->].
    done.
  - unfold bare_name. revert Hl.
    induction dep as [|d dep IH]; simpl; [done|].
    destruct (PyStr.is_space d) eqn:Hd.
    + intros Hl. specialize (IH Hl).
      destruct (PyStr.is_operator d) eqn:Hop.
      { apply operator_not_space in Hop. congruence. }
      destruct (first_index PyStr.is_operator dep) as [i|]; simpl.
      * by rewrite strip_leading_space.
      * by rewrite strip_leading_space.
    + intros [= -> ->]. by rewrite Hc.
Qed.

(** Where the readers degrade silently: a missing file, text that is not
    TOML, no [project] table, and a [project] table without the keys. *)
Lemma silent_degradation :
  get_project_name Absent = Ok None /\
  get_project_name NotToml = Ok None /\
  get_project_dependencies Absent = Ok ∅ /\
  get_project_dependencies NotToml = Ok ∅ /\
  (forall data, lookup_key "project" data = None ->
     get_project_name (Document data) = Ok None /\
     get_project_dependencies (Document data) = Ok ∅) /\
  (forall data proj, lookup_key "project" data = Some (VDict proj) ->
     (lookup_key "name" proj = None ->
        get_project_name (Document data) = Ok None) /\
     (lookup_key "dependencies" proj = None ->
      lookup_key "optional-dependencies" proj = None ->
        get_project_dependencies (Document data) = Ok ∅)).
Proof.
  split_and!; try done.
  - intros data H. split.
    + unfold get_project_name, dict_get. simpl. by rewrite H.
    + unfold get_project_dependencies, cleaned_deps, collected. simpl.
      by rewrite !project_entry_no_table.
  - intros data proj H. split.
    + intros Hn. unfold get_project_name, dict_get. simpl. rewrite H. simpl.
      by rewrite Hn.
    + intros Hd Ho.
      rewrite (get_project_dependencies_collected _ []); [done|].
      by rewrite (collected_well_formed data proj None None).
Qed.

(** C2: the cleaned name of a specifier that contains one of [< > = ! ~]
    is the text before the first such character, trimmed; the cleaned name
    of a specifier without any is the specifier, trimmed; and for a
    non-blank entry this name is what the comprehension yields. *)
Theorem clean_name_spec (dep : string) :
  ((exists i c, String.get i dep = Some c /\ PyStr.is_operator c = true) ->
     exists i, first_at PyStr.is_operator dep i /\
       clean (VStr dep) = Ok (PyStr.strip (String.substring 0 i dep))) /\
  ((forall i c, String.get i dep = Some c -> PyStr.is_operator c = false) ->
     clean (VStr dep) = Ok (PyStr.strip dep)) /\
  (blank dep = false ->
     exists name, clean (VStr dep) = Ok name /\
                  clean_entry (VStr dep) = Ok [name]).
Proof.
  rewrite clean_bare_name, clean_entry_str. unfold bare_name. split_and!.
  - intros (i & c & Hget & Hc).
    destruct (first_index_exists _ _ _ _ Hget Hc) as [k Hk].
    exists k. rewrite Hk. split; [by apply first_index_Some|done].
  - intros Hnone. destruct (first_index PyStr.is_operator dep) as [k|] eqn:Hk; [|done].
    apply first_index_Some in Hk as [(c & Hget & Hc) _].
    rewrite (Hnone k c Hget) in Hc. done.
  - intros ->. eauto.
Qed.

(** C3: for a [project] table whose [dependencies] is a list of strings and
    whose [optional-dependencies] maps group names to lists of strings
    (either may be missing), the result is the set of the cleaned names of
    the non-blank entries of the main list and of every group; on the
    example data it is the set of "a", "b" and "c". *)
Theorem dependencies_deduplicated :
  (forall data proj (main : option (list string))
          (groups : option (list (string * list string))),
     lookup_key "project" data = Some (VDict proj) ->
     lookup_key "dependencies" proj = (fun l => VList (VStr <$> l)) <$> main ->
     lookup_key "optional-dependencies" proj =
       (fun gs => VDict ((fun g => (g.1, VList (VStr <$> g.2))) <$> gs)) <$> groups ->
     exists names : gset string,
       get_project_dependencies (Document data) = Ok names /\
       names = list_to_set
                 (bare_name <$>
                    List.filter (fun d => negb (blank d))
                      (default [] main ++ concat (snd <$> default [] groups))) /\
       forall x, x ∈ names <->
         exists dep, dep ∈ default [] main ++ concat (snd <$> default [] groups) /\
                     blank dep = false /\ x = bare_name dep) /\
  get_project_dependencies (Document example_marker) = Ok {[ "a"; "b"; "c" ]}.
Proof.
  assert (Hgen : forall data proj main groups,
     lookup_key "project" data = Some (VDict proj) ->
     lookup_key "dependencies" proj = (fun l => VList (VStr <$> l)) <$> main ->
     lookup_key "optional-dependencies" proj =
       (fun gs => VDict ((fun g => (g.1, VList (VStr <$> g.2))) <$> gs)) <$> groups ->
     get_project_dependencies (Document data) =
       Ok (list_to_set
             (bare_name <$>
                List.filter (fun d => negb (blank d))
                  (default [] main ++ concat (snd <$> default [] groups))))).
  { intros data proj main groups Hp Hm Hg.
    rewrite (get_project_dependencies_collected _ _
               (collected_well_formed data proj main groups Hp Hm Hg)).
    by rewrite for_each_clean_entry. }
  split.
  - intros data proj main groups Hp Hm Hg. eexists. split; [by eapply Hgen|].
    split; [done|]. intros x. rewrite elem_of_list_to_set, list_elem_of_fmap.
    split.
    + intros (dep & -> & Hin). apply list_elem_of_In, filter_In in Hin as [Hin Hb].
      exists dep. split_and!; [by apply list_elem_of_In| |done].
      by destruct (blank dep).
    + intros (dep & Hin & Hb & ->). exists dep. split; [done|].
      apply list_elem_of_In, filter_In. split; [by apply list_elem_of_In|].
      by rewrite Hb.
  - rewrite (Hgen example_marker _ (Some ["a>=1.0"; "b"])
               (Some [("dev", ["a>=1.0"; "c~=2"])]) eq_refl eq_refl eq_refl).
    vm_compute. reflexivity.
Qed.

(** C6 (the code at the failing inputs): with [project = 1] in the marker
    file both readers raise, and so they do on a file that is not UTF-8
    text. *)
Theorem project_not_a_table_raises :
  get_project_name (Document [("project", VInt 1)]) = Raise AttributeError /\
  get_project_dependencies (Document [("project", VInt 1)]) = Raise TypeError /\
  get_project_name NotUtf8 = Raise UnicodeDecodeError /\
  get_project_dependencies NotUtf8 = Raise UnicodeDecodeError.
Proof. split_and!; reflexivity. Qed.

(** C10: a non-blank entry whose first non-whitespace character is an
    operator is cleaned to the empty string, and the empty string is then
    in the returned set; a blank entry yields nothing and the result is the
    same as without it; on the entries ">=1.0", "   " and "" the result is
    the set with the empty string alone. *)
Theorem leading_operator_keeps_empty_name :
  (forall file deps dep c rest (names : gset string),
     collected file = Ok deps -> VStr dep ∈ deps ->
     PyStr.lstrip dep = String c rest -> PyStr.is_operator c = true ->
     get_project_dependencies file = Ok names ->
     blank dep = false /\ clean (VStr dep) = Ok EmptyString /\
     EmptyString ∈ names) /\
  (forall dep, blank dep = true ->
     clean_entry (VStr dep) = Ok [] /\
     forall l1 l2, for_each clean_entry (l1 ++ VStr dep :: l2) =
                   for_each clean_entry (l1 ++ l2)) /\
  get_project_dependencies
    (Document [("project",
                VDict [("dependencies",
                        VList [VStr ">=1.0"; VStr "   "; VStr ""])])]) =
    Ok {[ EmptyString ]}.
Proof.
  split_and!.
  - intros file deps dep c rest names Hcol Hin Hl Hc Hres.
    destruct (leading_operator_name dep c rest Hl Hc) as [Hb Hname].
    split_and!; [done|by rewrite clean_bare_name, Hname|].
    rewrite (get_project_dependencies_collected _ _ Hcol) in Hres.
    destruct (for_each clean_entry deps) as [cleaned|e] eqn:Hfor; simpl in Hres.
    + injection Hres as <-. apply elem_of_list_to_set.
      eapply (for_each_elem_of clean_entry deps cleaned (VStr dep) [EmptyString]);
        [done|done| |apply list_elem_of_here].
      by rewrite clean_entry_str, Hb, Hname.
    + apply for_each_clean_entry_raises in Hfor.
      rewrite bool_decide_false in Hres by done. done.
  - intros dep Hb. split; [by rewrite clean_entry_str, Hb|].
    intros l1 l2. rewrite !for_each_app. cbn [for_each].
    rewrite clean_entry_str, Hb. simpl.
    destruct (for_each clean_entry l1); simpl; [|done].
    by destruct (for_each clean_entry l2).
  - rewrite (get_project_dependencies_collected _
               (VStr <$> [">=1.0"; "   "; ""])); [|reflexivity].
    rewrite for_each_clean_entry. vm_compute. reflexivity.
Qed.

End MetadataFacts.

(* --------------------------------------------------------------------- *)
(** ** What the readers return, and what leaves them *)
(* --------------------------------------------------------------------- *)

Section ReaderFacts.
Import PyVal Metadata.

(** X4: [get_project_name] returns the value stored under [name] in
    the [project] table, whatever its type, exactly when the file loads
    and holds such a table with that key; it returns [None] exactly when
    loading raises one of the two exceptions of the [except] clause, or
    when the document has no [project] or the table has no [name]; it
    raises exactly when loading raises any other exception, which gets
    out unchanged, or when [project] is not a table ([AttributeError]). *)
Theorem get_project_name_cases (file : marker_file) :
  (forall v, get_project_name file = Ok (Some v) <->
     exists data proj, load file = Ok data /\
       lookup_key "project" data = Some (VDict proj) /\
       lookup_key "name" proj = Some v) /\
  (get_project_name file = Ok None <->
     (exists e, load file = Raise e /\ e ∈ caught) \/
     exists data, load file = Ok data /\
       (lookup_key "project" data = None \/
        exists proj, lookup_key "project" data = Some (VDict proj) /\
                     lookup_key "name" proj = None)) /\
  (forall e, get_project_name file = Raise e <->
     (load file = Raise e /\ e ∉ caught) \/
     exists data v, load file = Ok data /\
       lookup_key "project" data = Some v /\
       (forall proj, v <> VDict proj) /\ e = AttributeError).
Proof.
  unfold get_project_name.
  destruct (load file) as [data|e0]; cbn [mbind result_bind try_except].
  - unfold dict_get.
    assert (Hshape : forall x : value,
              (exists proj, x = VDict proj) \/
              (method_get x "name" = Raise AttributeError /\
               forall proj, x <> VDict proj)).
    { intros [| | | | | |proj]; try (right; split; [done|intros ?; discriminate]).
      left. by exists proj. }
    destruct (lookup_key "project" data) as [x|] eqn:Hp.
    + destruct (Hshape x) as [[proj ->]|[Hraise Hnot]].
      * cbn [method_get]. split_and!.
        -- intros v. split.
           ++ intros [= Hn]. by exists data, proj.
           ++ intros (d & p & [= <-] & Hx & Hn). rewrite Hp in Hx.
              injection Hx as <-. by rewrite Hn.
        -- split.
           ++ intros [= Hn]. right. exists data. split; [done|]. right. by exists proj.
           ++ intros [(e & He & _)|(d & [= <-] & [H|(p & Hx & Hn)])];
                [done|congruence|].
              rewrite Hp in Hx. injection Hx as <-. by rewrite Hn.
        -- intros e. split; [done|].
           intros [[H _]|(d & v & [= <-] & Hx & Hv & _)]; [done|].
           rewrite Hp in Hx. injection Hx as <-. by destruct (Hv proj).
      * rewrite Hraise. split_and!.
        -- intros v. split; [done|].
           intros (d & p & [= <-] & Hx & _). rewrite Hp in Hx.
           injection Hx as ->. by destruct (Hnot p).
        -- split; [done|].
           intros [(e & He & _)|(d & [= <-] & [H|(p & Hx & _)])];
             [done|congruence|].
           rewrite Hp in Hx. injection Hx as ->. by destruct (Hnot p).
        -- intros e. split.
           ++ intros [= <-]. right. by exists data, x.
           ++ by intros [[H _]|(d & v & _ & _ & _ & ->)].
    + cbn [method_get lookup_key]. split_and!.
      * intros v. split; [done|]. intros (d & p & [= <-] & H & _). congruence.
      * split; [|done]. intros _. right. exists data. split; [done|]. by left.
      * intros e. split; [done|].
        intros [[H _]|(d & v & [= <-] & H & _)]; [done|congruence].
  - case_bool_decide as Hc; split_and!.
    + intros v. split; [done|]. by intros (d & p & H & _).
    + split; [|done]. intros _. left. by exists e0.
    + intros e. split; [done|].
      intros [[[= <-] H]|(d & v & H & _)]; done.
    + intros v. split; [done|]. by intros (d & p & H & _).
    + split; [done|]. intros [(e & [= <-] & He)|(d & H & _)]; done.
    + intros e. split.
      * intros [= <-]. by left.
      * intros [[[= <-] H]|(d & v & H & _)]; done.
Qed.

Lemma first_index_cons_None cls c s :
  first_index cls (String c s) = None <-> cls c = false /\ first_index cls s = None.
Proof.
  simpl. destruct (cls c).
  - split; [done|]. by intros [? _].
  - destruct (first_index cls s); simpl; split; try done. by intros [_ ?].
Qed.

Lemma first_index_substring cls s i :
  first_index cls s = Some i -> first_index cls (String.substring 0 i s) = None.
Proof.
  revert i. induction s as [|c s IH]; intros i; simpl; [done|].
  destruct (cls c) eqn:Hc.
  - by intros [= <-].
  - destruct (first_index cls s) as [k|]; [|done]. simpl. intros [= <-].
    simpl. rewrite Hc. by rewrite (IH k).
Qed.

Lemma first_index_lstrip cls s :
  first_index cls s = None -> first_index cls (PyStr.lstrip s) = None.
Proof.
  induction s as [|c s IH]; [done|].
  intros H. pose proof H as [Hc Hs]%first_index_cons_None.
  simpl. destruct (PyStr.is_space c); [by apply IH|done].
Qed.

Lemma first_index_rstrip cls s :
  first_index cls s = None -> first_index cls (PyStr.rstrip s) = None.
Proof.
  induction s as [|c s IH]; [done|].
  intros [Hc Hs]%first_index_cons_None. specialize (IH Hs).
  simpl. destruct (PyStr.rstrip s) as [|d t].
  - destruct (PyStr.is_space c); [done|]. by apply first_index_cons_None.
  - by apply first_index_cons_None.
Qed.

(** A cleaned name holds no operator character. *)
Lemma bare_name_no_operator dep :
  first_index PyStr.is_operator (bare_name dep) = None.
Proof.
  unfold bare_name, PyStr.strip.
  apply first_index_rstrip, first_index_lstrip.
  destruct (first_index PyStr.is_operator dep) as [i|] eqn:E; [|done].
  by apply first_index_substring.
Qed.

Lemma lstrip_fixed s :
  match s with String c _ => PyStr.is_space c = false | EmptyString => True end ->
  PyStr.lstrip s = s.
Proof. destruct s as [|c s]; simpl; [done|]. by intros ->. Qed.

Lemma last_char_cons c d s : last_char (String c (String d s)) = last_char (String d s).
Proof. done. Qed.

Lemma rstrip_fixed s :
  match last_char s with Some c => PyStr.is_space c = false | None => True end ->
  PyStr.rstrip s = s.
Proof.
  induction s as [|c s IH]; [done|].
  destruct s as [|d s].
  - unfold last_char. simpl. by intros ->.
  - rewrite last_char_cons. intros H. specialize (IH H).
    change (PyStr.rstrip (String c (String d s)))
      with (match PyStr.rstrip (String d s) with
            | EmptyString => if PyStr.is_space c then EmptyString else String c EmptyString
            | r => String c r
            end).
    by rewrite IH.
Qed.

(** A string that neither starts nor ends with whitespace is left alone. *)
Lemma strip_fixed s :
  match s with String c _ => PyStr.is_space c = false | EmptyString => True end ->
  match last_char s with Some c => PyStr.is_space c = false | None => True end ->
  PyStr.strip s = s.
Proof.
  intros Hh Hl. unfold PyStr.strip. rewrite (lstrip_fixed s Hh). by apply rstrip_fixed.
Qed.

Lemma strip_idempotent s : PyStr.strip (PyStr.strip s) = PyStr.strip s.
Proof.
  destruct (strip_spec s) as (l & r & _ & _ & _ & Hh & Hl).
  by apply strip_fixed.
Qed.

Lemma bare_name_idempotent dep : bare_name (bare_name dep) = bare_name dep.
Proof.
  unfold bare_name at 1. rewrite bare_name_no_operator.
  unfold bare_name. apply strip_idempotent.
Qed.

(** The cleaned names come from the non-blank string entries. *)
Lemma for_each_clean_entry_elem deps ys x :
  for_each clean_entry deps = Ok ys -> x ∈ ys ->
  exists dep, VStr dep ∈ deps /\ blank dep = false /\ x = bare_name dep.
Proof.
  revert ys. induction deps as [|d deps IH]; intros ys; simpl.
  - intros [= <-] H. by apply elem_of_nil in H.
  - destruct (clean_entry d) as [y|] eqn:Hd; simpl; [|done].
    destruct (for_each clean_entry deps) as [zs|]; simpl; [|done].
    intros [= <-] [Hx|Hx]%elem_of_app.
    + destruct d as [dep| | | | | |]; try done.
      rewrite clean_entry_str in Hd. injection Hd as <-.
      destruct (blank dep) eqn:Hb; [by apply elem_of_nil in Hx|].
      apply list_elem_of_singleton in Hx as ->.
      exists dep. split_and!; [apply list_elem_of_here|done|done].
    + destruct (IH zs eq_refl Hx) as (dep & Hin & Hb & ->).
      exists dep. split_and!; [by apply list_elem_of_further|done|done].
Qed.

Lemma dependencies_from_cleaned file names :
  get_project_dependencies file = Ok names ->
  names = ∅ \/ exists deps cleaned,
    collected file = Ok deps /\ for_each clean_entry deps = Ok cleaned /\
    names = list_to_set cleaned.
Proof.
  unfold get_project_dependencies, cleaned_deps.
  destruct (collected file) as [deps|e] eqn:Hc; simpl.
  - destruct (for_each clean_entry deps) as [cleaned|e] eqn:Hf; simpl.
    + intros [= <-]. right. by exists deps, cleaned.
    + case_bool_decide; [|done]. intros [= <-]. by left.
  - case_bool_decide; [|done]. intros [= <-]. by left.
Qed.

(** X5: whatever the marker file holds, every name that
    [get_project_dependencies] returns is free of the operator characters
    [< > = ! ~], neither starts nor ends with whitespace, and is left
    unchanged by cleaning it once more. *)
Theorem dependency_names_clean (file : marker_file) (names : gset string)
    (x : string) :
  get_project_dependencies file = Ok names -> x ∈ names ->
  first_index PyStr.is_operator x = None /\
  match x with String c _ => PyStr.is_space c = false | EmptyString => True end /\
  match last_char x with Some c => PyStr.is_space c = false | None => True end /\
  clean (VStr x) = Ok x.
Proof.
  intros [->|(deps & cleaned & _ & Hf & ->)]%dependencies_from_cleaned Hx.
  { by apply elem_of_empty in Hx. }
  apply elem_of_list_to_set in Hx.
  destruct (for_each_clean_entry_elem _ _ _ Hf Hx) as (dep & _ & _ & ->).
  split_and!.
  - apply bare_name_no_operator.
  - unfold bare_name. by destruct (strip_spec
      (match first_index PyStr.is_operator dep with
       | Some i => String.substring 0 i dep | None => dep end))
      as (l & r & _ & _ & _ & Hh & _).
  - unfold bare_name. by destruct (strip_spec
      (match first_index PyStr.is_operator dep with
       | Some i => String.substring 0 i dep | None => dep end))
      as (l & r & _ & _ & _ & _ & Hl).
  - by rewrite clean_bare_name, bare_name_idempotent.
Qed.

Lemma clean_entry_not_str v :
  is_str v = false -> clean_entry v = Raise AttributeError.
Proof. by destruct v. Qed.

Lemma for_each_clean_entry_total deps :
  forallb is_str deps = true -> exists ys, for_each clean_entry deps = Ok ys.
Proof.
  induction deps as [|d deps IH]; simpl; [by eexists|].
  intros [Hd Hr]%andb_true_iff. destruct (IH Hr) as [zs Hz].
  destruct d; try done. rewrite clean_entry_str, Hz. simpl. by eexists.
Qed.

Lemma for_each_clean_entry_fails deps :
  forallb is_str deps = false -> for_each clean_entry deps = Raise AttributeError.
Proof.
  induction deps as [|d deps IH]; simpl; [done|].
  destruct (is_str d) eqn:Hd; simpl.
  - intros Hr. destruct d; try done. rewrite clean_entry_str, (IH Hr). done.
  - intros _. by rewrite clean_entry_not_str.
Qed.

(** X6: once the entries are gathered, the result depends on their type
    alone: when all of them are strings a set of names is returned, and
    when one of them is not a string, [dep.strip()] raises
    [AttributeError], which the [except] clause does not catch. *)
Theorem entries_must_be_strings (file : marker_file) (deps : list value) :
  collected file = Ok deps ->
  if forallb is_str deps
  then exists names, get_project_dependencies file = Ok names
  else get_project_dependencies file = Raise AttributeError.
Proof.
  intros Hc. rewrite (get_project_dependencies_collected _ _ Hc).
  destruct (forallb is_str deps) eqn:E.
  - destruct (for_each_clean_entry_total deps E) as [ys ->]. simpl. by eexists.
  - by rewrite (for_each_clean_entry_fails deps E).
Qed.

Lemma project_entry_raises data key e :
  project_entry data key = Raise e -> e = TypeError.
Proof.
  unfold project_entry, has_key, dict_getitem.
  destruct (lookup_key "project" data) as [project|]; [|done]. simpl.
  destruct project as [s|n|t|b|t|l|proj]; simpl; try (by intros [= <-]).
  - destruct (PyStr.contains key s); [by intros [= <-]|done].
  - destruct (existsb _ l); [by intros [= <-]|done].
  - unfold has_key, dict_getitem. by destruct (lookup_key key proj).
Qed.

Lemma iterate_raises v e : iterate v = Raise e -> e = TypeError.
Proof. destruct v; simpl; by intros [= <-]. Qed.

Lemma for_each_iterate_raises groups e :
  for_each iterate groups = Raise e -> e = TypeError.
Proof.
  induction groups as [|g groups IH]; simpl; [done|].
  destruct (iterate g) as [ys|e'] eqn:Hg; simpl.
  - destruct (for_each iterate groups); simpl; [done|]. intros [= <-]. by apply IH.
  - intros [= <-]. by eapply iterate_raises.
Qed.

Lemma method_values_raises v e : method_values v = Raise e -> e = AttributeError.
Proof. destruct v; simpl; by intros [= <-]. Qed.

Lemma collected_raises file e :
  collected file = Raise e ->
  load file = Raise e \/ e = TypeError \/ e = AttributeError.
Proof.
  unfold collected.
  destruct (load file) as [data|e'] eqn:Hl; cbn [mbind result_bind];
    [|intros [= <-]; by left].
  intros H. right.
  destruct (project_entry data "dependencies") as [main|e1] eqn:H1;
    cbn [mbind result_bind] in H.
  2:{ injection H as <-. left. by eapply project_entry_raises. }
  destruct (match main with
            | Some v => items ← iterate v; Ok ([] ++ items)
            | None => Ok []
            end) as [deps|e2] eqn:H2; cbn [mbind result_bind] in H.
  2:{ injection H as <-. destruct main as [v|]; [|done].
      destruct (iterate v) eqn:Hi; [done|]. cbn [mbind result_bind] in H2.
      injection H2 as <-. left. by eapply iterate_raises. }
  destruct (project_entry data "optional-dependencies") as [opt|e3] eqn:H3;
    cbn [mbind result_bind] in H.
  2:{ injection H as <-. left. by eapply project_entry_raises. }
  destruct opt as [v|]; [|done].
  destruct (method_values v) as [groups|e4] eqn:H4; cbn [mbind result_bind] in H.
  2:{ injection H as <-. right. by eapply method_values_raises. }
  destruct (for_each iterate groups) as [extra|e5] eqn:H5;
    cbn [mbind result_bind] in H; [done|].
  injection H as <-. left. by eapply for_each_iterate_raises.
Qed.

(** X7: what leaves the readers.  An exception of [open] or
    [tomllib.load] gets out unchanged unless it is one of the two of the
    [except] clause, which give [None] and the empty result; on a loaded
    document [get_project_name] can only raise [AttributeError] and
    [get_project_dependencies] only [TypeError] or [AttributeError]: the
    subscripts guarded by [in] never raise [KeyError] and the index [[0]]
    never raises [IndexError]. *)
Theorem reader_exceptions (file : marker_file) :
  (forall e, get_project_name file = Raise e ->
     (load file = Raise e /\ e ∉ caught) \/ e = AttributeError) /\
  (forall e, get_project_dependencies file = Raise e ->
     (load file = Raise e /\ e ∉ caught) \/ e = TypeError \/ e = AttributeError) /\
  (forall e, load file = Raise e ->
     if bool_decide (e ∈ caught)
     then get_project_name file = Ok None /\ get_project_dependencies file = Ok ∅
     else get_project_name file = Raise e /\ get_project_dependencies file = Raise e).
Proof.
  split_and!.
  - intros e. unfold get_project_name.
    destruct (load file) as [data|e'] eqn:Hl; simpl.
    + unfold dict_get.
      destruct (lookup_key "project" data) as [[]|]; simpl; try done;
        intros [= <-]; by right.
    + case_bool_decide as Hc; [done|]. intros [= <-]. by left.
  - intros e. unfold get_project_dependencies, cleaned_deps.
    destruct (collected file) as [deps|e'] eqn:Hc; simpl.
    + destruct (forallb is_str deps) eqn:E.
      * by destruct (for_each_clean_entry_total deps E) as [ys ->].
      * rewrite (for_each_clean_entry_fails deps E). simpl.
        intros [= <-]. by right; right.
    + case_bool_decide as Hcaught; [done|]. intros [= <-].
      apply collected_raises in Hc as [Hl|[->| ->]]; auto.
  - intros e Hl. unfold get_project_name, get_project_dependencies, cleaned_deps,
      collected. rewrite Hl. cbn [mbind result_bind try_except].
    by case_bool_decide.
Qed.

Lemma elem_of_chars x s :
  x ∈ PyStr.chars s <-> exists i c, String.get i s = Some c /\ x = String c EmptyString.
Proof.
  induction s as [|d s IH]; simpl.
  - split; [by intros ?%elem_of_nil|]. by intros (i & c & ? & _).
  - rewrite elem_of_cons, IH. split.
    + intros [->|(i & c & Hg & ->)]; [by exists 0, d|by exists (S i), c].
    + intros ([|i] & c & Hg & ->); simpl in Hg.
      * left. congruence.
      * right. by exists i, c.
Qed.

Lemma blank_char c : blank (String c EmptyString) = PyStr.is_space c.
Proof.
  unfold blank, PyStr.strip. simpl. destruct (PyStr.is_space c) eqn:E; simpl.
  - done.
  - by rewrite E.
Qed.

Lemma bare_name_char c :
  PyStr.is_space c = false ->
  bare_name (String c EmptyString) =
    if PyStr.is_operator c then EmptyString else String c EmptyString.
Proof.
  intros Hs. unfold bare_name. simpl.
  destruct (PyStr.is_operator c); [done|]. simpl.
  unfold PyStr.strip. simpl. rewrite Hs. simpl. by rewrite Hs.
Qed.

(** X8: when [dependencies] is a string and not a list of strings,
    [extend] adds its characters one by one: the result holds one name per
    character that is neither whitespace nor an operator, and the empty
    name when the text has an operator character. *)
Theorem dependencies_given_as_text (data proj : dict) (s : string) :
  lookup_key "project" data = Some (VDict proj) ->
  lookup_key "dependencies" proj = Some (VStr s) ->
  lookup_key "optional-dependencies" proj = None ->
  exists names : gset string,
    get_project_dependencies (Document data) = Ok names /\
    forall x, x ∈ names <->
      exists i c, String.get i s = Some c /\ PyStr.is_space c = false /\
                  x = if PyStr.is_operator c then EmptyString
                      else String c EmptyString.
Proof.
  intros Hp Hd Ho.
  assert (Hc : collected (Document data) = Ok (VStr <$> PyStr.chars s)).
  { unfold collected. simpl.
    rewrite !(project_entry_table _ _ _ Hp), Hd, Ho. done. }
  rewrite (get_project_dependencies_collected _ _ Hc), for_each_clean_entry.
  simpl. eexists. split; [done|]. intros x.
  rewrite elem_of_list_to_set, list_elem_of_fmap. split.
  - intros (dep & -> & Hin). apply list_elem_of_In, filter_In in Hin as [Hin Hb].
    apply list_elem_of_In, elem_of_chars in Hin as (i & c & Hg & ->).
    rewrite blank_char in Hb. apply negb_true_iff in Hb.
    exists i, c. split_and!; [done|done|]. by apply bare_name_char.
  - intros (i & c & Hg & Hs & ->). exists (String c EmptyString).
    split; [by rewrite bare_name_char|].
    apply list_elem_of_In, filter_In. split.
    + apply list_elem_of_In, elem_of_chars. by exists i, c.
    + by rewrite blank_char, Hs.
Qed.

Lemma dependency_names_clean_witness :
  first_index PyStr.is_operator "a" = None /\
  match "a" with String c _ => PyStr.is_space c = false | EmptyString => True end /\
  match last_char "a" with Some c => PyStr.is_space c = false | None => True end /\
  clean (VStr "a") = Ok "a".
Proof.
  apply (dependency_names_clean (Document example_marker) {[ "a"; "b"; "c" ]} "a").
  - vm_compute. reflexivity.
  - apply elem_of_union_l, elem_of_union_l, elem_of_singleton. reflexivity.
Defined.

Lemma entries_must_be_strings_witness :
  get_project_dependencies
    (Document [("project", VDict [("dependencies", VList [VStr "a"; VInt 1])])]) =
  Raise AttributeError.
Proof.
  apply (entries_must_be_strings
           (Document [("project", VDict [("dependencies", VList [VStr "a"; VInt 1])])])
           [VStr "a"; VInt 1]).
  reflexivity.
Defined.

Lemma dependencies_given_as_text_witness :
  exists names : gset string,
    get_project_dependencies (Document text_marker) = Ok names /\
    forall x, x ∈ names <->
      exists i c, String.get i "a=b" = Some c /\ PyStr.is_space c = false /\
                  x = if PyStr.is_operator c then EmptyString
                      else String c EmptyString.
Proof.
  apply (dependencies_given_as_text text_marker
           [("dependencies", VStr "a=b")] "a=b"); reflexivity.
Defined.

End ReaderFacts.

(* --------------------------------------------------------------------- *)
(** ** Properties of the logger set-up *)
(* --------------------------------------------------------------------- *)

Section LoggerFacts.
Import Logging.

Lemma basicConfig_configured lvl hs s :
  handlers (root s) <> [] -> basicConfig lvl hs s = s.
Proof. unfold basicConfig. by destruct (handlers (root s)). Qed.

Lemma setup_logger_root s :
  root (setup_logger s).1 =
    match handlers (root s) with
    | [] => {| level := INFO; handlers := [RichHandler false true false true];
               propagate := propagate (root s); disabled := disabled (root s) |}
    | _ :: _ => root s
    end.
Proof.
  unfold setup_logger, getLogger, basicConfig.
  destruct (handlers (root s)) as [|h hs] eqn:Hh.
  - cbn [foldl]. unfold addHandler. rewrite Hh.
    rewrite bool_decide_false by apply not_elem_of_nil.
    cbn [loggerDict]. by destruct (loggerDict s !! "rich") as [[]|].
  - by destruct (loggerDict s !! "rich") as [[]|].
Qed.

Lemma setup_logger_rich s :
  exists l, loggerDict (setup_logger s).1 !! "rich" = Some (ALogger l).
Proof.
  unfold setup_logger, getLogger.
  set (s1 := basicConfig INFO [RichHandler false true false true] s).
  destruct (loggerDict s1 !! "rich") as [[l|]|] eqn:El; cbn [fst loggerDict].
  - by exists l.
  - exists new_logger. by rewrite lookup_insert_eq.
  - exists new_logger. by rewrite lookup_insert_eq.
Qed.

(** X21: a second call of [setup_logger] changes nothing and returns the
    same logger: handlers do not pile up on the root logger, however often
    the function is called. *)
Theorem setup_logger_idempotent (s : state) :
  setup_logger (setup_logger s).1 = setup_logger s.
Proof.
  assert (Hroot : handlers (root (setup_logger s).1) <> []).
  { rewrite setup_logger_root. by destruct (handlers (root s)) eqn:E; [|rewrite E]. }
  destruct (setup_logger_rich s) as [l Hl].
  assert (Hname : (setup_logger s).2 = "rich").
  { unfold setup_logger, getLogger.
    set (s1 := basicConfig INFO [RichHandler false true false true] s).
    by destruct (loggerDict s1 !! "rich") as [[]|]. }
  unfold setup_logger at 1. rewrite basicConfig_configured by done.
  unfold getLogger at 1. rewrite Hl.
  destruct (setup_logger s) as [s' n]. simpl in Hname. by subst n.
Qed.

Lemma setup_logger_again s : (setup_logger (setup_logger s).1).1 = (setup_logger s).1.
Proof.
  assert (Hroot : handlers (root (setup_logger s).1) <> []).
  { rewrite setup_logger_root. by destruct (handlers (root s)) eqn:E; [|rewrite E]. }
  unfold setup_logger at 1. rewrite basicConfig_configured by done.
  unfold getLogger. destruct (setup_logger_rich s) as [l ->]. done.
Qed.

(** X22: in a process where [logging] has not been configured, one call
    or many calls of [setup_logger] leave the same configuration: the root
    logger at level [INFO] with exactly one [RichHandler] (path and time
    hidden, level shown, markup on), and a logger ["rich"] without level
    or handlers of its own, whose effective level is [INFO]. *)
Theorem setup_logger_repeated (n : nat) :
  after_calls (S n) initial = after_calls 1 initial /\
  root (after_calls (S n) initial) =
    {| level := INFO; handlers := [RichHandler false true false true];
       propagate := true; disabled := false |} /\
  loggerDict (after_calls (S n) initial) = {[ "rich" := ALogger new_logger ]} /\
  getEffectiveLevel "rich" (after_calls (S n) initial) = Some INFO.
Proof.
  assert (Hiter : after_calls (S n) initial = after_calls 1 initial).
  { induction n as [|n IH]; [done|].
    change (after_calls (S (S n)) initial)
      with ((setup_logger (after_calls (S n) initial)).1).
    rewrite IH. apply setup_logger_again. }
  rewrite Hiter. split_and!; [done|done|done|].
  by vm_compute.
Qed.

(** X23: when the root logger already has a handler, [setup_logger]
    leaves it as it is: neither the level [INFO] nor the [RichHandler] of
    the call is installed, no other logger is touched, and a logger
    ["rich"] created by the call has the effective level of the root
    logger. *)
Theorem setup_logger_keeps_configuration (s : state) :
  handlers (root s) <> [] ->
  root (setup_logger s).1 = root s /\
  (forall name, name <> "rich" ->
     loggerDict (setup_logger s).1 !! name = loggerDict s !! name) /\
  (loggerDict s !! "rich" = None ->
     getEffectiveLevel "rich" (setup_logger s).1 = Some (level (root s))).
Proof.
  intros Hh. unfold setup_logger. rewrite basicConfig_configured by done.
  unfold getLogger, getEffectiveLevel.
  destruct (loggerDict s !! "rich") as [[l|]|] eqn:El; cbn [fst root loggerDict];
    split_and!; try done.
  - intros name Hn. by rewrite lookup_insert_ne.
  - intros name Hn. by rewrite lookup_insert_ne.
  - intros _. by rewrite lookup_insert_eq.
Qed.

Lemma setup_logger_keeps_configuration_witness :
  root (setup_logger configured).1 = root configured /\
  (forall name, name <> "rich" ->
     loggerDict (setup_logger configured).1 !! name = loggerDict configured !! name) /\
  (loggerDict configured !! "rich" = None ->
     getEffectiveLevel "rich" (setup_logger configured).1 =
       Some (level (root configured))).
Proof. apply (setup_logger_keeps_configuration configured). by vm_compute. Defined.

End LoggerFacts.

(* ===================================================================== *)
(** * Properties of the command dispatcher *)
(* ===================================================================== *)

Section PrescanFacts.
Import Argparse Dispatcher.

Lemma first_passthrough_split i pre tok post :
  Forall (fun t => t ∉ passthrough_commands) pre ->
  tok ∈ passthrough_commands ->
  first_passthrough i (pre ++ tok :: post) = Some (i + length pre).
Proof.
  intros Hpre Htok. revert i.
  induction Hpre as [|t pre Ht _ IH]; intros i; simpl.
  - rewrite bool_decide_true by done. f_equal. lia.
  - rewrite bool_decide_false by done. rewrite IH. f_equal. lia.
Qed.

Lemma first_passthrough_none i argv :
  Forall (fun t => t ∉ passthrough_commands) argv ->
  first_passthrough i argv = None.
Proof.
  intros H. revert i. induction H as [|t l Ht _ IH]; intros i; simpl; [done|].
  by rewrite bool_decide_false.
Qed.

(** The argument list cut at its first pass-through command, if any. *)
Lemma first_cut (argv : list string) :
  Forall (fun t => t ∉ passthrough_commands) argv \/
  exists pre tok post,
    argv = pre ++ tok :: post /\ tok ∈ passthrough_commands /\
    Forall (fun t => t ∉ passthrough_commands) pre.
Proof.
  induction argv as [|a argv IH]; [by left|].
  destruct (decide (a ∈ passthrough_commands)) as [Ha|Ha].
  - right. by exists [], a, argv.
  - destruct IH as [IH|(pre & tok & post & -> & Htok & Hpre)].
    + left. by constructor.
    + right. exists (a :: pre), tok, post. split_and!; [done|done|by constructor].
Qed.

Lemma prescan_split pre tok post :
  Forall (fun t => t ∉ passthrough_commands) pre ->
  tok ∈ passthrough_commands ->
  prescan (pre ++ tok :: post) = (pre ++ [tok], post).
Proof.
  intros Hpre Htok. unfold prescan.
  rewrite (first_passthrough_split 0 pre tok post Hpre Htok). simpl.
  replace (length pre + 1) with (length (pre ++ [tok]))
    by (rewrite length_app; simpl; lia).
  rewrite (cons_middle tok pre post), app_assoc.
  by rewrite take_app_length, drop_app_length.
Qed.

Lemma prescan_none argv :
  Forall (fun t => t ∉ passthrough_commands) argv -> prescan argv = (argv, []).
Proof. intros H. unfold prescan. by rewrite first_passthrough_none. Qed.

Lemma prescan_app (argv : list string) :
  (prescan argv).1 ++ (prescan argv).2 = argv.
Proof.
  destruct (first_cut argv) as [Hnone|(pre & tok & post & -> & Htok & Hpre)].
  - rewrite (prescan_none argv Hnone). simpl. by rewrite app_nil_r.
  - rewrite (prescan_split pre tok post Hpre Htok). simpl. by rewrite <- app_assoc.
Qed.

(** C9: the pre-scan splits the argument list without loss; when some
    argument is a pass-through command, the head ends with the first such
    argument, and otherwise the head is the whole list. *)
Theorem prescan_lossless (argv : list string) :
  (prescan argv).1 ++ (prescan argv).2 = argv /\
  ((exists tok, tok ∈ argv /\ tok ∈ passthrough_commands) ->
     exists pre tok,
       (prescan argv).1 = pre ++ [tok] /\
       tok ∈ passthrough_commands /\
       (forall t, t ∈ pre -> t ∉ passthrough_commands) /\
       argv = pre ++ tok :: (prescan argv).2) /\
  ((forall tok, tok ∈ argv -> tok ∉ passthrough_commands) ->
     prescan argv = (argv, [])).
Proof.
  destruct (first_cut argv) as [Hnone|(pre & tok & post & -> & Htok & Hpre)].
  - rewrite (prescan_none argv Hnone). simpl. split_and!.
    + by rewrite app_nil_r.
    + intros (tok & Hin & Htok). rewrite Forall_forall in Hnone.
      by destruct (Hnone tok Hin).
    + done.
  - rewrite (prescan_split pre tok post Hpre Htok). simpl. split_and!.
    + by rewrite <- app_assoc.
    + intros _. exists pre, tok. split_and!; [done|done| |done].
      by apply Forall_forall.
    + intros Hall. destruct (Hall tok); [|done].
      apply elem_of_app. right. apply list_elem_of_here.
Qed.

End PrescanFacts.

(* --------------------------------------------------------------------- *)
(** ** The parsing loop *)
(* --------------------------------------------------------------------- *)

Section ParserFacts.
Import Argparse.
Context (prog : string) (m : list (string * opt_action)) (pos : positional)
        (sub : string -> list string -> option (parsed (namespace * list string))).

(** An invariant of the [while] loop that every round preserves holds when
    the loop is left, and no option is ahead then. *)
Lemma loop_ind (I : state -> list item -> Prop) :
  (forall st it following before o after st' passed,
     I st (it :: following) ->
     next_option (it :: following) = Some (before, o, after) ->
     iteration prog m pos sub st it following before o after = Ok (st', passed) ->
     I st' (drop passed following)) ->
  forall items st st' rest,
    I st items -> loop prog m pos sub st items = Ok (st', rest) ->
    I st' rest /\ next_option rest = None.
Proof.
  intros Hstep items.
  remember (length items) as n eqn:Hn.
  assert (Hle : length items <= n) by lia. clear Hn. revert items Hle.
  induction n as [|n IH]; intros items Hle st st' rest HI.
  - destruct items; [|simpl in Hle; lia]. simp loop. by intros [= <- <-].
  - destruct items as [|it following]; [simp loop; by intros [= <- <-]|].
    simp loop.
    destruct (next_option (it :: following)) as [[[before o] after]|] eqn:Hnext.
    + destruct (iteration prog m pos sub st it following before o after)
        as [[st1 passed]|e] eqn:Hit; [|done].
      apply IH.
      * rewrite length_drop. simpl in Hle. lia.
      * by eapply Hstep.
    + by intros [= <- <-].
Qed.

Lemma lookup_action_elem s a : lookup_action s m = Some a -> a ∈ m.*2.
Proof.
  induction m as [|[s' a'] m' IH]; simpl; [done|].
  case_bool_decide.
  - intros [= ->]. apply list_elem_of_here.
  - intros Hl. apply list_elem_of_further. by apply IH.
Qed.

Lemma get_option_tuples_elem arg a os ex :
  (Some a, os, ex) ∈ get_option_tuples m arg -> a ∈ m.*2.
Proof.
  unfold get_option_tuples. intros H.
  assert (Hflat : forall f : string * opt_action -> list option_tuple,
            (forall e t, t ∈ f e -> t.1.1 = Some e.2) ->
            (Some a, os, ex) ∈ flat_map f m -> a ∈ m.*2).
  { intros f Hf Hin. apply list_elem_of_In, in_flat_map in Hin as (e & He & Hin).
    apply list_elem_of_In in Hin. apply Hf in Hin. simpl in Hin.
    injection Hin as ->. apply list_elem_of_fmap. exists e.
    split; [done|]. by apply list_elem_of_In. }
  destruct (second_is_dash arg).
  - destruct (match split_eq arg with Some (l, r) => (l, Some r) | None => (arg, None) end)
      as [option_prefix explicit_arg].
    eapply Hflat; [|exact H]. intros e t. simpl.
    destruct (PyStr.startswith option_prefix e.1); [|by intros ?%elem_of_nil].
    by intros ->%list_elem_of_singleton.
  - eapply Hflat; [|exact H]. intros e t. simpl.
    case_bool_decide; [by intros ->%list_elem_of_singleton|].
    destruct (PyStr.startswith arg e.1); [|by intros ?%elem_of_nil].
    by intros ->%list_elem_of_singleton.
Qed.

Lemma parse_optional_action arg a os ex :
  parse_optional prog m arg = Ok (Some (Some a, os, ex)) -> a ∈ m.*2.
Proof.
  unfold parse_optional, error. intros H.
  repeat case_match; simplify_eq;
    try (by eapply lookup_action_elem);
    (eapply get_option_tuples_elem;
     match goal with H : get_option_tuples _ _ = _ |- _ => rewrite H end;
     apply list_elem_of_here).
Qed.

Lemma classify_from_table args pattern :
  classify prog m args = Ok pattern -> Forall (from_table m) pattern.
Proof.
  revert pattern. induction args as [|arg args IH]; intros pattern; simpl.
  - intros [= <-]. constructor.
  - case_bool_decide.
    + intros [= <-]. constructor; [done|].
      apply Forall_fmap, Forall_true. done.
    + destruct (parse_optional prog m arg) as [t|] eqn:Ht; simpl; [|done].
      destruct (classify prog m args) as [syms|]; simpl; [|done].
      intros [= <-]. constructor; [|by apply IH].
      destruct t as [[[[a|] os] ex]|]; simpl; try done.
      by eapply parse_optional_action.
Qed.

Lemma classify_length args pattern :
  classify prog m args = Ok pattern -> length pattern = length args.
Proof.
  revert pattern. induction args as [|arg args IH]; intros pattern; simpl.
  - by intros [= <-].
  - case_bool_decide.
    + intros [= <-]. simpl. by rewrite length_fmap.
    + destruct (parse_optional prog m arg) as [t|]; simpl; [|done].
      destruct (classify prog m args) as [syms|]; simpl; [|done].
      intros [= <-]. simpl. f_equal. by apply IH.
Qed.

Lemma following_args_head action os following tuples r n :
  following_args prog action os following tuples = Ok (r, n) ->
  exists args, r = tuples ++ [(action, args, os)].
Proof.
  unfold following_args, error. intros H.
  repeat case_match; simplify_eq; eauto.
Qed.

Lemma explicit_args_head action os ex following tuples r n :
  explicit_args prog m action os ex following tuples = Ok (r, n) ->
  exists args os' rest, r = tuples ++ (action, args, os') :: rest.
Proof.
  revert action os tuples.
  induction ex as [|c ex IH]; intros action os tuples; simpl.
  - destruct (nargs action); [|intros [= <- <-]; eauto].
    rewrite andb_false_r. done.
  - destruct (nargs action); [|intros [= <- <-]; eauto].
    destruct (negb (second_is_dash os)); simpl; [|done].
    destruct (lookup_action _ m) as [action'|]; [|done].
    destruct ex as [|c' ex'].
    + intros [args ->]%following_args_head. rewrite <- app_assoc. simpl. eauto.
    + intros (args & os' & rest & ->)%IH. rewrite <- app_assoc. simpl. eauto.
Qed.

(** An option whose action is [Help] never lets parsing go on. *)
Lemma consume_help st arg os ex after r :
  consume_optional prog m st arg (Some Help, os, ex) after = Ok r -> False.
Proof.
  unfold consume_optional.
  destruct ex as [ex|].
  - destruct (explicit_args prog m Help os ex after []) as [[tuples n]|] eqn:H;
      simpl; [|done].
    apply explicit_args_head in H as (args & os' & rest & ->). done.
  - destruct (following_args prog Help os after []) as [[tuples n]|] eqn:H;
      simpl; [|done].
    apply following_args_head in H as (args & ->). done.
Qed.

End ParserFacts.

Section Dispatching.
Import Argparse.
Context (prog dest : string) (subs : subparsers)
        (sub : string -> list string -> option (parsed (namespace * list string))).

Local Abbreviation m := (option_string_actions [help]).
Local Abbreviation pos := (SubParsers dest true subs).
Local Abbreviation ns0 := (defaults [help] (SubParsers dest true subs)).

Lemma help_table a : a ∈ m.*2 -> a = Help.
Proof.
  simpl. intros H.
  repeat (apply elem_of_cons in H as [->|H]; [done|]).
  by apply elem_of_nil in H.
Qed.

Lemma count_while_le {A} (f : A -> bool) l : count_while f l <= length l.
Proof. induction l as [|x l IH]; simpl; [lia|]. destruct (f x); simpl; lia. Qed.

(** The pattern of a sub-parser action matches up to the end. *)
Lemma match_sub_all pattern n :
  match_positional pos pattern = Some n -> n = length pattern.
Proof.
  unfold match_positional.
  pose proof (count_while_le is_dash pattern) as Hle.
  destruct (drop (count_while is_dash pattern) pattern) as [|[]] eqn:Hd; try done.
  intros [= <-].
  apply (f_equal length) in Hd. rewrite length_drop in Hd. simpl in Hd. lia.
Qed.

Lemma consume_sub st items st' n :
  pending dest subs st ->
  consume_positionals prog pos sub st items = Ok (st', n) ->
  (n = 0 /\ st' = st) \/
  (n = length items /\ positional_seen st' = true /\
   extras st' = extras st /\ chosen dest subs sub (items.*1) st').
Proof.
  intros (Hseen & Hns & Hun). unfold consume_positionals. rewrite Hseen.
  destruct (match_positional pos (items.*2)) as [k|] eqn:Hk;
    [|intros [= <- <-]; by left].
  apply match_sub_all in Hk. rewrite length_fmap in Hk. subst k.
  rewrite firstn_all. unfold take_positional.
  destruct (items.*1) as [|name sub_args]; [done|].
  case_bool_decide as Hname; [|done].
  destruct (sub name sub_args) as [[[subns sub_extras]|]|] eqn:Hsub; try done.
  simpl. intros [= <- <-]. right. split_and!; [done..|].
  exists name, sub_args, subns, sub_extras. simpl.
  rewrite Hns, Hun. done.
Qed.

Lemma consume_opt st arg t after st' k :
  pending dest subs st -> from_table m (SymO t) ->
  consume_optional prog m st arg t after = Ok (st', k) ->
  pending dest subs st' /\ k = 0 /\ extras st' = extras st ++ [arg].
Proof.
  intros Hp Ht. destruct t as [[[a|] os] ex].
  - apply help_table in Ht as ->. by intros ?%consume_help.
  - simpl. by intros [= <- <-].
Qed.

Lemma next_option_split items before o after :
  next_option items = Some (before, o, after) ->
  items = before ++ (o.1, SymO o.2) :: after.
Proof.
  revert before. induction items as [|[arg s] items IH]; intros before; [done|].
  simpl. destruct s as [t| |].
  - by intros [= <- <- <-].
  - destruct (next_option items) as [[[b o'] a]|]; [|done].
    intros [= <- <- <-]. simpl. f_equal. by apply IH.
  - destruct (next_option items) as [[[b o'] a]|]; [|done].
    intros [= <- <- <-]. simpl. f_equal. by apply IH.
Qed.

Lemma zip_from_table args pattern :
  Forall (from_table m) pattern ->
  Forall (fun it : item => from_table m it.2) (zip args pattern).
Proof.
  intros H. revert args.
  induction H as [|s pattern Hs _ IH]; intros [|a args]; simpl;
    constructor; [done|apply IH].
Qed.

(** What a successful parse of a parser that only dispatches to
    sub-parsers looks like: the arguments before the sub-command are
    unknown options, which become extras, and the rest goes to the chosen
    sub-parser. *)
Lemma dispatching_parser_success args ns' extras' :
  parse_known_args_with prog [help] pos sub args = Ok (ns', extras') ->
  exists name sub_args subns top_extras sub_extras,
    args = top_extras ++ name :: sub_args /\
    name ∈ names subs /\
    sub name sub_args = Some (Ok (subns, sub_extras)) /\
    ns' = subns ∪ <[dest := AStr name]> ns0 /\
    extras' = top_extras ++ sub_extras.
Proof.
  unfold parse_known_args_with.
  destruct (classify prog m args) as [pattern|] eqn:Hc; [|done].
  cbn [mbind result_bind].
  set (st0 := {| ns := ns0; extras := []; unrecognized := [];
                 positional_seen := false |}).
  destruct (loop prog m pos sub st0 (zip args pattern)) as [[st1 rest1]|] eqn:Hl;
    [|done].
  cbn [mbind result_bind].
  destruct (finish prog pos sub st1 rest1) as [st2|] eqn:Hf; [|done].
  cbn [mbind result_bind]. intros [= <- <-].
  assert (Hdone : exists arg_strings,
            chosen dest subs sub arg_strings st2 /\
            args = extras st2 ++ arg_strings).
  2:{ destruct Hdone as (? & (name & sub_args & subns & sub_extras
                                & -> & ? & ? & Hns & Hun) & Hargs).
      exists name, sub_args, subns, (extras st2), sub_extras.
      by rewrite Hns, Hun. }
  pose (I := fun (st : state) (items : list item) =>
               Forall (fun it : item => from_table m it.2) items /\
               ((pending dest subs st /\ args = extras st ++ items.*1) \/
                (positional_seen st = true /\ items = [] /\
                 exists arg_strings,
                   chosen dest subs sub arg_strings st /\
                   args = extras st ++ arg_strings))).
  destruct (loop_ind prog m pos sub I) with (items := zip args pattern)
    (st := st0) (st' := st1) (rest := rest1) as [[Hall Hst] Hnone]; [| |done|].
  - (* every round keeps [I] *)
    clear. intros st it following before o after st' passed [Hall Hst] Hnext Hit.
    destruct Hst as [[Hp Hargs]|(_ & ? & _)]; [|done].
    pose proof (next_option_split _ _ _ _ Hnext) as Hsplit.
    assert (Ho : from_table m (SymO o.2)).
    { rewrite Hsplit in Hall. apply Forall_app in Hall as [_ Hall].
      by apply Forall_cons in Hall as [Ho _]. }
    unfold iteration in Hit. destruct before as [|b before'].
    + simpl in Hsplit. injection Hsplit as -> ->.
      apply consume_opt in Hit as (Hp' & -> & Hex); [|done..].
      apply Forall_cons in Hall as [_ Hall]. split; [done|]. left.
      split; [done|]. rewrite Hex, Hargs, <- app_assoc. done.
    + simpl in Hsplit. injection Hsplit as -> ->.
      destruct (consume_positionals prog pos sub st
                  (b :: before' ++ (o.1, SymO o.2) :: after))
        as [[st1 n]|] eqn:Hcp; [|done].
      cbn [mbind result_bind] in Hit.
      apply consume_sub in Hcp as [[-> ->]|(-> & Hseen & Hex & Hch)]; [| |done].
      * destruct (consume_optional prog m _ o.1 o.2 after) as [[st3 k]|] eqn:Hopt;
          [|done].
        cbn [mbind result_bind] in Hit. injection Hit as <- <-.
        apply consume_opt in Hopt as (Hp' & -> & Hex); [|by destruct Hp|done].
        replace (length before' + 1 + 0) with (length (before' ++ [(o.1, SymO o.2)]))
          by (rewrite length_app; simpl; lia).
        rewrite (cons_middle _ before' after), app_assoc, drop_app_length.
        split.
        { apply Forall_cons in Hall as [_ Hall].
          by apply Forall_app in Hall as [_ [_ Hall]%Forall_cons]. }
        left. split; [done|]. rewrite Hex, Hargs. simpl.
        rewrite !fmap_app, !fmap_cons, <- !app_assoc. simpl. done.
      * simpl in Hit. injection Hit as <- <-.
        rewrite drop_all. split; [constructor|]. right.
        split_and!; [done..|]. eexists. split; [exact Hch|]. by rewrite Hex.
  - (* [I] holds at the start *)
    split; [apply zip_from_table; by apply (classify_from_table prog m args)|].
    left. split; [done|]. simpl.
    rewrite fst_zip; [done|]. by rewrite (classify_length prog m args pattern).
  - (* after the loop *)
    unfold finish in Hf.
    destruct (consume_positionals prog pos sub st1 rest1) as [[st1' n]|] eqn:Hcp;
      [|done].
    cbn [mbind result_bind] in Hf.
    destruct Hst as [[Hp Hargs]|(Hseen & -> & Hch)].
    + apply consume_sub in Hcp as [[-> ->]|(-> & Hseen & Hex & Hch)]; [| |done].
      * destruct Hp as (Hseen & _). simpl in Hf. rewrite Hseen in Hf. done.
      * simpl in Hf. rewrite Hseen in Hf. injection Hf as <-.
        eexists. split; [exact Hch|]. simpl.
        by rewrite drop_all, app_nil_r, Hex.
    + unfold consume_positionals in Hcp. rewrite Hseen in Hcp.
      injection Hcp as <- <-. simpl in Hf. rewrite Hseen in Hf.
      injection Hf as <-. destruct Hch as (arg_strings & Hch & Hargs).
      eexists. split; [exact Hch|]. simpl. by rewrite app_nil_r.
Qed.

End Dispatching.

Lemma setattr_leaf opts pos d v st :
  is_Some (Argparse.defaults opts pos !! d) -> leaf_state opts pos st ->
  leaf_state opts pos (Argparse.setattr d v st).
Proof.
  intros Hd [Hattr Hun]. split; [|done]. intros k. simpl.
  rewrite lookup_insert_is_Some'. split.
  - intros [<-|H]; [done|by apply Hattr].
  - intros H. right. by apply Hattr.
Qed.

Lemma take_positional_leaf prog opts pos sub args st st' :
  declared_positional opts pos -> leaf_state opts pos st ->
  Argparse.take_positional prog pos sub args st = Ok st' ->
  leaf_state opts pos st'.
Proof.
  intros Hd Hst. destruct pos as [|d mv ch|d mv|]; simpl in *; [|..|done].
  - by intros [= <-].
  - destruct (Argparse.get_values_single prog _ ch _); simpl; [|done].
    intros [= <-]. by apply setattr_leaf.
  - intros [= <-]. by apply setattr_leaf.
Qed.

Section LeafParsers.
Import Argparse.
Context (prog : string) (opts : list optional) (pos : positional)
        (sub : string -> list string -> option (parsed (namespace * list string))).

Local Abbreviation m := (option_string_actions opts).
Local Abbreviation ns0 := (defaults opts pos).

Hypothesis Hopts : Forall (declared_action opts pos) (m.*2).
Hypothesis Hpos : declared_positional opts pos.

Lemma take_optional_leaf a args st st' :
  declared_action opts pos a -> leaf_state opts pos st ->
  take_optional prog a args st = Ok st' -> leaf_state opts pos st'.
Proof.
  intros Ha Hst. destruct a as [|d|d v]; simpl; [done| |].
  - intros [= <-]. by apply setattr_leaf.
  - destruct (get_values_single prog d None args); simpl; [|done].
    intros [= <-]. by apply setattr_leaf.
Qed.

Lemma take_all_leaf tuples st st' :
  Forall (fun t : action_tuple => declared_action opts pos t.1.1) tuples -> leaf_state opts pos st ->
  take_all prog tuples st = Ok st' -> leaf_state opts pos st'.
Proof.
  intros Ht. revert st. induction Ht as [|[[a args] os] tuples Ha _ IH]; intros st Hst.
  - by intros [= <-].
  - simpl. destruct (take_optional prog a args st) as [st1|] eqn:H1; simpl; [|done].
    apply IH. by eapply take_optional_leaf.
Qed.

Lemma lookup_declared s a : lookup_action s m = Some a -> declared_action opts pos a.
Proof.
  intros H%lookup_action_elem. rewrite Forall_forall in Hopts. by apply Hopts.
Qed.

Lemma following_args_declared action os following tuples r n :
  declared_action opts pos action ->
  Forall (fun t : action_tuple => declared_action opts pos t.1.1) tuples ->
  following_args prog action os following tuples = Ok (r, n) ->
  Forall (fun t : action_tuple => declared_action opts pos t.1.1) r.
Proof.
  intros Ha Ht [args ->]%following_args_head.
  apply Forall_app. split; [done|]. by repeat constructor.
Qed.

Lemma explicit_args_declared action os ex following tuples r n :
  declared_action opts pos action ->
  Forall (fun t : action_tuple => declared_action opts pos t.1.1) tuples ->
  explicit_args prog m action os ex following tuples = Ok (r, n) ->
  Forall (fun t : action_tuple => declared_action opts pos t.1.1) r.
Proof.
  revert action os tuples.
  induction ex as [|c ex IH]; intros action os tuples Ha Ht; simpl.
  - destruct (nargs action).
    + rewrite andb_false_r. done.
    + intros [= <- <-]. apply Forall_app. split; [done|]. by repeat constructor.
  - destruct (nargs action).
    2:{ intros [= <- <-]. apply Forall_app. split; [done|]. by repeat constructor. }
    destruct (negb (second_is_dash os)); simpl; [|done].
    destruct (lookup_action _ m) as [action'|] eqn:Hl; [|done].
    assert (Forall (fun t : action_tuple => declared_action opts pos t.1.1)
              (tuples ++ [(action, [], os)])).
    { apply Forall_app. split; [done|]. by repeat constructor. }
    apply lookup_declared in Hl.
    destruct ex as [|c' ex'].
    + by apply following_args_declared.
    + by apply IH.
Qed.

Lemma consume_optional_leaf st arg t after st' k :
  from_table m (SymO t) -> leaf_state opts pos st ->
  consume_optional prog m st arg t after = Ok (st', k) -> leaf_state opts pos st'.
Proof.
  intros Ht Hst. destruct t as [[[a|] os] ex]; simpl.
  2:{ by intros [= <- <-]. }
  assert (Ha : declared_action opts pos a).
  { simpl in Ht. rewrite Forall_forall in Hopts. by apply Hopts. }
  destruct (match ex with
            | Some e => explicit_args prog m a os e after []
            | None => following_args prog a os after []
            end) as [[tuples n]|] eqn:Htup; simpl; [|done].
  destruct (take_all prog tuples st) as [st1|] eqn:Hall; simpl; [|done].
  intros [= <- <-]. eapply take_all_leaf; [|done|done].
  destruct ex.
  - by eapply explicit_args_declared.
  - by eapply following_args_declared.
Qed.

Lemma consume_positionals_leaf st items st' n :
  leaf_state opts pos st ->
  consume_positionals prog pos sub st items = Ok (st', n) -> leaf_state opts pos st'.
Proof.
  intros Hst. unfold consume_positionals.
  destruct (positional_seen st); [by intros [= <- <-]|].
  destruct (match_positional pos (items.*2)) as [k|]; [|by intros [= <- <-]].
  destruct (take_positional prog pos sub (take k items).*1 st) as [st1|] eqn:Ht;
    simpl; [|done].
  intros [= <- <-].
  eapply take_positional_leaf in Ht; [|done..]. exact Ht.
Qed.

(** A parser without sub-parsers returns a namespace with exactly the
    attributes of its defaults. *)
Lemma leaf_parser_attributes args ns' extras' :
  parse_known_args_with prog opts pos sub args = Ok (ns', extras') ->
  same_attributes opts pos ns'.
Proof.
  unfold parse_known_args_with.
  destruct (classify prog m args) as [pattern|] eqn:Hc; [|done].
  cbn [mbind result_bind].
  set (st0 := {| ns := ns0; extras := []; unrecognized := [];
                 positional_seen := false |}).
  destruct (loop prog m pos sub st0 (zip args pattern)) as [[st1 rest1]|] eqn:Hl;
    [|done].
  cbn [mbind result_bind].
  destruct (finish prog pos sub st1 rest1) as [st2|] eqn:Hf; [|done].
  cbn [mbind result_bind]. intros [= <- <-].
  pose (I := fun (st : state) (items : list item) =>
               Forall (fun it : item => from_table m it.2) items /\ leaf_state opts pos st).
  destruct (loop_ind prog m pos sub I) with (items := zip args pattern)
    (st := st0) (st' := st1) (rest := rest1) as [[Hall Hst] Hnone]; [| |done|].
  - intros st it following before o after st' passed [Hall Hst] Hnext Hit.
    split.
    { apply Forall_drop. by apply Forall_cons in Hall as [_ ?]. }
    pose proof (next_option_split _ _ _ _ Hnext) as Hsplit.
    assert (Ho : from_table m (SymO o.2)).
    { rewrite Hsplit in Hall. apply Forall_app in Hall as [_ Hall].
      by apply Forall_cons in Hall as [Ho _]. }
    unfold iteration in Hit. destruct before as [|b before'].
    + by eapply consume_optional_leaf.
    + destruct (consume_positionals prog pos sub st (it :: following))
        as [[st1' n]|] eqn:Hcp; [|done].
      cbn [mbind result_bind] in Hit.
      apply consume_positionals_leaf in Hcp; [|done].
      destruct n as [|n]; [|by injection Hit as <- <-].
      destruct (consume_optional prog m _ o.1 o.2 after) as [[st3 k]|] eqn:Hopt;
        [|done].
      cbn [mbind result_bind] in Hit. injection Hit as <- <-.
      eapply consume_optional_leaf; [exact Ho| |exact Hopt]. exact Hcp.
  - split; [|done].
    apply classify_from_table in Hc.
    clear -Hc. revert args. induction Hc as [|s pattern Hs _ IH]; intros [|a args];
      simpl; constructor; [done|apply IH].
  - unfold finish in Hf.
    destruct (consume_positionals prog pos sub st1 rest1) as [[st1' n]|] eqn:Hcp;
      [|done].
    cbn [mbind result_bind] in Hf.
    apply consume_positionals_leaf in Hcp as [Hattr _]; [|done].
    destruct (required pos); [destruct (positional_seen _)|];
      simplify_eq; done.
Qed.

End LeafParsers.

Section OneRoutine.
Import Argparse Dispatcher.

Lemma select_find subs name args :
  select subs name args = (fun p => parse_known_args p args) <$> find_parser subs name.
Proof.
  induction subs as [|n p rest IH]; simpl; [done|].
  by case_bool_decide.
Qed.

Lemma getattr_union_l (subns rest : namespace) k v :
  subns !! k = Some v -> getattr (subns ∪ rest) k = Ok v.
Proof. intros H. unfold getattr. by rewrite (lookup_union_Some_l _ _ _ _ H). Qed.

Lemma getattr_union_r (subns rest : namespace) k :
  subns !! k = None -> getattr (subns ∪ rest) k = getattr rest k.
Proof. intros H. unfold getattr. by rewrite (lookup_union_r _ _ _ H). Qed.

(** A parser without sub-parsers, from its declarations. *)
Lemma leaf_attributes prog opts pos args ns' extras' :
  Forall (declared_action opts pos) ((option_string_actions opts).*2) ->
  declared_positional opts pos ->
  parse_known_args (Parser prog opts pos) args = Ok (ns', extras') ->
  same_attributes opts pos ns'.
Proof.
  intros Hopts Hpos. cbn [parse_known_args]. by apply leaf_parser_attributes.
Qed.

Lemma attribute_present opts pos (n : namespace) k :
  same_attributes opts pos n -> is_Some (defaults opts pos !! k) ->
  exists v, n !! k = Some v.
Proof. intros H Hk. by apply H. Qed.

Lemma attribute_absent opts pos (n : namespace) k :
  same_attributes opts pos n -> defaults opts pos !! k = None -> n !! k = None.
Proof.
  intros H Hk. destruct (n !! k) eqn:E; [|done].
  assert (is_Some (defaults opts pos !! k)) as [? ?] by (apply H; by rewrite E).
  congruence.
Qed.

(** Decides a closed proposition by evaluation. *)
Ltac by_computation := apply (bool_decide_unpack _); by vm_compute.

Lemma plain_empty prog args ns' ex :
  parse_known_args (plain prog) args = Ok (ns', ex) -> ns' = ∅.
Proof.
  intros H. apply leaf_attributes in H; [|by_computation..].
  apply map_empty. intros k. by eapply attribute_absent.
Qed.

Lemma command_attribute (subns : namespace) name :
  subns !! "command" = None ->
  getattr (subns ∪ <["command" := AStr name]>
             (defaults [help] (SubParsers "command" true subparsers)))
          "command" = Ok (AStr name).
Proof.
  intros H. rewrite getattr_union_r by done. unfold getattr.
  by rewrite lookup_insert_eq.
Qed.

(** Reads an attribute that the sub-parser of [H] always sets. *)
Ltac read_attribute H k :=
  let v := fresh "v" in
  let Hv := fresh "Hv" in
  destruct (attribute_present _ _ _ k H) as [v Hv]; [by_computation|];
  rewrite (getattr_union_l _ _ k v Hv); cbn [mbind result_bind].

(** The case of a sub-parser with arguments or options of its own. *)
Ltac leaf_case H :=
  apply leaf_attributes in H; [|by_computation..];
  unfold dispatch;
  rewrite command_attribute by (eapply attribute_absent; [exact H|by vm_compute]);
  cbn [mbind result_bind]; simpl.

(** The case of a sub-parser with nothing but [-h]. *)
Ltac plain_case H :=
  apply plain_empty in H as ->;
  eexists; split_and!; [vm_compute; reflexivity|reflexivity|done|done].

Ltac found := eexists; split_and!; [reflexivity|reflexivity|done|done].

(** Every successful parse has a verb as its first argument and is followed
    by the call of exactly one routine, the one of that verb; [venv] and
    [env] are then followed by one of their sub-verbs. *)
Lemma successful_parse_one_routine main_args sub_args args :
  parse_args parser main_args = Ok args ->
  exists verb rest,
    main_args = verb :: rest /\ verb ∈ verbs /\
    exists c,
      dispatch args sub_args = Ok [c] /\ routine_verb c = verb /\
      (verb = "venv" ->
         exists s r, rest = s :: r /\ s ∈ ["create"; "remove"] /\
                     c = manage_venv (AStr s)) /\
      (verb = "env" -> exists r vars, rest = "set" :: r /\ c = manage_env vars).
Proof.
  unfold parse_args.
  destruct (parse_known_args parser main_args) as [[ns' ex]|] eqn:Hp; [|done].
  cbn [mbind result_bind]. destruct ex eqn:Eex; [|done]. intros [= <-].
  unfold parser in Hp. cbn [parse_known_args] in Hp.
  apply dispatching_parser_success in Hp
    as (name & args' & subns & top & subex & -> & Hname & Hsub & -> & Hex).
  symmetry in Hex. apply app_eq_nil in Hex as [-> ->].
  exists name, args'. split; [done|]. split; [done|].
  rewrite select_find in Hsub.
  change (names subparsers) with verbs in Hname. vm_compute in Hname.
  repeat (apply elem_of_cons in Hname as [->|Hname]);
    [..|by apply elem_of_nil in Hname];
    match type of Hsub with
    | context [find_parser subparsers ?n] =>
        let p := eval vm_compute in (find_parser subparsers n) in
        change (find_parser subparsers n) with p in Hsub
    end;
    cbn [fmap option_fmap option_map] in Hsub; injection Hsub as Hsub;
    try (plain_case Hsub).
  - (* new *)
    leaf_case Hsub. read_attribute Hsub "project_name".
    read_attribute Hsub "template". found.
  - (* add *)
    leaf_case Hsub. read_attribute Hsub "module_name". found.
  - (* venv *)
    cbn [parse_known_args] in Hsub.
    apply dispatching_parser_success in Hsub
      as (name & args2 & subns2 & top2 & subex2 & -> & Hname & Hsub & -> & Hex).
    symmetry in Hex. apply app_eq_nil in Hex as [-> ->].
    simpl in Hname, Hsub.
    assert (Hin : name ∈ ["create"; "remove"]) by done.
    repeat (apply elem_of_cons in Hname as [->|Hname]);
      [..|by apply elem_of_nil in Hname];
      simpl in Hsub; injection Hsub as Hsub;
      apply plain_empty in Hsub as ->;
      (eexists; split_and!; [vm_compute; reflexivity|reflexivity| |done]);
      intros _; by eexists _, _.
  - (* bump *)
    leaf_case Hsub. read_attribute Hsub "part". found.
  - (* update *)
    leaf_case Hsub. read_attribute Hsub "upgrade". found.
  - (* env *)
    cbn [parse_known_args] in Hsub.
    apply dispatching_parser_success in Hsub
      as (name & args2 & subns2 & top2 & subex2 & -> & Hname & Hsub & -> & Hex).
    symmetry in Hex. apply app_eq_nil in Hex as [-> ->].
    simpl in Hname, Hsub.
    apply list_elem_of_singleton in Hname as ->.
    simpl in Hsub. injection Hsub as Hsub.
    apply leaf_attributes in Hsub; [|by_computation..].
    assert (Hc : subns2 !! "command" = None)
      by (eapply attribute_absent; [exact Hsub|by vm_compute]).
    assert (He : subns2 !! "env_command" = None)
      by (eapply attribute_absent; [exact Hsub|by vm_compute]).
    destruct (attribute_present _ _ _ "vars" Hsub) as [v Hv]; [by_computation|].
    unfold dispatch. rewrite command_attribute.
    2:{ rewrite lookup_union_r by done. by vm_compute. }
    cbn [mbind result_bind]. simpl.
    rewrite (getattr_union_l _ _ "env_command" (AStr "set")).
    2:{ rewrite lookup_union_r by done. by vm_compute. }
    cbn [mbind result_bind]. simpl.
    rewrite (getattr_union_l _ _ "vars" v).
    2:{ by apply lookup_union_Some_l. }
    eexists. split_and!; [reflexivity|reflexivity|done|].
    intros _. by eexists _, _.
Qed.

End OneRoutine.

Section DispatchFacts.
Import Argparse Dispatcher.

(** One case split along the [if]/[elif] chain. *)
Ltac split_dispatch :=
  match goal with
  | |- (getattr ?a ?n ≫= _) = _ -> _ =>
      destruct (getattr a n) eqn:?; cbn [mbind result_bind]
  | |- (if eq_str ?c ?s then _ else _) = _ -> _ =>
      destruct (eq_str c s) eqn:?
  end.

(** A routine that takes pass-through tokens gets [sub_args] itself. *)
Lemma dispatch_forwards args sub_args calls c l :
  dispatch args sub_args = Ok calls -> c ∈ calls -> forwarded c = Some l ->
  l = sub_args.
Proof.
  unfold dispatch. repeat split_dispatch;
    intros [= <-] Hin Hf;
    first [ by apply elem_of_nil in Hin
          | apply list_elem_of_singleton in Hin as ->; simpl in Hf; congruence ].
Qed.

(** The chain invokes at most one routine. *)
Lemma dispatch_at_most_one args sub_args calls :
  dispatch args sub_args = Ok calls -> length calls <= 1.
Proof.
  unfold dispatch. repeat split_dispatch; intros [= <-]; simpl; lia.
Qed.

Lemma main_unfold argv :
  main_body argv =
    (args ← parse_args parser (prescan argv).1; dispatch args (prescan argv).2).
Proof. unfold main_body. by destruct (prescan argv). Qed.

Lemma main_returns argv calls :
  main argv = Returns calls <-> main_body argv = Ok calls.
Proof.
  unfold main, error_handling.
  destruct (main_body argv) as [?|[]]; split; congruence.
Qed.

Lemma main_exits argv e :
  main argv = Exits e <-> main_body argv = Raise (SystemExit e).
Proof.
  unfold main, error_handling.
  destruct (main_body argv) as [?|[]]; split; congruence.
Qed.

(** C4 (refuted as stated): in [add test -v] the token after the first
    pass-through command [test] is set aside, and the routine invoked,
    [install_module], does not receive it. *)
Lemma add_test_flag_not_forwarded :
  prescan ["add"; "test"; "-v"] = (["add"; "test"], ["-v"]) /\
  main ["add"; "test"; "-v"] = Returns [install_module (AStr "test")] /\
  ~ (exists c, main ["add"; "test"; "-v"] = Returns [c] /\ forwarded c = Some ["-v"]).
Proof.
  assert (H : main ["add"; "test"; "-v"] = Returns [install_module (AStr "test")])
    by (vm_compute; reflexivity).
  split_and!; [reflexivity|done|].
  intros (c & Hc & Hf). rewrite H in Hc. injection Hc as <-. done.
Qed.

(** C4 (amended): when the first argument is [run], [test] or [lint], only
    that argument is parsed, and the routine of that verb is invoked with
    all the arguments after it, verbatim; a run, test or lint routine that
    [main] invokes always receives exactly the tokens that the pre-scan set
    aside; in particular [lint --select E501 extra.py] hands
    [--select E501 extra.py] to the lint routine. *)
Theorem passthrough_forwarded (rest : list string) :
  (prescan ("run" :: rest) = (["run"], rest) /\
   main ("run" :: rest) = Returns [start_project rest]) /\
  (prescan ("test" :: rest) = (["test"], rest) /\
   main ("test" :: rest) = Returns [run_tests rest]) /\
  (prescan ("lint" :: rest) = (["lint"], rest) /\
   main ("lint" :: rest) = Returns [lint_project rest]) /\
  (forall argv calls c l,
     main argv = Returns calls -> c ∈ calls -> forwarded c = Some l ->
     l = (prescan argv).2) /\
  main ["lint"; "--select"; "E501"; "extra.py"] =
    Returns [lint_project ["--select"; "E501"; "extra.py"]].
Proof.
  split_and!; [vm_compute; reflexivity..| |vm_compute; reflexivity].
  intros argv calls c l. rewrite main_returns, main_unfold.
  destruct (parse_args parser (prescan argv).1) as [args|e]; simpl; [|done].
  apply dispatch_forwards.
Qed.

(** C5 (the code at the failing input): in [new test -t lib] the verb is
    [new], yet [-t lib] is set aside and never parsed, so the project is
    created from the default template; with a name that is not a
    pass-through command the flag is parsed. *)
Theorem new_test_template_set_aside :
  prescan ["new"; "test"; "-t"; "lib"] = (["new"; "test"], ["-t"; "lib"]) /\
  main ["new"; "test"; "-t"; "lib"] =
    Returns [create_project (AStr "test") (AStr "app")] /\
  main ["new"; "demo"; "-t"; "lib"] =
    Returns [create_project (AStr "demo") (AStr "lib")].
Proof. split_and!; vm_compute; reflexivity. Qed.

End DispatchFacts.

Section UsageErrors.
Import Argparse Dispatcher.

Lemma parse_optional_raises prog m arg e :
  parse_optional prog m arg = Raise e ->
  exists msg, e = SystemExit (UsageError prog msg).
Proof.
  unfold parse_optional, error. intros H.
  repeat case_match; simplify_eq; eauto.
Qed.

Lemma classify_raises prog m args e :
  classify prog m args = Raise e ->
  exists msg, e = SystemExit (UsageError prog msg).
Proof.
  induction args as [|arg args IH]; simpl; [done|].
  case_bool_decide; [done|].
  destruct (parse_optional prog m arg) as [t|e'] eqn:Ht; simpl.
  - destruct (classify prog m args) as [syms|e'']; simpl; [done|].
    intros [= <-]. by apply IH.
  - intros [= <-]. by eapply parse_optional_raises.
Qed.

(** A string that does not start with a dash is a positional argument. *)
Lemma parse_optional_plain prog m arg :
  PyStr.startswith "-" arg = false -> parse_optional prog m arg = Ok None.
Proof.
  destruct arg as [|c arg]; [done|]. simpl.
  rewrite andb_true_r. intros H.
  destruct (bool_decide (c = "-"%char)) eqn:Hc; [|done].
  apply bool_decide_eq_true in Hc as ->. done.
Qed.

(** The sub-parser action refuses a name that is not among its choices. *)
Lemma consume_unknown_choice prog dest req subs sub st name following :
  positional_seen st = false -> name ∉ names subs ->
  consume_positionals prog (SubParsers dest req subs) sub st
    ((name, SymA) :: following) = error prog (InvalidChoice dest name).
Proof.
  intros Hseen Hname. unfold consume_positionals. rewrite Hseen.
  rewrite fmap_cons. cbn [match_positional count_while is_dash drop snd].
  cbn [Nat.add take fmap list_fmap fst take_positional].
  by rewrite bool_decide_false.
Qed.

Lemma next_option_arg a following :
  next_option ((a, SymA) :: following) =
    match next_option following with
    | Some (before, o, after) => Some ((a, SymA) :: before, o, after)
    | None => None
    end.
Proof. done. Qed.

(** An unknown first argument is an invalid choice of the parser. *)
Lemma unknown_choice prog opts dest req subs sub name rest :
  name ∉ names subs -> PyStr.startswith "-" name = false ->
  exists msg,
    parse_known_args_with prog opts (SubParsers dest req subs) sub (name :: rest)
    = error prog msg.
Proof.
  intros Hname Hplain. unfold parse_known_args_with. cbn [classify].
  rewrite bool_decide_false by (intros ->; done).
  rewrite parse_optional_plain by done. cbn [mbind result_bind].
  destruct (classify prog (option_string_actions opts) rest) as [syms|e] eqn:Hc.
  - cbn [mbind result_bind zip zip_with]. exists (InvalidChoice dest name).
    simp loop. rewrite next_option_arg.
    destruct (next_option (zip rest syms)) as [[[before o] after]|].
    + unfold iteration. by rewrite consume_unknown_choice.
    + cbn [mbind result_bind]. unfold finish.
      by rewrite consume_unknown_choice.
  - apply classify_raises in Hc as [msg ->]. by exists msg.
Qed.

Lemma prescan_head verb rest :
  verb ∉ passthrough_commands ->
  exists rest', (prescan (verb :: rest)).1 = verb :: rest'.
Proof.
  intros H. unfold prescan. simpl. rewrite bool_decide_false by done.
  destruct (first_passthrough 1 rest) as [i|]; simpl; [|eauto].
  rewrite Nat.add_1_r. simpl. eauto.
Qed.

Lemma passthrough_verbs verb : verb ∈ passthrough_commands -> verb ∈ verbs.
Proof.
  intros H.
  repeat (apply elem_of_cons in H as [->|H];
          [apply (bool_decide_unpack _); by vm_compute|]).
  by apply elem_of_nil in H.
Qed.

Lemma main_one_routine argv calls :
  main argv = Returns calls ->
  exists verb rest c,
    (prescan argv).1 = verb :: rest /\ verb ∈ verbs /\
    calls = [c] /\ routine_verb c = verb /\
    (verb = "venv" ->
       exists s r, rest = s :: r /\ s ∈ ["create"; "remove"] /\
                   c = manage_venv (AStr s)) /\
    (verb = "env" -> exists r vars, rest = "set" :: r /\ c = manage_env vars).
Proof.
  rewrite main_returns, main_unfold.
  destruct (parse_args parser (prescan argv).1) as [args|] eqn:Hp; [|done].
  cbn [mbind result_bind]. intros Hd.
  destruct (successful_parse_one_routine _ (prescan argv).2 _ Hp)
    as (verb & rest & Hargs & Hverb & c & Hc & Hrest).
  rewrite Hd in Hc. injection Hc as ->. by exists verb, rest, c.
Qed.

End UsageErrors.

(* --------------------------------------------------------------------- *)
(** ** Further properties of the command dispatcher *)
(* --------------------------------------------------------------------- *)

(** Decides a closed proposition by evaluation. *)
Ltac decide_closed := apply (bool_decide_unpack _); by vm_compute.

(** *** Asking for help first *)

Section HelpFirst.
Import Argparse Dispatcher.

Local Abbreviation mh := (option_string_actions [help]).

(** With [-h] and [--help] as the only option strings no argument is
    ambiguous. *)
Lemma help_tuples_short b r :
  length (get_option_tuples mh (String "-" (String b r))) <= 1.
Proof.
  unfold get_option_tuples.
  destruct (second_is_dash (String "-" (String b r))) eqn:Hsd.
  - simpl in Hsd. destruct (Ascii.eqb_spec b "-"%char) as [->|Hb].
    2:{ exfalso. revert Hsd. clear -Hb.
        destruct b as [[] [] [] [] [] [] [] []]; try done. }
    assert (Hpre : exists p e,
              match split_eq (String "-" (String "-" r)) with
              | Some (l, r0) => (l, Some r0)
              | None => (String "-" (String "-" r), None)
              end = (String "-" (String "-" p), e)).
    { simpl. destruct (split_eq r) as [[l r0]|]; eauto. }
    destruct Hpre as (p & e & ->). simpl.
    destruct (PyStr.startswith p "help"); simpl; lia.
  - simpl. destruct (bool_decide (b = "-"%char)) eqn:Hb.
    { apply bool_decide_eq_true in Hb as ->. done. }
    rewrite andb_false_l.
    rewrite (bool_decide_false ("--help" = String "-" (String b "")))
      by (intros [= ? ?]).
    repeat case_match; simpl; lia.
Qed.

Lemma parse_optional_help_total prog arg :
  exists t, parse_optional prog mh arg = Ok t.
Proof.
  unfold parse_optional.
  destruct arg as [|c arg]; [by eexists|].
  destruct (negb (bool_decide (c = "-"%char))) eqn:Hc; [by eexists|].
  apply negb_false_iff, bool_decide_eq_true in Hc as ->.
  destruct (lookup_action _ mh); [by eexists|].
  destruct arg as [|b r]; [by eexists|].
  change (String.length (String "-" (String b r)) =? 1)%nat with false.
  cbv iota.
  destruct (match split_eq (String "-" (String b r)) with
            | Some (l, r0) =>
                match lookup_action l mh with
                | Some a => Some (Some a, l, Some r0)
                | None => None
                end
            | None => None
            end); [by eexists|].
  pose proof (help_tuples_short b r) as Hlen.
  destruct (get_option_tuples mh (String "-" (String b r))) as [|t1 [|t2 ts]].
  - repeat case_match; by eexists.
  - by eexists.
  - simpl in Hlen. lia.
Qed.

Lemma classify_help_total prog args :
  exists pattern, classify prog mh args = Ok pattern.
Proof.
  induction args as [|arg args [syms IH]]; cbn [classify]; [by eexists|].
  case_bool_decide; [by eexists|].
  destruct (parse_optional_help_total prog arg) as [t ->].
  rewrite IH. cbn [mbind result_bind]. by eexists.
Qed.


Lemma prescan_cons_head verb rest :
  verb ∉ passthrough_commands ->
  (prescan (verb :: rest)).1 = verb :: (prescan rest).1.
Proof.
  intros H.
  destruct (first_cut rest) as [Hnone|(pre & tok & post & -> & Htok & Hpre)].
  - rewrite (prescan_none rest Hnone), (prescan_none (verb :: rest)); [done|].
    by constructor.
  - rewrite (prescan_split pre tok post Hpre Htok).
    change (verb :: pre ++ tok :: post) with ((verb :: pre) ++ tok :: post).
    rewrite (prescan_split (verb :: pre) tok post); [done| |done].
    by constructor.
Qed.

Lemma help_flag_first flag rest :
  lookup_action flag mh = Some Help -> flag ∉ passthrough_commands ->
  main_body (flag :: rest) = Raise (SystemExit (PrintHelp "pyinit")).
Proof.
  intros Hflag Hpass.
  rewrite main_unfold, (prescan_cons_head _ _ Hpass).
  set (args := (prescan rest).1).
  assert (Hparse : parse_known_args parser (flag :: args) =
                   Raise (SystemExit (PrintHelp "pyinit"))).
  { unfold parser. cbn [parse_known_args]. unfold parse_known_args_with.
    cbn [classify].
    assert (Hdash : flag <> "--") by (intros ->; done).
    rewrite (bool_decide_false _ Hdash).
    assert (Hopt : parse_optional "pyinit" mh flag = Ok (Some (Some Help, flag, None))).
    { unfold parse_optional. destruct flag as [|c f]; [done|].
      destruct (bool_decide (c = "-"%char)) eqn:Hc.
      - simpl negb. cbv iota. by rewrite Hflag.
      - exfalso. revert Hflag. simpl. repeat case_bool_decide; try done; congruence. }
    rewrite Hopt. cbn [mbind result_bind].
    destruct (classify_help_total "pyinit" args) as [syms ->].
    cbn [mbind result_bind zip zip_with].
    simp loop. cbn [next_option]. unfold iteration, consume_optional.
    cbn [following_args nargs app mbind result_bind take_all take_optional fst snd].
    done. }
  unfold parse_args. rewrite Hparse. done.
Qed.

(** X9: with [-h] or [--help] as the first argument, the body of [main]
    leaves through the [SystemExit] of the help action (help of [pyinit] on
    standard output, status 0), whatever follows: no later argument is validated and no routine is invoked. *)
Theorem help_flag_wins (rest : list string) :
  main_body ("-h" :: rest) = Raise (SystemExit (PrintHelp "pyinit")) /\
  main_body ("--help" :: rest) = Raise (SystemExit (PrintHelp "pyinit")) /\
  status (PrintHelp "pyinit") = 0%Z /\
  output (PrintHelp "pyinit") = [(Stdout, HelpText "pyinit")].
Proof.
  split_and!; [apply help_flag_first; [done|not_in_list]..|done|done].
Qed.

End HelpFirst.

(** *** Verbs that take no argument *)

Section PlainParsers.
Import Argparse Dispatcher.
Context (prog : string)
        (sub : string -> list string -> option (parsed (namespace * list string))).

Local Abbreviation mh := (option_string_actions [help]).

Lemma match_no_positional pattern : match_positional NoPositional pattern = None.
Proof.
  unfold match_positional.
  by destruct (drop (count_while is_dash pattern) pattern) as [|[]].
Qed.

Lemma consume_no_positional st items :
  consume_positionals prog NoPositional sub st items = Ok (st, 0).
Proof.
  unfold consume_positionals. destruct (positional_seen st); [done|].
  by rewrite match_no_positional.
Qed.

Lemma consume_unknown_option st arg t after st' k :
  from_table mh (SymO t) ->
  consume_optional prog mh st arg t after = Ok (st', k) ->
  st' = add_extras [arg] st /\ k = 0.
Proof.
  intros Ht. destruct t as [[[a|] os] ex].
  - apply (help_table a) in Ht as ->. by intros ?%consume_help.
  - simpl. by intros [= <- <-].
Qed.

(** A parser with nothing but [-h] accepts no argument: whatever it is
    given comes back as extras. *)
Lemma plain_extras args ns' extras' :
  parse_known_args_with prog [help] NoPositional sub args = Ok (ns', extras') ->
  extras' = args.
Proof.
  unfold parse_known_args_with.
  destruct (classify prog mh args) as [pattern|] eqn:Hc; [|done].
  cbn [mbind result_bind].
  set (st0 := {| ns := defaults [help] NoPositional; extras := [];
                 unrecognized := []; positional_seen := false |}).
  destruct (loop prog mh NoPositional sub st0 (zip args pattern))
    as [[st1 rest1]|] eqn:Hl; [|done].
  cbn [mbind result_bind].
  destruct (finish prog NoPositional sub st1 rest1) as [st2|] eqn:Hf; [|done].
  cbn [mbind result_bind]. intros [= <- <-].
  pose (I := fun (st : state) (items : list item) =>
               Forall (fun it : item => from_table mh it.2) items /\
               unrecognized st = [] /\ args = extras st ++ items.*1).
  destruct (loop_ind prog mh NoPositional sub I) with (items := zip args pattern)
    (st := st0) (st' := st1) (rest := rest1) as [(Hall & Hun & Hargs) _]; [| |done|].
  - clear. intros st it following before o after st' passed (Hall & Hun & Hargs) Hnext Hit.
    pose proof (next_option_split _ _ _ _ Hnext) as Hsplit.
    assert (Ho : from_table mh (SymO o.2)).
    { rewrite Hsplit in Hall. apply Forall_app in Hall as [_ Hall].
      by apply Forall_cons in Hall as [Ho _]. }
    unfold iteration in Hit. destruct before as [|b before'].
    + simpl in Hsplit. injection Hsplit as -> ->.
      apply consume_unknown_option in Hit as [-> ->]; [|done].
      apply Forall_cons in Hall as [_ Hall]. split_and!; [done|done|].
      rewrite Hargs. simpl. by rewrite <- app_assoc.
    + rewrite consume_no_positional in Hit. cbn [mbind result_bind] in Hit.
      destruct (consume_optional prog mh _ o.1 o.2 after) as [[st3 k]|] eqn:Hopt;
        [|done].
      cbn [mbind result_bind] in Hit. injection Hit as <- <-.
      apply consume_unknown_option in Hopt as [-> ->]; [|done].
      simpl in Hsplit. injection Hsplit as -> ->.
      replace (length before' + 1 + 0) with (length (before' ++ [(o.1, SymO o.2)]))
        by (rewrite length_app; simpl; lia).
      rewrite (cons_middle _ before' after), app_assoc, drop_app_length.
      split_and!.
      * apply Forall_cons in Hall as [_ Hall].
        by apply Forall_app in Hall as [_ [_ Hall]%Forall_cons].
      * done.
      * rewrite Hargs. simpl.
        rewrite !fmap_app, !fmap_cons, <- !app_assoc. simpl. done.
  - split_and!; [|done|].
    + apply zip_from_table. by apply (classify_from_table prog mh args).
    + simpl. rewrite fst_zip; [done|].
      by rewrite (classify_length prog mh args pattern).
  - unfold finish in Hf. rewrite consume_no_positional in Hf.
    cbn [mbind result_bind required] in Hf. injection Hf as <-. simpl.
    by rewrite Hun, app_nil_r, Hargs.
Qed.

End PlainParsers.

(** *** How parsing can end *)

Section Raises.
Import Argparse.
Context (prog : string) (m : list (string * opt_action)) (pos : positional)
        (sub : string -> list string -> option (parsed (namespace * list string))).

Lemma loop_raises (P : stop -> Prop) :
  (forall st it following before o after e,
     iteration prog m pos sub st it following before o after = Raise e -> P e) ->
  forall items st e, loop prog m pos sub st items = Raise e -> P e.
Proof.
  intros Hstep items.
  remember (length items) as n eqn:Hn.
  assert (Hle : length items <= n) by lia. clear Hn. revert items Hle.
  induction n as [|n IH]; intros items Hle st e.
  - destruct items; [|simpl in Hle; lia]. by simp loop.
  - destruct items as [|it following]; [by simp loop|].
    simp loop.
    destruct (next_option (it :: following)) as [[[before o] after]|]; [|done].
    destruct (iteration prog m pos sub st it following before o after)
      as [[st1 passed]|e1] eqn:Hit.
    + apply IH. rewrite length_drop. simpl in Hle. lia.
    + intros [= <-]. by eapply Hstep.
Qed.

Lemma error_exits {A} p msg e : @error A p msg = Raise e -> exits e.
Proof. intros [= <-]. by eexists. Qed.

Lemma check_value_exits argument choices v e :
  check_value prog argument choices v = Raise e -> exits e.
Proof.
  unfold check_value. destruct choices; [|done].
  case_bool_decide; [done|]. apply error_exits.
Qed.

Lemma check_values_exits argument choices vs e :
  check_values prog argument choices vs = Raise e -> exits e.
Proof.
  induction vs as [|v vs IH]; simpl; [done|].
  destruct (check_value prog argument choices v) eqn:Hv; simpl; [done|].
  intros [= <-]. by eapply check_value_exits.
Qed.

Lemma get_values_single_exits argument choices arg_strings e :
  get_values_single prog argument choices arg_strings = Raise e -> exits e.
Proof.
  unfold get_values_single.
  destruct (remove_first "--" arg_strings) as [|v [|v' vs]].
  - done.
  - destruct (check_value prog argument choices v) eqn:Hv; simpl; [done|].
    intros [= <-]. by eapply check_value_exits.
  - destruct (check_values prog argument choices (v :: v' :: vs)) eqn:Hv;
      cbn [mbind result_bind]; [done|].
    intros [= <-]. by eapply check_values_exits.
Qed.

Lemma take_optional_exits a arg_strings st e :
  take_optional prog a arg_strings st = Raise e -> exits e.
Proof.
  destruct a as [|d|d v]; simpl.
  - intros [= <-]. by eexists.
  - done.
  - destruct (get_values_single prog d None arg_strings) eqn:Hv; simpl; [done|].
    intros [= <-]. by eapply get_values_single_exits.
Qed.

Lemma take_all_exits tuples st e :
  take_all prog tuples st = Raise e -> exits e.
Proof.
  revert st. induction tuples as [|[[a args] os] tuples IH]; intros st; simpl; [done|].
  destruct (take_optional prog a args st) as [st1|e1] eqn:H1; simpl.
  - apply IH.
  - intros [= <-]. by eapply take_optional_exits.
Qed.

Lemma following_args_exits action os following tuples e :
  following_args prog action os following tuples = Raise e -> exits e.
Proof.
  unfold following_args. repeat case_match; try done; apply error_exits.
Qed.

Lemma explicit_args_exits action os ex following tuples e :
  explicit_args prog m action os ex following tuples = Raise e -> exits e.
Proof.
  revert action os tuples.
  induction ex as [|c ex IH]; intros action os tuples; simpl.
  - destruct (nargs action); [|done]. rewrite andb_false_r. apply error_exits.
  - destruct (nargs action); [|done].
    destruct (negb (second_is_dash os)); simpl; [|apply error_exits].
    destruct (lookup_action _ m) as [action'|]; [|apply error_exits].
    destruct ex as [|c' ex'].
    + apply following_args_exits.
    + apply IH.
Qed.

Lemma consume_optional_exits st arg t following e :
  consume_optional prog m st arg t following = Raise e -> exits e.
Proof.
  unfold consume_optional. destruct t as [[[a|] os] ex]; [|done].
  destruct (match ex with
            | Some e0 => explicit_args prog m a os e0 following []
            | None => following_args prog a os following []
            end) as [[tuples n]|e1] eqn:Ht; cbn [mbind result_bind].
  - destruct (take_all prog tuples st) as [st1|e1] eqn:Ha; simpl; [done|].
    intros [= <-]. by eapply take_all_exits.
  - intros [= <-]. destruct ex.
    + by eapply explicit_args_exits.
    + by eapply following_args_exits.
Qed.

Lemma match_positional_bounds pattern n :
  match_positional pos pattern = Some n -> 1 <= n.
Proof.
  unfold match_positional.
  destruct (drop (count_while is_dash pattern) pattern) as [|[] after]; try done.
  destruct pos; try done; intros [= <-]; lia.
Qed.

Lemma match_positional_ahead pattern n :
  match_positional pos pattern = Some n -> pattern <> [].
Proof.
  unfold match_positional. intros H ->. by rewrite drop_nil in H.
Qed.

Hypothesis sub_exits :
  forall name args e, sub name args = Some (Raise e) -> exits e.

Lemma take_positional_exits arg_strings st e :
  arg_strings <> [] ->
  take_positional prog pos sub arg_strings st = Raise e -> exits e.
Proof.
  intros Hne. destruct pos as [|d mv ch|d mv|d req subs]; simpl; try done.
  - destruct (get_values_single prog _ ch arg_strings) eqn:Hv; simpl; [done|].
    intros [= <-]. by eapply get_values_single_exits.
  - destruct arg_strings as [|name rest]; [done|].
    case_bool_decide; [|apply error_exits].
    destruct (sub name rest) as [[[subns ex]|e1]|] eqn:Hs; simpl.
    + done.
    + intros [= <-]. by eapply sub_exits.
    + apply error_exits.
Qed.

Lemma consume_positionals_exits st rest e :
  consume_positionals prog pos sub st rest = Raise e -> exits e.
Proof.
  unfold consume_positionals. destruct (positional_seen st); [done|].
  destruct (match_positional pos rest.*2) as [n|] eqn:Hm; [|done].
  destruct (take_positional prog pos sub (take n rest).*1 st) as [st1|e1] eqn:Ht;
    simpl; [done|].
  intros [= <-]. eapply take_positional_exits; [|exact Ht].
  pose proof (match_positional_bounds _ _ Hm) as Hn.
  pose proof (match_positional_ahead _ _ Hm) as Hp.
  destruct rest as [|it rest]; [done|]. destruct n; [lia|]. done.
Qed.

Lemma iteration_exits st it following before o after e :
  iteration prog m pos sub st it following before o after = Raise e -> exits e.
Proof.
  unfold iteration. destruct before as [|b before'].
  - apply consume_optional_exits.
  - destruct (consume_positionals prog pos sub st (it :: following))
      as [[st1 n]|e1] eqn:Hcp; cbn [mbind result_bind].
    + destruct n; [|done].
      destruct (consume_optional prog m _ o.1 o.2 after) as [[st3 k]|e1] eqn:Hopt;
        cbn [mbind result_bind]; [done|].
      intros [= <-]. by eapply consume_optional_exits.
    + intros [= <-]. by eapply consume_positionals_exits.
Qed.

Lemma finish_exits st rest e :
  finish prog pos sub st rest = Raise e -> exits e.
Proof.
  unfold finish.
  destruct (consume_positionals prog pos sub st rest) as [[st1 n]|e1] eqn:Hcp;
    cbn [mbind result_bind].
  - destruct (required pos); [|done].
    destruct (positional_seen _); [done|]. apply error_exits.
  - intros [= <-]. by eapply consume_positionals_exits.
Qed.

End Raises.

Section RaisesParser.
Import Argparse Dispatcher.

(** A parser leaves through [SystemExit] when its sub-parsers do. *)
Lemma parse_known_args_with_exits prog opts pos sub args e :
  (forall name a e', sub name a = Some (Raise e') -> exits e') ->
  parse_known_args_with prog opts pos sub args = Raise e -> exits e.
Proof.
  intros Hsub. unfold parse_known_args_with.
  destruct (classify prog (option_string_actions opts) args) as [pattern|e1] eqn:Hc;
    cbn [mbind result_bind].
  2:{ intros [= <-]. apply classify_raises in Hc as [msg ->]. by eexists. }
  destruct (loop prog (option_string_actions opts) pos sub _ (zip args pattern))
    as [[st1 rest1]|e1] eqn:Hl; cbn [mbind result_bind].
  2:{ intros [= <-]. eapply loop_raises; [|exact Hl].
      intros. by eapply iteration_exits. }
  destruct (finish prog pos sub st1 rest1) as [st2|e1] eqn:Hf;
    cbn [mbind result_bind]; [done|].
  intros [= <-]. by eapply finish_exits.
Qed.

Lemma leaf_exits prog opts pos args e :
  match pos with SubParsers _ _ _ => False | _ => True end ->
  parse_known_args (Parser prog opts pos) args = Raise e -> exits e.
Proof.
  intros Hpos. cbn [parse_known_args]. apply parse_known_args_with_exits.
  destruct pos; done.
Qed.

Lemma parser_exits args e : parse_known_args parser args = Raise e -> exits e.
Proof.
  unfold parser. cbn [parse_known_args]. apply parse_known_args_with_exits.
  intros name a e'. rewrite select_find.
  destruct (find_parser subparsers name) as [p|] eqn:Hp; [|done].
  simpl. intros [= Hr]. revert Hp. unfold subparsers. cbn [find_parser].
  repeat (case_bool_decide; [intros [= <-]; revert Hr|]); try done.
  all: try (apply leaf_exits; done).
  - unfold parser_venv. cbn [parse_known_args]. apply parse_known_args_with_exits.
    intros name' a' e''. cbn [select].
    repeat (case_bool_decide; [intros [= Hr']; revert Hr'; by apply leaf_exits|]).
    done.
  - unfold parser_env. cbn [parse_known_args]. apply parse_known_args_with_exits.
    intros name' a' e''. cbn [select].
    repeat (case_bool_decide; [intros [= Hr']; revert Hr'; by apply leaf_exits|]).
    done.
Qed.

(** X12: whatever the arguments, the body of [main] either calls exactly
    one routine and returns, or leaves through [SystemExit] raised by the
    parser; no other exception comes out of parsing and dispatching, so
    every attribute that the [if]/[elif] chain reads is defined by the
    parser that ran. *)
Theorem main_body_outcomes (argv : list string) :
  (exists c, main_body argv = Ok [c]) \/
  (exists x, main_body argv = Raise (SystemExit x)).
Proof.
  rewrite main_unfold.
  destruct (parse_args parser (prescan argv).1) as [args|e] eqn:Hp.
  - left. destruct (successful_parse_one_routine _ (prescan argv).2 _ Hp)
      as (verb & rest & _ & _ & c & Hc & _).
    exists c. done.
  - right. cbn [mbind result_bind]. 
    assert (He : exits e).
    { revert Hp. unfold parse_args.
      destruct (parse_known_args parser (prescan argv).1) as [[n ex]|e1] eqn:Hk;
        cbn [mbind result_bind].
      - destruct ex; [done|]. apply error_exits.
      - intros [= <-]. by eapply parser_exits. }
    destruct He as [x ->]. by exists x.
Qed.
End RaisesParser.

Section PlainVerbs.
Import Argparse Dispatcher.

Lemma prescan_head_nil rest : (prescan rest).1 = [] -> rest = [].
Proof.
  destruct (first_cut rest) as [Hnone|(pre & tok & post & -> & Htok & Hpre)].
  - by rewrite (prescan_none rest Hnone).
  - rewrite (prescan_split pre tok post Hpre Htok). simpl.
    by destruct pre.
Qed.

Lemma plain_verb_alone verb prog rest args :
  find_parser subparsers verb = Some (plain prog) ->
  parse_args parser (verb :: rest) = Ok args -> rest = [].
Proof.
  intros Hfind. unfold parse_args.
  destruct (parse_known_args parser (verb :: rest)) as [[ns' ex]|] eqn:Hp; [|done].
  cbn [mbind result_bind]. destruct ex eqn:Eex; [|done]. intros _.
  unfold parser in Hp. cbn [parse_known_args] in Hp.
  apply dispatching_parser_success in Hp
    as (name & args' & subns & top & subex & Hargs & Hname & Hsub & _ & Hex).
  symmetry in Hex. apply app_eq_nil in Hex as [-> ->].
  simpl in Hargs. injection Hargs as <- <-.
  rewrite select_find, Hfind in Hsub. simpl in Hsub. injection Hsub as Hsub.
  unfold plain in Hsub. cbn [parse_known_args] in Hsub.
  by apply plain_extras in Hsub.
Qed.

(** X10: a verb that declares no argument ([build], [init], [lock],
    [format], [graph], [clean], [scan], [dockerize], [add-hooks]) accepts
    none: the body of [main] returns, after calling the routine of the
    verb, exactly when nothing follows the verb. *)
Theorem plain_verbs_take_no_arguments verb c rest calls :
  (verb, c) ∈ plain_verbs ->
  main_body (verb :: rest) = Ok calls <-> rest = [] /\ calls = [c].
Proof.
  intros Hin.
  assert (Hfacts : (verb ∉ passthrough_commands) /\
                   find_parser subparsers verb = Some (plain ("pyinit " +:+ verb)) /\
                   main_body [verb] = Ok [c]).
  { unfold plain_verbs in Hin.
    repeat (apply elem_of_cons in Hin as [[= -> ->]|Hin];
            [split_and!; [not_in_list|reflexivity|vm_compute; reflexivity]|]).
    by apply elem_of_nil in Hin. }
  destruct Hfacts as (Hpass & Hfind & Hmain).
  split.
  - intros Hret.
    assert (rest = []) as ->.
    { rewrite main_unfold in Hret.
      rewrite (prescan_cons_head _ _ Hpass) in Hret.
      destruct (parse_args parser (verb :: (prescan rest).1)) as [args|] eqn:Hp;
        [|done].
      apply (plain_verb_alone _ _ _ _ Hfind) in Hp.
      by apply prescan_head_nil. }
    split; [done|]. congruence.
  - by intros [-> ->].
Qed.

Lemma plain_verbs_take_no_arguments_witness :
  main_body ["build"] = Ok [install_project].
Proof.
  apply (plain_verbs_take_no_arguments "build" install_project [] [install_project]).
  - apply list_elem_of_here.
  - split; reflexivity.
Defined.

(** X11: when the body of [main] returns, the first argument is a verb and exactly
    one routine was called, the one of that verb. *)
Theorem one_routine_per_run (argv : list string) (calls : list call) :
  main_body argv = Ok calls ->
  exists verb rest c,
    argv = verb :: rest /\ verb ∈ verbs /\ calls = [c] /\ routine_verb c = verb.
Proof.
  intros Hmain. apply main_returns in Hmain.
  destruct (main_one_routine _ _ Hmain)
    as (verb & rest' & c & Hargs & Hverb & -> & Hc & _).
  pose proof (prescan_app argv) as Happ. rewrite Hargs in Happ.
  exists verb, (rest' ++ (prescan argv).2), c. done.
Qed.

Lemma one_routine_per_run_witness :
  exists verb rest c,
    ["bump"; "minor"] = verb :: rest /\ verb ∈ verbs /\
    [bump_project_version (AStr "minor")] = [c] /\ routine_verb c = verb.
Proof.
  apply (one_routine_per_run ["bump"; "minor"]). vm_compute. reflexivity.
Defined.

End PlainVerbs.

(** *** Arguments that are plain words *)

Section PlainWords.
Import Argparse Dispatcher.
Context (prog : string) (m : list (string * opt_action)).

Lemma plain_not_dashes a : plain_word a -> a <> "--".
Proof. by intros H ->. Qed.

Lemma classify_cons_plain a rest :
  plain_word a ->
  classify prog m (a :: rest) = (syms ← classify prog m rest; Ok (SymA :: syms)).
Proof.
  intros Ha. cbn [classify].
  rewrite (bool_decide_false _ (plain_not_dashes a Ha)).
  by rewrite (parse_optional_plain prog m a Ha).
Qed.

Lemma classify_plain args :
  Forall plain_word args -> classify prog m args = Ok ((fun _ => SymA) <$> args).
Proof.
  induction 1 as [|a args Ha _ IH]; [done|].
  by rewrite (classify_cons_plain a args Ha), IH.
Qed.

Lemma classify_cons_option a t rest :
  a <> "--" -> parse_optional prog m a = Ok (Some t) ->
  classify prog m (a :: rest) = (syms ← classify prog m rest; Ok (SymO t :: syms)).
Proof.
  intros Ha Ht. cbn [classify]. by rewrite (bool_decide_false _ Ha), Ht.
Qed.

Lemma remove_first_plain args :
  Forall plain_word args -> remove_first "--" args = args.
Proof.
  induction 1 as [|a args Ha _ IH]; [done|]. simpl.
  rewrite (bool_decide_false _ (plain_not_dashes a Ha)). by rewrite IH.
Qed.

End PlainWords.

Section PlainArguments.
Import Argparse.
Context (prog : string) (opts : list optional)
        (sub : string -> list string -> option (parsed (namespace * list string))).

Local Abbreviation m := (option_string_actions opts).

Lemma next_option_plain (args : list string) :
  next_option (zip args ((fun _ => SymA) <$> args)) = None.
Proof.
  induction args as [|a args IH]; [done|].
  rewrite fmap_cons. cbn [zip_with next_option]. by rewrite IH.
Qed.

Lemma loop_no_option pos st items :
  next_option items = None -> loop prog m pos sub st items = Ok (st, items).
Proof.
  intros H. destruct items as [|it following]; simp loop; [done|]. by rewrite H.
Qed.

Lemma snd_zip_plain (args : list string) :
  (zip args ((fun _ => SymA) <$> args)).*2 = (fun _ => SymA) <$> args.
Proof. rewrite snd_zip; [done|]. by rewrite length_fmap. Qed.

Lemma fst_zip_plain (args : list string) :
  (zip args ((fun _ : string => SymA) <$> args)).*1 = args.
Proof. rewrite fst_zip; [done|]. by rewrite length_fmap. Qed.

Lemma count_plain (args : list string) :
  count_while is_arg_or_dash ((fun _ => SymA) <$> args) = length args.
Proof.
  induction args as [|a args IH]; [done|].
  rewrite fmap_cons. cbn [count_while is_arg_or_dash length]. by rewrite IH.
Qed.

(** One plain word for a parser with a single positional. *)
Lemma parse_single_plain dest metavar choices v :
  plain_word v ->
  parse_known_args_with prog opts (Single dest metavar choices) sub [v] =
    (_ ← check_value prog (display dest metavar) choices v;
     Ok (<[dest := AStr v]> (defaults opts (Single dest metavar choices)), [])).
Proof.
  intros Hv. unfold parse_known_args_with.
  rewrite (classify_plain _ _ [v]) by (by constructor).
  cbn [mbind result_bind fmap list_fmap zip zip_with].
  simp loop. cbn [next_option mbind result_bind].
  unfold finish, consume_positionals.
  cbn [positional_seen fmap list_fmap snd match_positional count_while is_dash drop
       Nat.add length take fst take_positional].
  unfold get_values_single. rewrite (remove_first_plain [v]) by (by constructor).
  by destruct (check_value prog (display dest metavar) choices v).
Qed.

(** Plain words for a parser whose positional takes one or more. *)
Lemma parse_one_or_more_plain dest metavar v vs :
  Forall plain_word (v :: vs) ->
  parse_known_args_with prog opts (OneOrMore dest metavar) sub (v :: vs) =
    Ok (<[dest := AList (v :: vs)]> (defaults opts (OneOrMore dest metavar)), []).
Proof.
  intros Hv. unfold parse_known_args_with.
  rewrite (classify_plain _ _ (v :: vs)) by done.
  cbn [mbind result_bind].
  rewrite loop_no_option by apply next_option_plain.
  cbn [mbind result_bind]. unfold finish, consume_positionals.
  cbn [positional_seen]. rewrite snd_zip_plain.
  cbn [fmap list_fmap match_positional count_while is_dash drop Nat.add].
  change (list_fmap string sym (fun _ => SymA) vs) with ((fun _ : string => SymA) <$> vs).
  rewrite count_plain.
  change (S (length vs)) with (length (v :: vs)).
  replace (length (v :: vs)) with (length (zip (v :: vs) ((fun _ => SymA) <$> v :: vs)))
    by (rewrite length_zip, length_fmap; lia).
  rewrite firstn_all.
  change (SymA :: ((fun _ : string => SymA) <$> vs))
    with ((fun _ : string => SymA) <$> v :: vs).
  rewrite fst_zip_plain.
  cbn [take_positional mbind result_bind required]. rewrite drop_all.
  rewrite remove_first_plain by done. done.
Qed.

End PlainArguments.

Section NewProject.
Import Argparse Dispatcher.

Local Abbreviation mnew :=
  (option_string_actions
     [help; (["-t"; "--template"], Store "template" (AStr "app"))]).

Lemma parse_new_default name :
  plain_word name ->
  parse_known_args parser_new [name] =
    Ok (<["project_name" := AStr name]>
          (defaults [help; (["-t"; "--template"], Store "template" (AStr "app"))]
                    (Single "project_name" (Some "PROJECT_NAME") None)), []).
Proof.
  intros Hn. unfold parser_new. cbn [parse_known_args]. unfold parse_known_args_with.
  rewrite (classify_plain _ _ [name]) by (by constructor).
  cbn [mbind result_bind fmap list_fmap zip zip_with].
  simp loop. cbn [next_option mbind result_bind].
  unfold finish, consume_positionals.
  cbn [positional_seen fmap list_fmap snd match_positional count_while is_dash drop
       Nat.add length take fst take_positional display default].
  unfold get_values_single. rewrite (remove_first_plain [name]) by (by constructor).
  cbn [check_value mbind result_bind].
  done.
Qed.

Lemma parse_new_template_after name flag t :
  plain_word name -> plain_word t -> flag ∈ ["-t"; "--template"] ->
  parse_known_args parser_new [name; flag; t] =
    Ok (<["template" := AStr t]>
          (<["project_name" := AStr name]>
             (defaults [help; (["-t"; "--template"], Store "template" (AStr "app"))]
                       (Single "project_name" (Some "PROJECT_NAME") None))), []).
Proof.
  intros Hn Ht Hflag. unfold parser_new. cbn [parse_known_args].
  unfold parse_known_args_with.
  rewrite (classify_cons_plain _ _ name) by done.
  assert (Hopt : flag <> "--" /\
            parse_optional "pyinit new" mnew flag =
              Ok (Some (Some (Store "template" (AStr "app")), flag, None))).
  { repeat (apply elem_of_cons in Hflag as [->|Hflag]; [by split|]).
    by apply elem_of_nil in Hflag. }
  destruct Hopt as [Hdash Hopt].
  rewrite (classify_cons_option _ _ flag _ [t] Hdash Hopt).
  rewrite (classify_plain _ _ [t]) by (by constructor).
  cbn [mbind result_bind fmap list_fmap zip zip_with].
  simp loop. cbn [next_option]. unfold iteration, consume_positionals.
  cbn [positional_seen fmap list_fmap snd match_positional count_while is_dash drop
       Nat.add length take fst take_positional display default].
  unfold get_values_single at 1. rewrite (remove_first_plain [name]) by (by constructor).
  cbn [check_value mbind result_bind drop].
  simp loop. cbn [next_option]. unfold iteration, consume_optional.
  cbn [following_args nargs app mbind result_bind take_all take_optional fst snd].
  unfold get_values_single. rewrite (remove_first_plain [t]) by (by constructor).
  cbn [check_value mbind result_bind drop]. simp loop.
  cbn [mbind result_bind]. unfold finish, consume_positionals.
  done.
Qed.

Lemma parse_new_template_before name flag t :
  plain_word name -> plain_word t -> flag ∈ ["-t"; "--template"] ->
  parse_known_args parser_new [flag; t; name] =
    Ok (<["project_name" := AStr name]>
          (<["template" := AStr t]>
             (defaults [help; (["-t"; "--template"], Store "template" (AStr "app"))]
                       (Single "project_name" (Some "PROJECT_NAME") None))), []).
Proof.
  intros Hn Ht Hflag. unfold parser_new. cbn [parse_known_args].
  unfold parse_known_args_with.
  assert (Hopt : flag <> "--" /\
            parse_optional "pyinit new" mnew flag =
              Ok (Some (Some (Store "template" (AStr "app")), flag, None))).
  { repeat (apply elem_of_cons in Hflag as [->|Hflag]; [by split|]).
    by apply elem_of_nil in Hflag. }
  destruct Hopt as [Hdash Hopt].
  rewrite (classify_cons_option _ _ flag _ [t; name] Hdash Hopt).
  rewrite (classify_plain _ _ [t; name]) by (by repeat constructor).
  cbn [mbind result_bind fmap list_fmap zip zip_with].
  simp loop. cbn [next_option]. unfold iteration, consume_optional.
  cbn [following_args nargs app mbind result_bind take_all take_optional fst snd].
  unfold get_values_single. rewrite (remove_first_plain [t]) by (by constructor).
  cbn [check_value mbind result_bind drop]. simp loop.
  cbn [next_option mbind result_bind]. unfold finish, consume_positionals.
  cbn [positional_seen setattr fmap list_fmap snd match_positional count_while is_dash
       drop Nat.add length take fst take_positional display default].
  unfold get_values_single. rewrite (remove_first_plain [name]) by (by constructor).
  cbn [check_value mbind result_bind].
  done.
Qed.
End NewProject.

(** *** The verb and its arguments *)

Section VerbFirst.
Import Argparse.
Context (prog dest : string) (subs : subparsers)
        (sub : string -> list string -> option (parsed (namespace * list string))).

Local Abbreviation mh := (option_string_actions [help]).
Local Abbreviation pos := (SubParsers dest true subs).
Local Abbreviation ns0 := (defaults [help] (SubParsers dest true subs)).

Lemma consume_all st name following :
  positional_seen st = false ->
  consume_positionals prog pos sub st ((name, SymA) :: following) =
    (st' ← take_positional prog pos sub (name :: following.*1) st;
     Ok (mark_seen st', S (length following))).
Proof.
  intros Hseen. unfold consume_positionals. rewrite Hseen.
  rewrite fmap_cons. cbn [match_positional count_while is_dash drop snd Nat.add].
  rewrite length_fmap.
  change (take (S (length following)) ((name, SymA) :: following))
    with ((name, SymA) :: take (length following) following).
  by rewrite firstn_all.
Qed.

Lemma dispatching_parser_verb name rest :
  PyStr.startswith "-" name = false ->
  parse_known_args_with prog [help] pos sub (name :: rest) =
    hand_over prog dest subs sub name rest.
Proof.
  intros Hname. unfold parse_known_args_with.
  cbn [classify].
  rewrite bool_decide_false by (intros ->; done).
  rewrite (parse_optional_plain prog mh name Hname). cbn [mbind result_bind].
  destruct (classify_help_total prog rest) as [syms Hc]. rewrite Hc.
  cbn [mbind result_bind zip zip_with].
  assert (Hfst : (zip rest syms).*1 = rest).
  { rewrite fst_zip; [done|]. by rewrite (classify_length prog mh rest syms Hc). }
  set (st0 := {| ns := ns0; extras := []; unrecognized := [];
                 positional_seen := false |}).
  assert (Htake : take_positional prog pos sub (name :: rest) st0 =
                  ('(n, ex) ← hand_over prog dest subs sub name rest;
                   Ok {| ns := n; extras := []; unrecognized := ex;
                         positional_seen := false |})).
  { unfold hand_over. cbn [take_positional]. case_bool_decide; [|done].
    destruct (sub name rest) as [[[subns ex]|e]|]; done. }
  simp loop. rewrite next_option_arg.
  destruct (next_option (zip rest syms)) as [[[before o] after]|] eqn:Hnext.
  - unfold iteration. rewrite consume_all by done. rewrite Hfst, Htake.
    destruct (hand_over prog dest subs sub name rest) as [[n ex]|e]; [|done].
    cbn [mbind result_bind]. rewrite drop_all. simp loop.
    cbn [mbind result_bind]. unfold finish, consume_positionals. simpl.
    by rewrite ?app_nil_r.
  - cbn [mbind result_bind]. unfold finish. rewrite consume_all by done.
    rewrite Hfst, Htake.
    destruct (hand_over prog dest subs sub name rest) as [[n ex]|e]; [|done].
    cbn [mbind result_bind drop]. rewrite drop_all. simpl. by rewrite ?app_nil_r.
Qed.

End VerbFirst.

Section VerbArguments.
Import Argparse Dispatcher.

Lemma prescan_last pre last :
  Forall (fun t => t ∉ passthrough_commands) pre ->
  prescan (pre ++ [last]) = (pre ++ [last], []).
Proof.
  intros Hpre. destruct (decide (last ∈ passthrough_commands)) as [Hl|Hl].
  - by apply prescan_split.
  - apply prescan_none. apply Forall_app. split; [done|]. by repeat constructor.
Qed.

Lemma parse_verb verb rest :
  PyStr.startswith "-" verb = false ->
  parse_known_args parser (verb :: rest) =
    hand_over "pyinit" "command" subparsers (select subparsers) verb rest.
Proof.
  intros H. unfold parser. cbn [parse_known_args].
  by apply dispatching_parser_verb.
Qed.


(** Evaluates the attribute reads of the dispatch chain on a namespace
    built from inserts and unions over closed maps. *)
Ltac read_namespace :=
  unfold getattr;
  repeat first
    [ rewrite lookup_union
    | rewrite lookup_insert_eq
    | rewrite lookup_insert_ne by (intros [=]) ];
  repeat match goal with
         | |- context [@lookup _ _ _ _ ?k ?d] =>
             let v := eval vm_compute in (d !! k) in
             progress change (d !! k) with v
         end;
  cbn [union option_union union_with option_union_with mbind result_bind].

Lemma select_verb name p rest :
  find_parser subparsers name = Some p ->
  select subparsers name rest = Some (parse_known_args p rest).
Proof. intros H. by rewrite select_find, H. Qed.

(** Runs [main] up to the parse of the sub-command [verb]. *)
Ltac enter_verb verb p :=
  rewrite main_unfold;
  match goal with
  | |- context [prescan ?l] =>
      let pre := eval cbv in (removelast l) in
      let x := eval cbv in (List.last l EmptyString) in
      change l with (pre ++ [x]);
      rewrite (prescan_last pre x) by (repeat constructor; (not_in_list || done))
  end;
  cbn [fst snd app]; unfold parse_args; rewrite parse_verb by done;
  unfold hand_over; rewrite bool_decide_true by decide_closed;
  rewrite (select_verb verb p) by reflexivity; cbv iota.

(** X13: [new NAME] creates the project from the default template [app],
    and [-t T] or [--template T], before or after the name, selects the
    template [T]; the name and the template are plain words, and the one
    that is followed by further arguments is not a pass-through command. *)
Theorem new_project_arguments (name t flag : string) :
  PyStr.startswith "-" name = false -> PyStr.startswith "-" t = false ->
  flag ∈ ["-t"; "--template"] ->
  main_body ["new"; name] = Ok [create_project (AStr name) (AStr "app")] /\
  (name ∉ passthrough_commands ->
     main_body ["new"; name; flag; t] = Ok [create_project (AStr name) (AStr t)]) /\
  (t ∉ passthrough_commands ->
     main_body ["new"; flag; t; name] = Ok [create_project (AStr name) (AStr t)]).
Proof.
  intros Hn Ht Hflag.
  assert (Hf : flag ∉ passthrough_commands).
  { intros Hp. repeat (apply elem_of_cons in Hflag as [->|Hflag]; [revert Hp; not_in_list|]).
    by apply elem_of_nil in Hflag. }
  split_and!.
  - enter_verb "new" parser_new.
    rewrite parse_new_default by done. cbn [mbind result_bind].
    unfold dispatch. read_namespace. done.
  - intros Hpn. enter_verb "new" parser_new.
    rewrite parse_new_template_after by done. cbn [mbind result_bind].
    unfold dispatch. read_namespace. done.
  - intros Hpt. enter_verb "new" parser_new.
    rewrite parse_new_template_before by done. cbn [mbind result_bind].
    unfold dispatch. read_namespace. done.
Qed.

Lemma new_project_arguments_witness :
  main_body ["new"; "demo"] = Ok [create_project (AStr "demo") (AStr "app")] /\
  ("demo" ∉ passthrough_commands ->
     main_body ["new"; "demo"; "-t"; "lib"] =
       Ok [create_project (AStr "demo") (AStr "lib")]) /\
  ("lib" ∉ passthrough_commands ->
     main_body ["new"; "-t"; "lib"; "demo"] =
       Ok [create_project (AStr "demo") (AStr "lib")]).
Proof.
  apply (new_project_arguments "demo" "lib" "-t");
    [reflexivity|reflexivity|apply list_elem_of_here].
Defined.

(** X14: [add NAME] hands the name, as it is, to [install_module]. *)
Theorem add_module_argument (name : string) :
  PyStr.startswith "-" name = false ->
  main_body ["add"; name] = Ok [install_module (AStr name)].
Proof.
  intros Hn. enter_verb "add" parser_add.
  unfold parser_add. cbn [parse_known_args].
  rewrite parse_single_plain by done. cbn [check_value mbind result_bind].
  unfold dispatch. read_namespace. done.
Qed.

Lemma add_module_argument_witness :
  main_body ["add"; "requests"] = Ok [install_module (AStr "requests")].
Proof. apply (add_module_argument "requests"). reflexivity. Defined.

(** X15: [bump PART] calls [bump_project_version] when the part is one of
    [major], [minor] and [patch]; any other word is an invalid choice,
    reported by the parser of [bump] as a usage error, and no routine is
    called. *)
Theorem bump_part_checked (part : string) :
  PyStr.startswith "-" part = false ->
  main_body ["bump"; part] =
    if bool_decide (part ∈ ["major"; "minor"; "patch"])
    then Ok [bump_project_version (AStr part)]
    else Raise (SystemExit (UsageError "pyinit bump" (InvalidChoice "part" part))).
Proof.
  intros Hp. rewrite main_unfold.
  change ["bump"; part] with (["bump"] ++ [part]).
  rewrite (prescan_last ["bump"] part) by (repeat constructor; not_in_list).
  cbn [fst snd app]. unfold parse_args. rewrite parse_verb by done.
  unfold hand_over. rewrite bool_decide_true by decide_closed.
  rewrite (select_verb "bump" parser_bump) by reflexivity. cbv iota.
  unfold parser_bump. cbn [parse_known_args].
  rewrite parse_single_plain by done. cbn [check_value display default].
  case_bool_decide; [|done]. cbn [mbind result_bind].
  unfold dispatch. read_namespace. done.
Qed.

Lemma bump_part_checked_witness :
  main_body ["bump"; "huge"] =
    Raise (SystemExit (UsageError "pyinit bump" (InvalidChoice "part" "huge"))).
Proof. apply (bump_part_checked "huge"). reflexivity. Defined.

(** X16: [env set] followed by one or more words, none of them a
    pass-through command, hands all of them, in order, to [manage_env]. *)
Theorem env_set_variables (v : string) (vs : list string) :
  Forall (fun a => PyStr.startswith "-" a = false) (v :: vs) ->
  Forall (fun a => a ∉ passthrough_commands) (v :: vs) ->
  main_body ("env" :: "set" :: v :: vs) = Ok [manage_env (AList (v :: vs))].
Proof.
  intros Hplain Hpass.
  rewrite main_unfold.
  rewrite prescan_none by (repeat (constructor; [not_in_list|]); done).
  cbn [fst snd]. unfold parse_args. rewrite parse_verb by done.
  unfold hand_over at 1. rewrite bool_decide_true by decide_closed.
  rewrite (select_verb "env" parser_env) by reflexivity. cbv iota.
  unfold parser_env. cbn [parse_known_args].
  rewrite dispatching_parser_verb by done.
  unfold hand_over. cbn [names]. rewrite bool_decide_true by apply list_elem_of_here.
  cbn [select]. rewrite bool_decide_true by done.
  unfold parser_env_set. cbn [parse_known_args].
  rewrite parse_one_or_more_plain by done. cbn [mbind result_bind].
  unfold dispatch. read_namespace. done.
Qed.

Lemma env_set_variables_witness :
  main_body ["env"; "set"; "A=1"; "B=2"] = Ok [manage_env (AList ["A=1"; "B=2"])].
Proof.
  apply (env_set_variables "A=1" ["B=2"]).
  - repeat constructor.
  - repeat (constructor; [not_in_list|]). constructor.
Defined.
End VerbArguments.

(** *** The values that reach the routines *)

Section Tidy.
Import Argparse.
Context (prog : string) (m : list (string * opt_action)).

Lemma classify_tidy args pattern :
  classify prog m args = Ok pattern -> tidy (zip args pattern).
Proof.
  revert pattern. induction args as [|arg args IH]; intros pattern; cbn [classify].
  - by intros [= <-].
  - case_bool_decide as Hd.
    + intros [= <-]. cbn [zip_with tidy]. split; [done|].
      clear. induction args as [|a args IH]; [constructor|].
      rewrite fmap_cons. cbn [zip_with]. by constructor.
    + destruct (parse_optional prog m arg) as [t|]; cbn [mbind result_bind]; [|done].
      destruct (classify prog m args) as [syms|]; cbn [mbind result_bind]; [|done].
      intros [= <-]. cbn [zip_with]. specialize (IH syms eq_refl).
      destruct t as [t|]; by split.
Qed.

(** Behind an option the arguments are tidy. *)
Lemma tidy_after_option before o t after :
  tidy (before ++ (o, SymO t) :: after) -> tidy after.
Proof.
  induction before as [|[a s] before IH]; cbn [app].
  - by intros [_ H].
  - destruct s as [t'| |].
    + intros [_ H]. by apply IH.
    + intros [_ H]. by apply IH.
    + intros [_ H]. apply Forall_app in H as [_ H].
      by apply Forall_cons in H as [H _].
Qed.

Lemma count_dash_args items :
  Forall (fun it : item => it.2 = SymA) items -> count_while is_dash items.*2 = 0.
Proof. destruct 1 as [|[a s] items Hs _]; [done|]. simpl in Hs. by subst s. Qed.

(** The strings that a positional with [nargs=None] is given hold one
    argument besides a ["--"]. *)
Lemma single_slice dest metavar choices items n :
  tidy items ->
  match_positional (Single dest metavar choices) items.*2 = Some n ->
  exists s, remove_first "--" (take n items).*1 = [s].
Proof.
  intros Htidy. unfold match_positional.
  destruct items as [|[a s] items]; [done|]. rewrite fmap_cons. cbn [snd].
  destruct s as [t| |]; cbn [count_while is_dash drop].
  - done.
  - destruct Htidy as [Ha Htidy]. intros [= <-]. cbn [Nat.add].
    destruct items as [|[b s] items].
    + exists a. simpl. by rewrite bool_decide_false.
    + rewrite fmap_cons. cbn [snd count_while].
      destruct s as [t| |]; cbn [is_dash take fmap list_fmap fst].
      * exists a. simpl. by rewrite bool_decide_false.
      * exists a. simpl. by rewrite bool_decide_false.
      * destruct Htidy as [-> Hargs]. rewrite (count_dash_args items Hargs).
        exists a. simpl. rewrite bool_decide_false by done. done.
  - destruct Htidy as [-> Hargs].
    destruct Hargs as [|[b s] items Hs Hargs]; [done|]. simpl in Hs. subst s.
    rewrite fmap_cons. cbn [snd count_while is_dash drop].
    intros [= <-]. rewrite (count_dash_args items Hargs).
    exists b. done.
Qed.

(** A positional with [nargs="+"] is given at least one argument besides
    a ["--"]. *)
Lemma one_or_more_slice dest metavar items n :
  tidy items ->
  match_positional (OneOrMore dest metavar) items.*2 = Some n ->
  exists x xs, remove_first "--" (take n items).*1 = x :: xs.
Proof.
  intros Htidy. unfold match_positional.
  destruct items as [|[a s] items]; [done|]. rewrite fmap_cons. cbn [snd].
  destruct s as [t| |]; cbn [count_while is_dash drop].
  - done.
  - destruct Htidy as [Ha Htidy]. intros [= <-]. cbn [Nat.add take fmap list_fmap fst].
    eexists a, _. cbn [remove_first]. by rewrite bool_decide_false.
  - destruct Htidy as [-> Hargs].
    destruct Hargs as [|[b s] items Hs Hargs]; [done|]. simpl in Hs. subst s.
    rewrite fmap_cons. cbn [snd count_while is_dash drop].
    intros [= <-]. by eexists b, _.
Qed.

End Tidy.

Lemma setattr_typed opts pos d v st :
  parsed_value (Argparse.option_string_actions opts) pos d v -> typed opts pos st -> typed opts pos (Argparse.setattr d v st).
Proof.
  intros Hv [Hall Hseen]. split.
  - intros k v'. cbn [Argparse.setattr Argparse.ns]. destruct (decide (d = k)) as [->|Hne].
    + rewrite lookup_insert_eq. intros [= <-]. by left.
    + rewrite lookup_insert_ne by done. apply Hall.
  - cbn [Argparse.setattr Argparse.positional_seen Argparse.ns]. intros Hs. specialize (Hseen Hs).
    destruct (pos_dest pos) as [dp|]; [|done].
    destruct (decide (d = dp)) as [->|Hne].
    + exists v. by rewrite lookup_insert_eq.
    + by rewrite lookup_insert_ne.
Qed.


Section TypedPositional.
Import Argparse.

Lemma consume_positionals_typed prog opts pos sub st items st' n :
  match pos with SubParsers _ _ _ => False | _ => True end ->
  typed opts pos st -> (positional_seen st = false -> tidy items) ->
  consume_positionals prog pos sub st items = Ok (st', n) ->
  typed opts pos st' /\
  (n = 0 /\ st' = st \/ positional_seen st' = true).
Proof.
  intros Hleaf Hst Htidy. unfold consume_positionals.
  destruct (positional_seen st) eqn:Hseen; [intros [= <- <-]; split; [done|by left]|].
  specialize (Htidy eq_refl).
  destruct (match_positional pos (items.*2)) as [k|] eqn:Hk;
    [|intros [= <- <-]; split; [done|by left]].
  destruct (take_positional prog pos sub (take k items).*1 st) as [st1|] eqn:Ht;
    simpl; [|done].
  intros [= <- <-]. split; [|by right].
  assert (Hmark : forall s, typed opts pos s ->
            match pos_dest pos with
            | Some d => exists v, ns s !! d = Some v /\ parsed_value (option_string_actions opts) pos d v
            | None => True
            end -> typed opts pos (mark_seen s)).
  { intros s [Hall _] Hd. by split. }
  destruct pos as [|d mv ch|d mv|]; [| | |done]; cbn [take_positional] in Ht.
  - unfold match_positional in Hk.
    by destruct (drop (count_while is_dash items.*2) items.*2) as [|[]].
  - destruct (single_slice d mv ch items k Htidy Hk) as [s Hs].
    unfold get_values_single in Ht. rewrite Hs in Ht.
    destruct (check_value prog (display d mv) ch s) eqn:Hc; simpl in Ht; [|done].
    injection Ht as <-.
    assert (Hv : parsed_value (option_string_actions opts) (Single d mv ch) d (AStr s)).
    { right. split; [done|]. exists s. split; [done|].
      unfold check_value in Hc. destruct ch as [cs|]; [|done].
      by case_bool_decide. }
    apply Hmark.
    + by apply setattr_typed.
    + cbn [pos_dest setattr ns]. exists (AStr s). by rewrite lookup_insert_eq.
  - destruct (one_or_more_slice d mv items k Htidy Hk) as (x & xs & Hs).
    rewrite Hs in Ht. injection Ht as <-.
    assert (Hv : parsed_value (option_string_actions opts) (OneOrMore d mv) d (AList (x :: xs))).
    { right. split; [done|]. by exists x, xs. }
    apply Hmark.
    + by apply setattr_typed.
    + cbn [pos_dest setattr ns]. exists (AList (x :: xs)). by rewrite lookup_insert_eq.
Qed.

Lemma finish_seen prog pos sub st rest st2 :
  match pos with SubParsers _ _ _ => False | _ => True end ->
  finish prog pos sub st rest = Ok st2 ->
  exists st1 n,
    consume_positionals prog pos sub st rest = Ok (st1, n) /\
    ns st2 = ns st1 /\
    (pos_dest pos <> None -> positional_seen st1 = true).
Proof.
  intros Hleaf. unfold finish.
  destruct (consume_positionals prog pos sub st rest) as [[st1 n]|]; [|done].
  cbn [mbind result_bind]. intros Hf. exists st1, n. split; [done|].
  destruct pos as [|d mv ch|d mv|]; [| | |done]; cbn [required] in Hf.
  - injection Hf as <-. done.
  - cbn [add_extras positional_seen] in Hf.
    destruct (positional_seen st1); [|done]. by injection Hf as <-.
  - cbn [add_extras positional_seen] in Hf.
    destruct (positional_seen st1); [|done]. by injection Hf as <-.
Qed.

End TypedPositional.

Lemma zip_Forall_snd {A B} (P : B -> Prop) (l : list A) (k : list B) :
  Forall P k -> Forall (fun it : A * B => P it.2) (zip l k).
Proof.
  intros H. revert l.
  induction H as [|s k Hs _ IH]; intros [|a l]; simpl; constructor; [done|apply IH].
Qed.

Section TypedParsers.
Import Argparse.
Context (prog : string) (opts : list optional) (pos : positional)
        (sub : string -> list string -> option (parsed (namespace * list string))).

Local Abbreviation m := (option_string_actions opts).

Hypothesis Hleaf : match pos with SubParsers _ _ _ => False | _ => True end.

Lemma following_args_ok action os following tuples r n :
  action ∈ m.*2 -> Forall (tuple_ok opts) tuples ->
  following_args prog action os following tuples = Ok (r, n) ->
  Forall (tuple_ok opts) r /\
  (n = 0 \/ n = 1 /\ exists a after, following = (a, SymA) :: after).
Proof.
  intros Ha Ht. unfold following_args.
  destruct (nargs action) eqn:Hn.
  - intros [= <- <-]. split; [|by left].
    apply Forall_app. split; [done|]. repeat constructor; [done|].
    simpl. by rewrite Hn.
  - destruct following as [|[a []] after]; try done.
    intros [= <- <-]. split; [|right; eauto].
    apply Forall_app. split; [done|]. repeat constructor; [done|].
    simpl. eauto.
Qed.

Lemma explicit_args_ok action os ex following tuples r n :
  action ∈ m.*2 -> Forall (tuple_ok opts) tuples ->
  explicit_args prog m action os ex following tuples = Ok (r, n) ->
  Forall (tuple_ok opts) r /\
  (n = 0 \/ n = 1 /\ exists a after, following = (a, SymA) :: after).
Proof.
  revert action os tuples.
  induction ex as [|c ex IH]; intros action os tuples Ha Ht; simpl.
  - destruct (nargs action) eqn:Hn.
    + rewrite andb_false_r. done.
    + intros [= <- <-]. split; [|by left].
      apply Forall_app. split; [done|]. repeat constructor; [done|]. simpl. eauto.
  - destruct (nargs action) eqn:Hn.
    2:{ intros [= <- <-]. split; [|by left].
        apply Forall_app. split; [done|]. repeat constructor; [done|]. simpl. eauto. }
    destruct (negb (second_is_dash os)); simpl; [|done].
    destruct (lookup_action _ m) as [action'|] eqn:Hl; [|done].
    assert (Forall (tuple_ok opts) (tuples ++ [(action, [], os)])).
    { apply Forall_app. split; [done|]. repeat constructor; [done|].
      simpl. by rewrite Hn. }
    apply lookup_action_elem in Hl.
    destruct ex as [|c' ex'].
    + by apply following_args_ok.
    + by apply IH.
Qed.

Lemma take_optional_typed a args st st' :
  tuple_ok opts (a, args, EmptyString) -> typed opts pos st ->
  take_optional prog a args st = Ok st' ->
  typed opts pos st' /\ positional_seen st' = positional_seen st.
Proof.
  intros [Ha Hargs] Hst. simpl in Ha, Hargs. destruct a as [|d|d dv]; simpl; [done| |].
  - intros [= <-]. split; [|done]. apply setattr_typed; [|done].
    left. by exists (StoreTrue d).
  - destruct (Hargs eq_refl) as [x ->]. unfold get_values_single.
    cbn [remove_first]. case_bool_decide; simpl; intros [= <-]; (split; [|done]);
      (apply setattr_typed; [|done]); left; exists (Store d dv); (split; [done|]);
      simpl; split; eauto.
Qed.

Lemma take_all_typed tuples st st' :
  Forall (tuple_ok opts) tuples -> typed opts pos st ->
  take_all prog tuples st = Ok st' ->
  typed opts pos st' /\ positional_seen st' = positional_seen st.
Proof.
  intros Ht. revert st. induction Ht as [|[[a args] os] tuples Ha _ IH]; intros st Hst.
  - by intros [= <-].
  - simpl. destruct (take_optional prog a args st) as [st1|] eqn:H1; simpl; [|done].
    apply take_optional_typed in H1 as [Ht1 Hs1]; [|done..].
    intros H. apply IH in H as [? ?]; [|done]. split; [done|congruence].
Qed.

Lemma consume_optional_typed st arg t after st' k :
  from_table m (SymO t) -> typed opts pos st ->
  consume_optional prog m st arg t after = Ok (st', k) ->
  typed opts pos st' /\ positional_seen st' = positional_seen st /\
  (k = 0 \/ k = 1 /\ exists a after', after = (a, SymA) :: after').
Proof.
  intros Ht Hst. destruct t as [[[a|] os] ex]; simpl.
  2:{ intros [= <- <-]. split_and!; [done|done|by left]. }
  simpl in Ht.
  destruct (match ex with
            | Some e => explicit_args prog m a os e after []
            | None => following_args prog a os after []
            end) as [[tuples n]|] eqn:Htup; simpl; [|done].
  destruct (take_all prog tuples st) as [st1|] eqn:Hall; simpl; [|done].
  intros [= <- <-].
  assert (Forall (tuple_ok opts) tuples /\
          (n = 0 \/ n = 1 /\ exists a0 after', after = (a0, SymA) :: after'))
    as [Hok Hn].
  { destruct ex.
    - by eapply explicit_args_ok.
    - by eapply following_args_ok. }
  apply take_all_typed in Hall as [? ?]; done.
Qed.

(** What a parser without sub-parsers leaves in the namespace. *)
Lemma leaf_parser_typed args ns' extras' :
  parse_known_args_with prog opts pos sub args = Ok (ns', extras') ->
  (forall k v, ns' !! k = Some v ->
     parsed_value m pos k v \/ defaults opts pos !! k = Some v) /\
  match pos_dest pos with
  | Some d => exists v, ns' !! d = Some v /\ parsed_value m pos d v
  | None => True
  end.
Proof.
  unfold parse_known_args_with.
  destruct (classify prog m args) as [pattern|] eqn:Hc; [|done].
  cbn [mbind result_bind].
  set (st0 := {| ns := defaults opts pos; extras := []; unrecognized := [];
                 positional_seen := false |}).
  destruct (loop prog m pos sub st0 (zip args pattern)) as [[st1 rest1]|] eqn:Hl;
    [|done].
  cbn [mbind result_bind].
  destruct (finish prog pos sub st1 rest1) as [st2|] eqn:Hf; [|done].
  cbn [mbind result_bind]. intros [= <- <-].
  pose (I := fun (st : state) (items : list item) =>
               Forall (fun it : item => from_table m it.2) items /\
               typed opts pos st /\
               (positional_seen st = false -> tidy items)).
  destruct (loop_ind prog m pos sub I) with (items := zip args pattern)
    (st := st0) (st' := st1) (rest := rest1) as [(Hall & Hst & Htidy) Hnone];
    [| |done|].
  - clear -Hleaf.
    intros st it following before o after st' passed (Hall & Hst & Htidy) Hnext Hit.
    split.
    { apply Forall_drop. by apply Forall_cons in Hall as [_ ?]. }
    pose proof (next_option_split _ _ _ _ Hnext) as Hsplit.
    assert (Ho : from_table m (SymO o.2)).
    { rewrite Hsplit in Hall. apply Forall_app in Hall as [_ Hall].
      by apply Forall_cons in Hall as [Ho _]. }
    assert (Hafter : positional_seen st = false -> tidy after).
    { intros Hs. specialize (Htidy Hs). rewrite Hsplit in Htidy.
      by eapply tidy_after_option. }
    assert (Hdrop : forall k,
              (k = 0 \/ k = 1 /\ exists a after', after = (a, SymA) :: after') ->
              tidy after -> tidy (drop k after)).
    { intros k [->|[-> (a & after' & ->)]] H; [done|]. by destruct H. }
    unfold iteration in Hit. destruct before as [|b before'].
    + simpl in Hsplit. injection Hsplit as -> ->.
      apply consume_optional_typed in Hit as (Hst' & Hseen' & Hk); [|done..].
      split; [done|]. rewrite Hseen'. intros Hs. by apply Hdrop, Hafter.
    + destruct (consume_positionals prog pos sub st (it :: following))
        as [[st1' n]|] eqn:Hcp; [|done].
      cbn [mbind result_bind] in Hit.
      apply (consume_positionals_typed _ opts) in Hcp as [Hst1 Hn]; [|done..].
      destruct n as [|n].
      * destruct Hn as [[_ ->]|Hseen1].
        -- destruct (consume_optional prog m _ o.1 o.2 after) as [[st3 k]|] eqn:Hopt;
             [|done].
           cbn [mbind result_bind] in Hit. injection Hit as <- <-.
           apply consume_optional_typed in Hopt as (Hst' & Hseen' & Hk); [|done..].
           split; [done|]. rewrite Hseen'. cbn [add_extras positional_seen].
           intros Hs.
           simpl in Hsplit. injection Hsplit as -> ->.
           replace (length before' + 1 + k)
             with (length (before' ++ [(o.1, SymO o.2)]) + k)
             by (rewrite length_app; simpl; lia).
           rewrite (cons_middle _ before' after), app_assoc, drop_app_add'; [|done].
           by apply Hdrop, Hafter.
        -- destruct (consume_optional prog m _ o.1 o.2 after) as [[st3 k]|] eqn:Hopt;
             [|done].
           cbn [mbind result_bind] in Hit. injection Hit as <- <-.
           apply consume_optional_typed in Hopt as (Hst' & Hseen' & Hk); [|done..].
           split; [done|]. rewrite Hseen'. cbn [add_extras positional_seen].
           by rewrite Hseen1.
      * injection Hit as <- <-. split; [done|].
        destruct Hn as [[? _]|Hseen1]; [done|]. by rewrite Hseen1.
  - split_and!.
    + apply zip_Forall_snd. by apply (classify_from_table prog m args).
    + split; [|done]. intros k v Hk. by right.
    + intros _. by eapply classify_tidy.
  - apply finish_seen in Hf as (st1' & n & Hcp & -> & Hreq); [|done].
    apply (consume_positionals_typed _ opts) in Hcp as [[Hall' Hseen'] _];
      [|done..].
    split; [done|].
    destruct (pos_dest pos) as [d|] eqn:Hd; [|done].
    apply Hseen', Hreq. done.
Qed.

End TypedParsers.

Section RoutineArguments.
Import Argparse Dispatcher.

(** The namespace of a sub-parser of [main] without sub-parsers. *)
Lemma leaf_namespace prog opts pos args ns' :
  match pos with SubParsers _ _ _ => False | _ => True end ->
  Forall (declared_action opts pos) ((option_string_actions opts).*2) ->
  declared_positional opts pos ->
  parse_known_args (Parser prog opts pos) args = Ok (ns', []) ->
  same_attributes opts pos ns' /\
  (forall k v, ns' !! k = Some v ->
     parsed_value (option_string_actions opts) pos k v \/
     defaults opts pos !! k = Some v) /\
  match pos_dest pos with
  | Some d => exists v, ns' !! d = Some v /\
                parsed_value (option_string_actions opts) pos d v
  | None => True
  end.
Proof.
  intros Hleaf Hopts Hpos Hp. split.
  - by eapply leaf_attributes.
  - cbn [parse_known_args] in Hp.
    assert (Hsub : (match pos with
                    | SubParsers _ _ subs => select subs
                    | _ => fun _ _ => None
                    end) = fun _ _ => None) by (by destruct pos).
    rewrite Hsub in Hp. by eapply leaf_parser_typed.
Qed.

Lemma parsed_verb verb rest args :
  verb ∈ verbs -> PyStr.startswith "-" verb = false ->
  parse_args parser (verb :: rest) = Ok args ->
  exists p subns,
    find_parser subparsers verb = Some p /\
    parse_known_args p rest = Ok (subns, []) /\
    args = subns ∪ <["command" := AStr verb]>
                     (defaults [help] (SubParsers "command" true subparsers)).
Proof.
  intros Hverb Hplain. unfold parse_args. rewrite parse_verb by done.
  unfold hand_over. rewrite bool_decide_true by done.
  rewrite select_find.
  destruct (find_parser subparsers verb) as [p|]; [|done]. simpl.
  destruct (parse_known_args p rest) as [[subns ex]|] eqn:Hp; [|done].
  cbn [mbind result_bind]. destruct ex; [|done]. intros [= <-].
  by exists p, subns.
Qed.


Lemma successful_parse_typed main_args sub_args args c :
  parse_args parser main_args = Ok args ->
  dispatch args sub_args = Ok [c] -> well_formed_call c.
Proof.
  intros Hp Hd.
  destruct (successful_parse_one_routine _ sub_args _ Hp)
    as (verb & rest & -> & Hverb & c' & Hc' & Hrv & Hvenv & _).
  rewrite Hd in Hc'. injection Hc' as <-.
  destruct c; try done; simpl in Hrv; subst verb.
  - (* new *)
    apply parsed_verb in Hp as (p & subns & [= <-] & Hsub & ->); [|done..].
    apply leaf_namespace in Hsub as (Hattr & Hval & v1 & Hv1 & Hp1);
      [|done|decide_closed|decide_closed].
    destruct (attribute_present _ _ _ "template" Hattr) as [v2 Hv2]; [decide_closed|].
    revert Hd. unfold dispatch.
    rewrite command_attribute by (eapply attribute_absent; [exact Hattr|by vm_compute]).
    cbn [mbind result_bind]. simpl eq_str. cbv iota.
    rewrite (getattr_union_l _ _ "project_name" v1 Hv1),
            (getattr_union_l _ _ "template" v2 Hv2).
    cbn [mbind result_bind]. intros [= -> ->]. split.
    + destruct Hp1 as [(a & Ha & Hov)|(_ & s & -> & _)]; [|by exists s].
      simpl in Ha. exfalso. clear -Ha Hov.
      repeat (apply elem_of_cons in Ha as [->|Ha]; [by destruct Hov|]).
      by apply elem_of_nil in Ha.
    + destruct (Hval _ _ Hv2) as [[(a & Ha & Hov)|(Hk & _)]|Hdef]; [| done |].
      * simpl in Ha. clear -Ha Hov.
        repeat (apply elem_of_cons in Ha as [->|Ha]; [by destruct Hov|]).
        by apply elem_of_nil in Ha.
      * left. exists "app". vm_compute in Hdef. congruence.
  - (* add *)
    apply parsed_verb in Hp as (p & subns & [= <-] & Hsub & ->); [|done..].
    apply leaf_namespace in Hsub as (Hattr & Hval & v1 & Hv1 & Hp1);
      [|done|decide_closed|decide_closed].
    revert Hd. unfold dispatch.
    rewrite command_attribute by (eapply attribute_absent; [exact Hattr|by vm_compute]).
    cbn [mbind result_bind]. simpl eq_str. cbv iota.
    rewrite (getattr_union_l _ _ "module_name" v1 Hv1).
    cbn [mbind result_bind]. intros [= ->].
    destruct Hp1 as [(a & Ha & Hov)|(_ & s & -> & _)]; [|by exists s].
    simpl in Ha. exfalso. clear -Ha Hov.
    repeat (apply elem_of_cons in Ha as [->|Ha]; [by destruct Hov|]).
    by apply elem_of_nil in Ha.
  - (* venv *)
    destruct (Hvenv eq_refl) as (s & r & _ & Hs & [= ->]). by exists s.
  - (* bump *)
    apply parsed_verb in Hp as (p & subns & [= <-] & Hsub & ->); [|done..].
    apply leaf_namespace in Hsub as (Hattr & Hval & v1 & Hv1 & Hp1);
      [|done|decide_closed|decide_closed].
    revert Hd. unfold dispatch.
    rewrite command_attribute by (eapply attribute_absent; [exact Hattr|by vm_compute]).
    cbn [mbind result_bind]. simpl eq_str. cbv iota.
    rewrite (getattr_union_l _ _ "part" v1 Hv1).
    cbn [mbind result_bind]. intros [= ->].
    destruct Hp1 as [(a & Ha & Hov)|(_ & s & -> & Hs)]; [|by exists s].
    simpl in Ha. exfalso. clear -Ha Hov.
    repeat (apply elem_of_cons in Ha as [->|Ha]; [by destruct Hov|]).
    by apply elem_of_nil in Ha.
  - (* update *)
    apply parsed_verb in Hp as (p & subns & [= <-] & Hsub & ->); [|done..].
    apply leaf_namespace in Hsub as (Hattr & Hval & _);
      [|done|decide_closed|decide_closed].
    destruct (attribute_present _ _ _ "upgrade" Hattr) as [v1 Hv1]; [decide_closed|].
    revert Hd. unfold dispatch.
    rewrite command_attribute by (eapply attribute_absent; [exact Hattr|by vm_compute]).
    cbn [mbind result_bind]. simpl eq_str. cbv iota.
    rewrite (getattr_union_l _ _ "upgrade" v1 Hv1).
    cbn [mbind result_bind]. intros [= ->].
    destruct (Hval _ _ Hv1) as [[(a & Ha & Hov)|[]]|Hdef].
    + simpl in Ha.
      repeat (apply elem_of_cons in Ha as [->|Ha];
              [first [by destruct Hov|destruct Hov as [_ ->]; by exists true]|]).
      by apply elem_of_nil in Ha.
    + exists false. vm_compute in Hdef. congruence.
  - (* env *)
    apply parsed_verb in Hp as (p & subns & [= <-] & Hsub & ->); [|done..].
    unfold parser_env in Hsub. cbn [parse_known_args] in Hsub.
    apply dispatching_parser_success in Hsub
      as (name & args2 & subns2 & top2 & subex2 & -> & Hname & Hsub & -> & Hex).
    symmetry in Hex. apply app_eq_nil in Hex as [-> ->].
    simpl in Hname. apply list_elem_of_singleton in Hname as ->.
    simpl in Hsub. injection Hsub as Hsub.
    apply leaf_namespace in Hsub as (Hattr & Hval & v1 & Hv1 & Hp1);
      [|done|decide_closed|decide_closed].
    assert (Hc : subns2 !! "command" = None)
      by (eapply attribute_absent; [exact Hattr|by vm_compute]).
    assert (He : subns2 !! "env_command" = None)
      by (eapply attribute_absent; [exact Hattr|by vm_compute]).
    revert Hd. unfold dispatch. rewrite command_attribute.
    2:{ rewrite lookup_union_r by done. by vm_compute. }
    cbn [mbind result_bind]. simpl eq_str. cbv iota.
    rewrite (getattr_union_l _ _ "env_command" (AStr "set")).
    2:{ rewrite lookup_union_r by done. by vm_compute. }
    cbn [mbind result_bind]. simpl eq_str. cbv iota.
    rewrite (getattr_union_l _ _ "vars" v1).
    2:{ by apply lookup_union_Some_l. }
    cbn [mbind result_bind]. intros [= ->].
    destruct Hp1 as [(a & Ha & Hov)|(_ & x & xs & ->)]; [|by exists x, xs].
    simpl in Ha. exfalso. clear -Ha Hov.
    repeat (apply elem_of_cons in Ha as [->|Ha]; [by destruct Hov|]).
    by apply elem_of_nil in Ha.
Qed.

(** X17: every routine that [main] calls is handed values of the
    declared shape: a string for the project and the module name, one of
    the declared choices for the part to bump and for the [venv] sub-verb,
    a boolean for [upgrade], a non-empty list for the variables; the
    template is a string, or the empty list when it was given as
    [--template=--]. *)
Theorem routine_arguments (argv : list string) (calls : list call) (c : call) :
  main_body argv = Ok calls -> c ∈ calls -> well_formed_call c.
Proof.
  rewrite main_unfold.
  destruct (parse_args parser (prescan argv).1) as [args|] eqn:Hp; [|done].
  cbn [mbind result_bind]. intros Hd Hin.
  destruct (successful_parse_one_routine _ (prescan argv).2 _ Hp)
    as (_ & _ & _ & _ & c' & Hc' & _).
  rewrite Hd in Hc'. injection Hc' as ->.
  apply list_elem_of_singleton in Hin as ->.
  by eapply successful_parse_typed.
Qed.

Lemma routine_arguments_witness :
  well_formed_call (create_project (AStr "demo") (AList [])).
Proof.
  apply (routine_arguments ["new"; "--template=--"; "demo"]
           [create_project (AStr "demo") (AList [])]).
  - vm_compute. reflexivity.
  - apply list_elem_of_here.
Defined.

End RoutineArguments.

(** *** Pass-through tokens and sub-verbs *)

Section Opaque.
Import Argparse Dispatcher.

Lemma dispatch_sub_args args sub_args sub_args' :
  dispatch args sub_args' =
    (calls ← dispatch args sub_args;
     (Ok (with_forwarded sub_args' <$> (calls : list call)) : parsed (list call))).
Proof.
  unfold dispatch.
  destruct (getattr args "command") as [command|]; cbn [mbind result_bind]; [|done].
  repeat match goal with
         | |- context [if eq_str ?c ?s then _ else _] =>
             destruct (eq_str c s)
         | |- context [getattr ?a ?n] =>
             destruct (getattr a n); cbn [mbind result_bind]
         end; done.
Qed.

(** X18: the tokens behind the first pass-through command are opaque to
    the body of [main]: they change neither the parse, nor the way it ends, nor
    the routine chosen; they only replace the tokens handed to a run, test
    or lint routine. *)
Theorem passthrough_opaque (pre : list string) (tok : string) (post : list string) :
  Forall (fun t => t ∉ passthrough_commands) pre ->
  tok ∈ passthrough_commands ->
  main_body (pre ++ tok :: post) =
    (calls ← main_body (pre ++ [tok]);
     (Ok (with_forwarded post <$> (calls : list call)) : parsed (list call))).
Proof.
  intros Hpre Htok.
  rewrite !main_unfold, (prescan_split pre tok post Hpre Htok),
    (prescan_split pre tok [] Hpre Htok). cbn [fst snd].
  destruct (parse_args parser (pre ++ [tok])) as [args|e]; cbn [mbind result_bind];
    [|done].
  apply dispatch_sub_args.
Qed.

Lemma passthrough_opaque_witness :
  main_body (["add"] ++ "test" :: ["-v"]) =
    (calls ← main_body (["add"] ++ ["test"]);
     (Ok (with_forwarded ["-v"] <$> (calls : list call)) : parsed (list call))).
Proof.
  apply (passthrough_opaque ["add"] "test" ["-v"]).
  - repeat constructor. not_in_list.
  - apply list_elem_of_further, list_elem_of_here.
Defined.

(** X19: [venv create] and [venv remove] accept no further argument:
    the body of [main] returns, after calling [manage_venv] with the
    sub-verb, exactly when nothing follows it. *)
Theorem venv_subcommands_take_no_arguments (s : string) (rest : list string)
    (calls : list call) :
  s ∈ ["create"; "remove"] ->
  main_body ("venv" :: s :: rest) = Ok calls <->
  rest = [] /\ calls = [manage_venv (AStr s)].
Proof.
  intros Hs.
  assert (Hfacts : (s ∉ passthrough_commands) /\ PyStr.startswith "-" s = false /\
            select (AddParser "create" (plain "pyinit venv create")
                     (AddParser "remove" (plain "pyinit venv remove") NoParsers))
                   s = (fun a => Some (parse_known_args (plain ("pyinit venv " +:+ s)) a)) /\
            main_body ["venv"; s] = Ok [manage_venv (AStr s)]).
  { repeat (apply elem_of_cons in Hs as [->|Hs];
            [split_and!; [not_in_list|reflexivity|reflexivity|vm_compute; reflexivity]|]).
    by apply elem_of_nil in Hs. }
  destruct Hfacts as (Hpass & Hplain & Hsel & Hmain).
  split.
  - intros Hret.
    assert (rest = []) as ->.
    { rewrite main_unfold in Hret.
      rewrite (prescan_cons_head "venv") in Hret by not_in_list.
      rewrite (prescan_cons_head s _ Hpass) in Hret.
      destruct (parse_args parser ("venv" :: s :: (prescan rest).1)) as [args|] eqn:Hp;
        [|done].
      apply parsed_verb in Hp as (p & subns & [= <-] & Hsub & _); [|decide_closed|done].
      unfold parser_venv in Hsub. cbn [parse_known_args] in Hsub.
      rewrite dispatching_parser_verb in Hsub by done.
      unfold hand_over in Hsub. rewrite bool_decide_true in Hsub by done.
      rewrite Hsel in Hsub.
      destruct (parse_known_args (plain ("pyinit venv " +:+ s)) (prescan rest).1)
        as [[n ex]|] eqn:Hleaf; [|done].
      cbn [mbind result_bind] in Hsub. injection Hsub as _ ->.
      unfold plain in Hleaf. cbn [parse_known_args] in Hleaf.
      apply plain_extras in Hleaf. by apply prescan_head_nil. }
    split; [done|]. congruence.
  - by intros [-> ->].
Qed.

Lemma venv_subcommands_take_no_arguments_witness :
  main_body ["venv"; "create"] = Ok [manage_venv (AStr "create")].
Proof.
  apply (venv_subcommands_take_no_arguments "create" [] [manage_venv (AStr "create")]).
  - apply list_elem_of_here.
  - split; reflexivity.
Defined.

End Opaque.

(** *** The flag of [update] *)

Lemma startswith_prefixes p s : PyStr.startswith p s = true -> p ∈ prefixes s.
Proof.
  revert p. induction s as [|c s IH]; intros [|a p]; simpl; try done.
  - intros _. apply list_elem_of_here.
  - intros _. apply list_elem_of_here.
  - intros [Ha Hp]%andb_true_iff. apply bool_decide_eq_true in Ha as ->.
    apply list_elem_of_further, list_elem_of_fmap. exists p. split; [done|by apply IH].
Qed.

Section UpdateFlag.
Import Argparse Dispatcher.

Local Abbreviation uopts := [help; (["--upgrade"], StoreTrue "upgrade")].
Local Abbreviation mu := (option_string_actions uopts).
Local Abbreviation sub0 :=
  (fun (_ : string) (_ : list string) =>
     @None (parsed (namespace * list string))).

Lemma update_table a : a ∈ mu.*2 -> a = Help \/ a = StoreTrue "upgrade".
Proof.
  simpl. intros H.
  repeat (apply elem_of_cons in H as [->|H]; [auto|]).
  by apply elem_of_nil in H.
Qed.

Lemma update_nargs a : a ∈ mu.*2 -> nargs a = 0.
Proof. by intros [->| ->]%update_table. Qed.

Lemma following_args_update a os following tuples r n :
  a ∈ mu.*2 ->
  following_args "pyinit update" a os following tuples = Ok (r, n) -> n = 0.
Proof.
  intros Ha. unfold following_args. rewrite (update_nargs a Ha). by intros [= _ <-].
Qed.

Lemma explicit_args_update a os ex following tuples r n :
  a ∈ mu.*2 ->
  explicit_args "pyinit update" mu a os ex following tuples = Ok (r, n) -> n = 0.
Proof.
  revert a os tuples.
  induction ex as [|c ex IH]; intros a os tuples Ha; cbn [explicit_args];
    rewrite (update_nargs a Ha).
  - by rewrite andb_false_r.
  - destruct (negb (second_is_dash os)); cbn [andb PyStr.truthy]; [|done].
    destruct (lookup_action _ _) as [action'|] eqn:Hl; [|done].
    apply (lookup_action_elem mu) in Hl.
    destruct ex as [|c' ex'].
    + by apply following_args_update.
    + by apply IH.
Qed.

Lemma take_all_upgrade tuples st st' :
  Forall (fun t : action_tuple => t.1.1 ∈ mu.*2) tuples -> tuples <> [] ->
  take_all "pyinit update" tuples st = Ok st' ->
  ns st' !! "upgrade" = Some (ABool true) /\ extras st' = extras st /\
  unrecognized st' = unrecognized st.
Proof.
  intros Ht. revert st.
  induction Ht as [|[[a args] os] tuples Ha _ IH]; intros st Hne; [done|].
  simpl in Ha. apply update_table in Ha as [->| ->]; simpl; [done|].
  destruct tuples as [|t tuples].
  - intros [= <-]. simpl. by rewrite lookup_insert_eq.
  - intros H. apply IH in H as (? & ? & ?); done.
Qed.

Lemma consume_optional_upgrade st arg t after st' k :
  from_table mu (SymO t) ->
  consume_optional "pyinit update" mu st arg t after = Ok (st', k) ->
  k = 0 /\ unrecognized st' = unrecognized st /\
  (ns st' !! "upgrade" = Some (ABool true) /\ extras st' = extras st \/
   extras st' = extras st ++ [arg]).
Proof.
  intros Ht. destruct t as [[[a|] os] ex]; unfold consume_optional.
  2:{ intros [= <- <-]. split_and!; [done|done|by right]. }
  cbn [from_table] in Ht.
  destruct (match ex with
            | Some e => explicit_args "pyinit update" mu a os e after []
            | None => following_args "pyinit update" a os after []
            end) as [[tuples n]|] eqn:Htup; cbn [mbind result_bind]; [|done].
  destruct (take_all "pyinit update" tuples st) as [st1|] eqn:Hall;
    cbn [mbind result_bind]; [|done].
  intros [= <- <-].
  assert (Hprops : Forall (fun t : action_tuple => t.1.1 ∈ mu.*2) tuples /\
                   tuples <> [] /\ n = 0).
  { destruct ex as [e|].
    - split_and!.
      + apply (explicit_args_ok "pyinit update" uopts) in Htup as [Hok _];
          [|done|constructor].
        eapply Forall_impl; [exact Hok|]. by intros t [? _].
      + apply explicit_args_head in Htup as (? & ? & ? & ->). done.
      + by eapply explicit_args_update.
    - split_and!.
      + apply (following_args_ok "pyinit update" uopts) in Htup as [Hok _];
          [|done|constructor].
        eapply Forall_impl; [exact Hok|]. by intros t [? _].
      + apply following_args_head in Htup as (? & ->). done.
      + by eapply following_args_update. }
  destruct Hprops as (Hall' & Hne & ->).
  apply take_all_upgrade in Hall as (? & ? & ?); [|done..].
  split_and!; [done|done|by left].
Qed.

(** [update] accepts nothing but its flag: a successful parse of a
    non-empty argument list has set [upgrade]. *)
Lemma parse_update args ns' :
  parse_known_args parser_update args = Ok (ns', []) ->
  args = [] \/ ns' !! "upgrade" = Some (ABool true).
Proof.
  unfold parser_update. cbn [parse_known_args]. unfold parse_known_args_with.
  destruct (classify "pyinit update" mu args) as [pattern|] eqn:Hc; [|done].
  cbn [mbind result_bind].
  set (st0 := {| ns := defaults uopts NoPositional; extras := [];
                 unrecognized := []; positional_seen := false |}).
  destruct (loop "pyinit update" mu NoPositional sub0 st0 (zip args pattern))
    as [[st1 rest1]|] eqn:Hl; [|done].
  cbn [mbind result_bind].
  destruct (finish "pyinit update" NoPositional sub0 st1 rest1) as [st2|] eqn:Hf;
    [|done].
  cbn [mbind result_bind]. intros [= <- Hex].
  pose (I := fun (st : state) (items : list item) =>
               Forall (fun it : item => from_table mu it.2) items /\
               unrecognized st = [] /\
               (items.*1 = args /\ extras st = [] \/
                ns st !! "upgrade" = Some (ABool true) \/ extras st <> [])).
  destruct (loop_ind "pyinit update" mu NoPositional sub0 I)
    with (items := zip args pattern) (st := st0) (st' := st1) (rest := rest1)
    as [(Hall & Hun & Hcase) _]; [| |done|].
  - clear. intros st it following before o after st' passed (Hall & Hun & Hcase) Hnext Hit.
    pose proof (next_option_split _ _ _ _ Hnext) as Hsplit.
    assert (Ho : from_table mu (SymO o.2)).
    { rewrite Hsplit in Hall. apply Forall_app in Hall as [_ Hall].
      by apply Forall_cons in Hall as [Ho _]. }
    split; [apply Forall_drop; by apply Forall_cons in Hall as [_ ?]|].
    assert (Hkeep : forall st3 : state,
              ns st3 !! "upgrade" = Some (ABool true) /\ extras st3 = extras st \/
              (exists l, l <> [] /\ extras st3 = extras st ++ l) ->
              ns st3 !! "upgrade" = Some (ABool true) \/ extras st3 <> []).
    { intros st3 [[? ?]|(l & Hl & Hex)]; [by left|]. right. rewrite Hex.
      intros [_ ?]%app_eq_nil. done. }
    unfold iteration in Hit. destruct before as [|b before'].
    + apply consume_optional_upgrade in Hit as (-> & Hun' & Hres); [|done].
      split; [congruence|]. right. apply Hkeep.
      destruct Hres as [?|Hex]; [by left|]. right. by exists [o.1].
    + rewrite consume_no_positional in Hit. cbn [mbind result_bind] in Hit.
      destruct (consume_optional "pyinit update" mu _ o.1 o.2 after)
        as [[st3 k]|] eqn:Hopt; [|done].
      cbn [mbind result_bind] in Hit. injection Hit as <- <-.
      apply consume_optional_upgrade in Hopt as (-> & Hun' & Hres); [|done].
      cbn [add_extras extras unrecognized] in Hun', Hres.
      split; [congruence|]. right. right.
      destruct Hres as [[_ Hex]|Hex]; rewrite Hex;
        intros H; apply app_eq_nil in H as [_ H]; done.
  - split_and!; [|done|].
    + apply zip_Forall_snd. by apply (classify_from_table "pyinit update" mu args).
    + left. split; [|done]. rewrite fst_zip; [done|].
      by rewrite (classify_length "pyinit update" mu args pattern).
  - unfold finish in Hf. rewrite consume_no_positional in Hf.
    cbn [mbind result_bind required] in Hf. injection Hf as <-.
    cbn [add_extras extras unrecognized ns drop] in Hex |- *.
    rewrite Hun, app_nil_r in Hex. apply app_eq_nil in Hex as [Hex1 Hex2].
    destruct Hcase as [[<- _]|[?|?]]; [by left|by right|done].
Qed.

(** X20: [update] alone calls [update_dependencies] with [False]; with
    [--upgrade], or any abbreviation of it of at least three characters,
    it calls it with [True]; and whenever [update] is followed by
    arguments and the body of [main] returns, the routine was called with
    [True]. *)
Theorem update_upgrade_flag :
  main_body ["update"] = Ok [update_dependencies (ABool false)] /\
  (forall flag,
     PyStr.startswith flag "--upgrade" = true -> 3 <= String.length flag ->
     main_body ["update"; flag] = Ok [update_dependencies (ABool true)]) /\
  (forall rest calls,
     main_body ("update" :: rest) = Ok calls -> rest <> [] ->
     calls = [update_dependencies (ABool true)]).
Proof.
  split_and!.
  - vm_compute. reflexivity.
  - intros flag Hpre Hlen.
    apply startswith_prefixes in Hpre. vm_compute in Hpre.
    repeat (apply elem_of_cons in Hpre as [->|Hpre];
            [first [by (simpl in Hlen; lia)|vm_compute; reflexivity]|]).
    by apply elem_of_nil in Hpre.
  - intros rest calls Hret Hne.
    rewrite main_unfold in Hret.
    rewrite (prescan_cons_head "update") in Hret by not_in_list.
    destruct (parse_args parser ("update" :: (prescan rest).1)) as [args|] eqn:Hp;
      [|done].
    cbn [mbind result_bind] in Hret.
    apply parsed_verb in Hp as (p & subns & [= <-] & Hsub & ->); [|decide_closed|done].
    pose proof Hsub as [Hnil|Hup]%parse_update.
    { by apply prescan_head_nil in Hnil. }
    apply leaf_attributes in Hsub; [|decide_closed..].
    revert Hret. unfold dispatch.
    rewrite command_attribute by (eapply attribute_absent; [exact Hsub|by vm_compute]).
    cbn [mbind result_bind]. simpl eq_str. cbv iota.
    rewrite (getattr_union_l _ _ "upgrade" _ Hup). cbn [mbind result_bind].
    by intros [= <-].
Qed.

End UpdateFlag.

(** *** Usage errors and requests for help *)

Section HelpOnRequest.
Import Argparse.
Context (prog : string) (m : list (string * opt_action)).
Hypothesis table : help_flags m = true.

Lemma split_eq_app s l r : split_eq s = Some (l, r) -> s = l +:+ String "="%char r.
Proof.
  revert l. induction s as [|c s IH]; intros l; simpl; [done|].
  case_bool_decide as Hc.
  - intros [= <- <-]. by rewrite Hc.
  - destruct (split_eq s) as [[l' r']|]; [|done].
    intros [= <- <-]. exact (f_equal (String c) (IH _ eq_refl)).
Qed.

Lemma lookup_action_entry s a : lookup_action s m = Some a -> (s, a) ∈ m.
Proof.
  clear table. induction m as [|[s' a'] m' IH]; simpl; [done|].
  case_bool_decide as Hs.
  - intros [= ->]. rewrite Hs. apply list_elem_of_here.
  - intros Hl. apply list_elem_of_further. by apply IH.
Qed.

Lemma help_strings s : (s, Help) ∈ m -> s = "-h" \/ s = "--help".
Proof.
  intros Hin. unfold help_flags in table. rewrite forallb_forall in table.
  apply list_elem_of_In, table in Hin. simpl in Hin.
  apply bool_decide_eq_true in Hin.
  apply elem_of_cons in Hin as [->|Hin]; [by left|].
  apply elem_of_cons in Hin as [->|Hin]; [by right|].
  by apply elem_of_nil in Hin.
Qed.

Lemma short_flag_help s a :
  (s, a) ∈ m -> nargs a = 0 -> second_is_dash s = false -> a = Help.
Proof.
  intros Hin Hn Hs. unfold help_flags in table. rewrite forallb_forall in table.
  apply list_elem_of_In, table in Hin. simpl in Hin.
  destruct a; [done| |done]. congruence.
Qed.

(** Where an option tuple comes from. *)
Lemma get_option_tuples_entry arg a os ex :
  (Some a, os, ex) ∈ get_option_tuples m arg ->
  (os, a) ∈ m /\
  if second_is_dash arg then
    match split_eq arg with
    | Some (l, r) => PyStr.startswith l os = true /\ ex = Some r
    | None => PyStr.startswith arg os = true /\ ex = None
    end
  else (os = take2 arg /\ ex = Some (drop2 arg)) \/
       (PyStr.startswith arg os = true /\ ex = None).
Proof.
  clear table. unfold get_option_tuples. intros H.
  destruct (second_is_dash arg).
  - destruct (split_eq arg) as [[l r]|];
      apply list_elem_of_In, in_flat_map in H as ([s a'] & He & Hin);
      apply list_elem_of_In in He; simpl in Hin.
    + destruct (PyStr.startswith l s) eqn:Hp; [|done].
      destruct Hin as [[= <- <- <-]|[]]. done.
    + destruct (PyStr.startswith arg s) eqn:Hp; [|done].
      destruct Hin as [[= <- <- <-]|[]]. done.
  - apply list_elem_of_In, in_flat_map in H as ([s a'] & He & Hin).
    apply list_elem_of_In in He. simpl in Hin.
    case_bool_decide as Ht.
    + destruct Hin as [[= <- <- <-]|[]]. split; [done|]. by left.
    + destruct (PyStr.startswith arg s) eqn:Hp; [|done].
      destruct Hin as [[= <- <- <-]|[]]. split; [done|]. by right.
Qed.

(** Where the tuple of a recognised option comes from: its string is in
    the table, and it is the argument, the part of it before [=] or its
    first two characters, or the argument abbreviates it. *)
Lemma parse_optional_entry arg a os ex :
  parse_optional prog m arg = Ok (Some (Some a, os, ex)) ->
  (os, a) ∈ m /\ PyStr.startswith "-" arg = true /\
  ((os = arg /\ ex = None) \/
   (exists r, arg = os +:+ String "="%char r /\ ex = Some r) \/
   (second_is_dash arg = true /\
    match split_eq arg with
    | Some (l, r) => PyStr.startswith l os = true /\ ex = Some r
    | None => PyStr.startswith arg os = true /\ ex = None
    end) \/
   (second_is_dash arg = false /\
    ((os = take2 arg /\ ex = Some (drop2 arg) /\ 2 <= String.length arg) \/
     (PyStr.startswith arg os = true /\ ex = None /\ 2 <= String.length arg)))).
Proof.
  clear table. unfold parse_optional, error.
  destruct arg as [|c arg']; [done|].
  case_bool_decide as Hc; [|done]. subst c. cbn [negb].
  destruct (lookup_action (String "-" arg') m) as [a0|] eqn:Hl.
  { intros [= <- <- <-]. split_and!; [by apply lookup_action_entry|done|]. by left. }
  destruct (String.length (String "-" arg') =? 1)%nat eqn:Hlen; [done|].
  apply Nat.eqb_neq in Hlen.
  assert (H2 : 2 <= String.length (String "-" arg')).
  { simpl in *. lia. }
  destruct (split_eq (String "-" arg')) as [[l r]|] eqn:Hs.
  - destruct (lookup_action l m) as [a1|] eqn:Hl1.
    { intros [= <- <- <-]. split_and!; [by apply lookup_action_entry|done|].
      right; left. exists r. split; [|done]. by apply split_eq_app. }
    destruct (get_option_tuples m (String "-" arg')) as [|t1 [|t2 ts]] eqn:Hg.
    + repeat case_match; done.
    + intros [= ->].
      assert (Hin : (Some a, os, ex) ∈ get_option_tuples m (String "-" arg'))
        by (rewrite Hg; apply list_elem_of_here).
      apply get_option_tuples_entry in Hin as [Hin Hrel]. split_and!; [done..|].
      rewrite Hs in Hrel.
      destruct (second_is_dash (String "-" arg')) eqn:Hd.
      * right; right; left. done.
      * right; right; right. split; [done|]. destruct Hrel as [[-> ->]|[? ->]].
        -- by left.
        -- by right.
    + done.
  - destruct (get_option_tuples m (String "-" arg')) as [|t1 [|t2 ts]] eqn:Hg.
    + repeat case_match; done.
    + intros [= ->].
      assert (Hin : (Some a, os, ex) ∈ get_option_tuples m (String "-" arg'))
        by (rewrite Hg; apply list_elem_of_here).
      apply get_option_tuples_entry in Hin as [Hin Hrel]. split_and!; [done..|].
      rewrite Hs in Hrel.
      destruct (second_is_dash (String "-" arg')) eqn:Hd.
      * right; right; left. done.
      * right; right; right. split; [done|]. destruct Hrel as [[-> ->]|[? ->]].
        -- by left.
        -- by right.
    + done.
Qed.

Lemma help_request_prefix os r :
  os = "-h" \/ os = "--help" -> help_request (os +:+ String "="%char r) = true.
Proof. by intros [->| ->]. Qed.

Lemma take2_help arg : take2 arg = "-h" -> help_request arg = true.
Proof.
  destruct arg as [|a [|b arg]]; simpl; try done.
  intros [= -> ->]. done.
Qed.

Lemma take2_short arg : 2 <= String.length arg -> take2 arg <> "--help".
Proof. destruct arg as [|a [|b arg]]; simpl; [lia|lia|done]. Qed.

(** The string of a recognised [Help] option asks for help, unless a long
    option was given an explicit argument. *)
Lemma parse_optional_help arg os ex :
  arg <> "--" ->
  parse_optional prog m arg = Ok (Some (Some Help, os, ex)) ->
  help_request arg = true \/ (second_is_dash os = true /\ ex <> None).
Proof.
  intros Hdd Hp. apply parse_optional_entry in Hp as (Hin & Hdash & Hrel).
  apply help_strings in Hin.
  destruct Hrel as [[-> _]|[(r & -> & ->)|[[Hd Hrel]|[Hd Hrel]]]].
  - left. by destruct Hin as [->| ->].
  - left. by apply help_request_prefix.
  - destruct (split_eq arg) as [[l r]|] eqn:Hs.
    + destruct Hrel as [Hpre ->]. right. split; [|done].
      destruct Hin as [->| ->]; [|done].
      apply split_eq_app in Hs as ->.
      apply startswith_prefixes in Hpre. vm_compute in Hpre.
      repeat (apply elem_of_cons in Hpre as [->|Hpre]; [done|]).
      by apply elem_of_nil in Hpre.
    + destruct Hrel as [Hpre ->]. left.
      apply startswith_prefixes in Hpre.
      destruct Hin as [->| ->]; vm_compute in Hpre;
        repeat (apply elem_of_cons in Hpre as [->|Hpre]; [done|]);
        by apply elem_of_nil in Hpre.
  - destruct Hrel as [(-> & -> & Hlen)|(Hpre & -> & Hlen)].
    + left. destruct Hin as [Hin|Hin]; [by apply take2_help|].
      by apply take2_short in Hin.
    + left. apply startswith_prefixes in Hpre.
      destruct Hin as [->| ->]; vm_compute in Hpre;
        repeat (apply elem_of_cons in Hpre as [->|Hpre];
                [first [done | simpl in Hlen; lia]|]);
        by apply elem_of_nil in Hpre.
Qed.

End HelpOnRequest.

Section HelpTaken.
Import Argparse.
Context (prog : string) (m : list (string * opt_action)) (pos : positional)
        (sub : string -> list string -> option (parsed (namespace * list string))).
Hypothesis table : help_flags m = true.

Lemma check_values_free argument vs : check_values prog argument None vs = Ok tt.
Proof. induction vs as [|v vs IH]; simpl; done. Qed.

(** Without [choices] every value is accepted. *)
Lemma get_values_single_free argument arg_strings :
  exists v, get_values_single prog argument None arg_strings = Ok v.
Proof.
  unfold get_values_single.
  destruct (remove_first "--" arg_strings) as [|v [|v' vs]]; simpl; eauto.
  rewrite check_values_free. simpl. eauto.
Qed.

Lemma error_no_help {A} p msg e q :
  @error A p msg = Raise e -> e <> SystemExit (PrintHelp q).
Proof. by intros [= <-]. Qed.

(** The help is printed by an option without explicit argument, or by a
    short flag. *)
Lemma consume_optional_prints st arg a os ex following p :
  consume_optional prog m st arg (Some a, os, ex) following
    = Raise (SystemExit (PrintHelp p)) ->
  nargs a = 0 /\ (second_is_dash os = false \/ (a = Help /\ ex = None)).
Proof.
  unfold consume_optional. destruct ex as [ex|].
  - destruct a as [|d|d v].
    + destruct (second_is_dash os) eqn:Hd; [|by intros _; split; [|left]].
      destruct ex; simpl; rewrite Hd; done.
    + destruct (second_is_dash os) eqn:Hd; [|by intros _; split; [|left]].
      destruct ex; simpl; rewrite Hd; done.
    + destruct ex;
        cbn [explicit_args nargs mbind result_bind app take_all take_optional];
        match goal with
        | |- context [get_values_single ?p ?d None ?l] =>
            destruct (get_values_single_free d l) as [w ->]
        end; done.
  - unfold following_args. destruct a as [|d|d v]; cbn [nargs].
    + intros _. split; [done|]. by right.
    + done.
    + destruct following as [|[x []] following]; try done.
      cbn [mbind result_bind app take_all take_optional].
      destruct (get_values_single_free d [x]) as [w ->]. done.
Qed.

(** When an option prints the help, its string asks for it. *)
Lemma consume_optional_help st arg t following p :
  arg <> "--" ->
  parse_optional prog m arg = Ok (Some t) ->
  consume_optional prog m st arg t following = Raise (SystemExit (PrintHelp p)) ->
  help_request arg = true.
Proof.
  intros Hdd Hp Hc. destruct t as [[[a|] os] ex]; [|done].
  apply consume_optional_prints in Hc as [Hn Hc].
  assert (a = Help) as ->.
  { destruct Hc as [Hd|[-> _]]; [|done].
    apply (parse_optional_entry prog m) in Hp as (Hin & _).
    by eapply short_flag_help. }
  destruct (parse_optional_help prog m table arg os ex Hdd Hp) as [H|[Hd Hex]];
    [done|].
  destruct Hc as [Hc|[_ ->]]; congruence.
Qed.

Lemma classify_classified args pattern :
  classify prog m args = Ok pattern ->
  Forall (classified prog m args) (zip args pattern).
Proof.
  revert pattern. induction args as [|arg args IH]; intros pattern; simpl.
  - intros [= <-]. constructor.
  - case_bool_decide as Hdd.
    + intros [= <-]. simpl. constructor.
      * split; [apply list_elem_of_here|done].
      * apply Forall_forall. intros [x s] Hin. split.
        -- apply list_elem_of_further. by apply elem_of_zip_l in Hin.
        -- apply elem_of_zip_r, list_elem_of_fmap in Hin as (? & -> & _). done.
    + destruct (parse_optional prog m arg) as [t|] eqn:Ht; simpl; [|done].
      destruct (classify prog m args) as [syms|]; simpl; [|done].
      intros [= <-]. simpl. constructor.
      * split; [apply list_elem_of_here|]. by destruct t.
      * eapply Forall_impl; [by apply IH|].
        intros it [Hin Hit]. split; [by apply list_elem_of_further|done].
Qed.

Lemma next_option_classified (Q : item -> Prop) items before o after :
  Forall Q items -> next_option items = Some (before, o, after) ->
  Q (o.1, SymO o.2).
Proof.
  intros HQ Hnext. apply next_option_split in Hnext as ->.
  apply Forall_app in HQ as [_ HQ]. by apply Forall_cons in HQ as [HQ _].
Qed.

(** [loop_raises] for a list of items that satisfy [Q]. *)
Lemma loop_raises_items (Q : item -> Prop) (P : stop -> Prop) :
  (forall st it following before o after e,
     Forall Q (it :: following) ->
     next_option (it :: following) = Some (before, o, after) ->
     iteration prog m pos sub st it following before o after = Raise e -> P e) ->
  forall items st e,
    Forall Q items -> loop prog m pos sub st items = Raise e -> P e.
Proof.
  intros Hstep items.
  remember (length items) as n eqn:Hn.
  assert (Hle : length items <= n) by lia. clear Hn. revert items Hle.
  induction n as [|n IH]; intros items Hle st e HQ.
  - destruct items; [|simpl in Hle; lia]. by simp loop.
  - destruct items as [|it following]; [by simp loop|].
    simp loop.
    destruct (next_option (it :: following)) as [[[before o] after]|] eqn:Hnext;
      [|done].
    destruct (iteration prog m pos sub st it following before o after)
      as [[st1 passed]|e1] eqn:Hit.
    + apply IH.
      * rewrite length_drop. simpl in Hle. lia.
      * apply Forall_drop. by apply Forall_cons in HQ as [_ HQ].
    + intros [= <-]. by eapply Hstep.
Qed.

(** The items left by the loop are among those it was given. *)
Lemma loop_items (Q : item -> Prop) items st st' rest :
  Forall Q items -> loop prog m pos sub st items = Ok (st', rest) ->
  Forall Q rest.
Proof.
  intros HQ Hl.
  apply (loop_ind prog m pos sub (fun _ items => Forall Q items)) in Hl as [H _];
    [done| |done].
  intros st0 it following before o after st1 passed HI _ _.
  apply Forall_drop. by apply Forall_cons in HI as [_ HI].
Qed.

Hypothesis sub_help :
  forall name args e, sub name args = Some (Raise e) -> help_on_request args e.

Lemma get_values_single_no_help argument choices arg_strings e p :
  get_values_single prog argument choices arg_strings = Raise e ->
  e <> SystemExit (PrintHelp p).
Proof.
  unfold get_values_single.
  assert (Hv : forall v e, check_value prog argument choices v = Raise e ->
                           e <> SystemExit (PrintHelp p)).
  { intros v e'. unfold check_value. destruct choices; [|done].
    case_bool_decide; [done|]. apply error_no_help. }
  assert (Hvs : forall vs e, check_values prog argument choices vs = Raise e ->
                             e <> SystemExit (PrintHelp p)).
  { intros vs. induction vs as [|v vs IH]; intros e'; simpl; [done|].
    destruct (check_value prog argument choices v) eqn:Hc; simpl; [by apply IH|].
    intros [= <-]. by eapply Hv. }
  destruct (remove_first "--" arg_strings) as [|v [|v' vs]].
  - done.
  - destruct (check_value prog argument choices v) eqn:Hc; simpl; [done|].
    intros [= <-]. by eapply Hv.
  - destruct (check_values prog argument choices (v :: v' :: vs)) eqn:Hc;
      cbn [mbind result_bind]; [done|].
    intros [= <-]. by eapply Hvs.
Qed.

Lemma take_positional_help arg_strings st e :
  take_positional prog pos sub arg_strings st = Raise e ->
  help_on_request arg_strings e.
Proof.
  intros Ht p ->. revert Ht.
  destruct pos as [|d mv ch|d mv|d req subs]; simpl; try done.
  - destruct (get_values_single prog _ ch arg_strings) eqn:Hv; simpl; [done|].
    intros [= ->]. by apply (get_values_single_no_help _ _ _ _ p) in Hv.
  - destruct arg_strings as [|name rest]; [done|].
    case_bool_decide; [|done].
    destruct (sub name rest) as [[[subns ex]|e1]|] eqn:Hs; simpl; [done| |done].
    intros [= ->]. destruct (sub_help _ _ _ Hs p eq_refl) as (t & Hin & Ht).
    exists t. split; [by apply list_elem_of_further|done].
Qed.

Lemma consume_positionals_help st rest e :
  consume_positionals prog pos sub st rest = Raise e ->
  help_on_request rest.*1 e.
Proof.
  unfold consume_positionals. destruct (positional_seen st); [done|].
  destruct (match_positional pos rest.*2) as [n|]; [|done].
  destruct (take_positional prog pos sub (take n rest).*1 st) as [st1|e1] eqn:Ht;
    simpl; [done|].
  intros [= <-] p ->.
  destruct (take_positional_help _ _ _ Ht p eq_refl) as (t & Hin & Hreq).
  exists t. split; [|done].
  rewrite <- (take_drop n rest), fmap_app. apply elem_of_app. by left.
Qed.

Lemma help_on_request_items args items e :
  Forall (classified prog m args) items ->
  help_on_request items.*1 e -> help_on_request args e.
Proof.
  intros HQ H p He. destruct (H p He) as (t & Hin & Ht).
  exists t. split; [|done].
  apply list_elem_of_fmap in Hin as (it & -> & Hin).
  rewrite Forall_forall in HQ. by apply HQ in Hin as [Hin _].
Qed.

Lemma iteration_help args st it following before o after e :
  Forall (classified prog m args) (it :: following) ->
  next_option (it :: following) = Some (before, o, after) ->
  iteration prog m pos sub st it following before o after = Raise e ->
  help_on_request args e.
Proof.
  intros HQ Hnext.
  pose proof (next_option_classified _ _ _ _ _ HQ Hnext) as [Hin [Hdd Hp]].
  simpl in Hin, Hdd, Hp.
  assert (Hopt : forall st' e', consume_optional prog m st' o.1 o.2 after = Raise e' ->
                                help_on_request args e').
  { intros st' e' Hc p ->. exists o.1. split; [done|].
    by eapply consume_optional_help. }
  unfold iteration. destruct before as [|b before'].
  - apply Hopt.
  - destruct (consume_positionals prog pos sub st (it :: following))
      as [[st1 n]|e1] eqn:Hcp; cbn [mbind result_bind].
    + destruct n; [|done].
      destruct (consume_optional prog m _ o.1 o.2 after) as [[st3 k]|e1] eqn:Hopt';
        cbn [mbind result_bind]; [done|].
      intros [= <-]. by eapply Hopt.
    + intros [= <-]. eapply help_on_request_items; [exact HQ|].
      by eapply consume_positionals_help.
Qed.

Lemma finish_help args st rest e :
  Forall (classified prog m args) rest ->
  finish prog pos sub st rest = Raise e -> help_on_request args e.
Proof.
  intros HQ. unfold finish.
  destruct (consume_positionals prog pos sub st rest) as [[st1 n]|e1] eqn:Hcp;
    cbn [mbind result_bind].
  - destruct (required pos); [|done].
    destruct (positional_seen _); [done|]. by intros [= <-] p.
  - intros [= <-]. eapply help_on_request_items; [exact HQ|].
    by eapply consume_positionals_help.
Qed.

End HelpTaken.

Section HelpParsers.
Import Argparse Dispatcher.

(** A parser prints its help only on request when its sub-parsers do. *)
Lemma parse_known_args_with_help prog opts pos sub args e :
  help_flags (option_string_actions opts) = true ->
  (forall name a e', sub name a = Some (Raise e') -> help_on_request a e') ->
  parse_known_args_with prog opts pos sub args = Raise e ->
  help_on_request args e.
Proof.
  intros Ht Hsub. unfold parse_known_args_with.
  destruct (classify prog (option_string_actions opts) args) as [pattern|e1] eqn:Hc;
    cbn [mbind result_bind].
  2:{ intros [= <-]. apply classify_raises in Hc as [msg ->]. by intros p. }
  pose proof (classify_classified _ _ _ _ Hc) as HQ.
  destruct (loop prog (option_string_actions opts) pos sub _ (zip args pattern))
    as [[st1 rest1]|e1] eqn:Hl; cbn [mbind result_bind].
  2:{ intros [= <-]. eapply loop_raises_items; [|exact HQ|exact Hl].
      intros. by eapply iteration_help. }
  destruct (finish prog pos sub st1 rest1) as [st2|e1] eqn:Hf;
    cbn [mbind result_bind]; [done|].
  intros [= <-]. eapply finish_help; [exact Hsub| |exact Hf].
  eapply loop_items; [exact HQ|exact Hl].
Qed.

Lemma leaf_help prog opts pos args e :
  help_flags (option_string_actions opts) = true ->
  match pos with SubParsers _ _ _ => False | _ => True end ->
  parse_known_args (Parser prog opts pos) args = Raise e -> help_on_request args e.
Proof.
  intros Ht Hpos. cbn [parse_known_args].
  apply parse_known_args_with_help; [done|]. destruct pos; done.
Qed.

Lemma parser_help args e :
  parse_known_args parser args = Raise e -> help_on_request args e.
Proof.
  unfold parser. cbn [parse_known_args].
  apply parse_known_args_with_help; [done|].
  intros name a e'. rewrite select_find.
  destruct (find_parser subparsers name) as [p|] eqn:Hp; [|done].
  simpl. intros [= Hr]. revert Hp. unfold subparsers. cbn [find_parser].
  repeat (case_bool_decide; [intros [= <-]; revert Hr|]); try done.
  all: try (apply leaf_help; done).
  - unfold parser_venv. cbn [parse_known_args].
    apply parse_known_args_with_help; [done|].
    intros name' a' e''. cbn [select].
    repeat (case_bool_decide; [intros [= Hr']; revert Hr'; by apply leaf_help|]).
    done.
  - unfold parser_env. cbn [parse_known_args].
    apply parse_known_args_with_help; [done|].
    intros name' a' e''. cbn [select].
    repeat (case_bool_decide; [intros [= Hr']; revert Hr'; by apply leaf_help|]).
    done.
Qed.

(** How [parse_args] can fail: with a usage error, or with the help that
    one of the arguments asked for. *)
Lemma parse_args_raises args e :
  parse_args parser args = Raise e ->
  exists x, e = SystemExit x /\
    ((exists prog msg, x = UsageError prog msg) \/
     (exists prog, x = PrintHelp prog) /\ existsb help_request args = true).
Proof.
  unfold parse_args.
  destruct (parse_known_args parser args) as [[n ex]|e1] eqn:Hk;
    cbn [mbind result_bind].
  - destruct ex; [done|]. intros [= <-]. eexists. split; [done|]. left. eauto.
  - intros [= <-]. destruct (parser_exits _ _ Hk) as [[p|p msg] ->].
    + exists (PrintHelp p). split; [done|]. right. split; [by exists p|].
      destruct (parser_help _ _ Hk p eq_refl) as (t & Hin & Ht).
      apply existsb_exists. exists t. split; [by apply list_elem_of_In|done].
    + exists (UsageError p msg). split; [done|]. left. eauto.
Qed.

Lemma sub_verbs_cases verb subs :
  sub_verbs verb = Some subs ->
  (verb = "venv" /\ subs = ["create"; "remove"]) \/
  (verb = "env" /\ subs = ["set"]).
Proof.
  unfold sub_verbs, subparsers. cbn [find_parser].
  repeat (case_bool_decide;
          [subst verb; cbv;
           first [by intros [=] | intros [= <-]; first [by left | by right]]|]).
  done.
Qed.

(** Nothing is parsed successfully when no command is given. *)
Lemma lacks_command_no_parse argv args :
  lacks_command argv = true -> parse_args parser (prescan argv).1 <> Ok args.
Proof.
  intros Hlack Hp.
  destruct (successful_parse_one_routine _ [] _ Hp)
    as (verb & rest & Hargs & Hverb & c & _ & _ & Hvenv & Henv).
  destruct argv as [|v rest0].
  { by cbv in Hargs. }
  assert (Hv : v = verb /\ exists tail, rest0 = rest ++ tail).
  { pose proof (prescan_app (v :: rest0)) as Hl. rewrite Hargs in Hl.
    injection Hl as Hv Hr. eauto. }
  destruct Hv as [-> [tail ->]]. cbn [lacks_command] in Hlack.
  rewrite bool_decide_true in Hlack by done. cbn [negb orb] in Hlack.
  destruct (sub_verbs verb) as [subs|] eqn:Hs; [|done].
  apply sub_verbs_cases in Hs as [[-> ->]|[-> ->]].
  - destruct (Hvenv eq_refl) as (s & r & -> & Hsin & _).
    cbn [app] in Hlack. by rewrite bool_decide_true in Hlack.
  - destruct (Henv eq_refl) as (r & vars & -> & _).
    cbn [app] in Hlack. rewrite bool_decide_true in Hlack; [done|].
    apply list_elem_of_here.
Qed.

End HelpParsers.

Section UsageErrorExit.
Import Argparse Dispatcher.




End UsageErrorExit.

(* ===================================================================== *)
(** * Worked examples *)
(* ===================================================================== *)

Section Examples.
Import Locator PyVal Metadata Argparse Dispatcher.

(** A filesystem whose only marker file is [/home/u/pyproject.toml]. *)
Example root_found :
  search (fun p => bool_decide (p = ["home"; "u"; "pyproject.toml"]))
         ["home"; "u"; "proj"; "src"] =
    ([["home"; "u"; "proj"; "src"]; ["home"; "u"; "proj"]; ["home"; "u"]],
     Some ["home"; "u"]).
Proof. reflexivity. Qed.

Example root_not_found :
  search (fun _ => false) ["home"; "u"] = ([["home"; "u"]; ["home"]; []], None).
Proof. reflexivity. Qed.

Example marker_at_root :
  find_project_root (fun p => bool_decide (p = ["pyproject.toml"])) ["srv"] = Some [].
Proof. reflexivity. Qed.

Example name_read :
  get_project_name
    (Document [("project", VDict [("name", VStr "demo"); ("version", VStr "0.1")])])
  = Ok (Some (VStr "demo")).
Proof. reflexivity. Qed.

Example cleaned_example :
  cleaned_deps (Document example_marker) = Ok ["a"; "b"; "a"; "c"].
Proof. reflexivity. Qed.

Example dependencies_as_string :
  cleaned_deps (Document [("project", VDict [("dependencies", VStr " a=b")])])
  = Ok ["a"; ""; "b"].
Proof. reflexivity. Qed.

Example trimmed : PyStr.strip "  requests 	" = "requests".
Proof. reflexivity. Qed.

Example unknown_verb :
  main ["frobnicate"; "--fast"] =
    Exits (UsageError "pyinit" (InvalidChoice "command" "frobnicate")).
Proof. vm_compute. reflexivity. Qed.

Example help_first : main ["--help"; "frobnicate"] = Exits (PrintHelp "pyinit").
Proof. vm_compute. reflexivity. Qed.

Example venv_help : main ["venv"; "-h"] = Exits (PrintHelp "pyinit venv").
Proof. vm_compute. reflexivity. Qed.

Example venv_create : main ["venv"; "create"] = Returns [manage_venv (AStr "create")].
Proof. vm_compute. reflexivity. Qed.

Example env_set :
  main ["env"; "set"; "A=1"; "B=2"] = Returns [manage_env (AList ["A=1"; "B=2"])].
Proof. vm_compute. reflexivity. Qed.

Example env_set_run :
  main ["env"; "set"; "run"; "B=2"] = Returns [manage_env (AList ["run"])].
Proof. vm_compute. reflexivity. Qed.

Example bump_choice :
  main ["bump"; "huge"] =
    Exits (UsageError "pyinit bump" (InvalidChoice "part" "huge")).
Proof. vm_compute. reflexivity. Qed.

Example extra_argument :
  main ["build"; "now"] =
    Exits (UsageError "pyinit" (UnrecognizedArguments ["now"])).
Proof. vm_compute. reflexivity. Qed.

Example run_with_help_flag : main ["run"; "-h"] = Returns [start_project ["-h"]].
Proof. vm_compute. reflexivity. Qed.

End Examples.
